(** * A red-black tree with parent pointers: heap-level model and verification

    The development embeds the [RedBlackTree] class (insert, delete and the
    two repair loops, with their rotations) as state-passing functions over an
    explicit object store.  A JavaScript object reference is an index into the
    store; every field read and write of the source is a read or write of the
    store.  A [while] loop is an iteration of its body bounded by a fuel
    argument; the result [None] stands for a thrown [TypeError] (a field
    access through [null]) or for exhausted fuel.  Keys are integers; the
    comparisons [<] and [===] of the source are those of [Z]. *)

From Stdlib Require Import ZArith Lia.
From stdpp Require Import base option list numbers sets sorting strings pretty.

Set Default Proof Using "Type".
Open Scope Z_scope.

(** ** Data model *)

Inductive Color := RED | BLACK.

#[global] Instance Color_eq_dec : EqDecision Color.
Proof. solve_decision. Defined.

(** An object reference: the allocation index of the node. *)
Abbreviation ref := nat.

Record Node := mkNode {
  value : Z;
  color : Color;
  left : option ref;
  right : option ref;
  parent : option ref
}.

Record RedBlackTree := mkTree {
  root : option ref;
  nodes : list Node
}.

(** [new RedBlackTree()] *)
Definition empty : RedBlackTree := mkTree None [].

Definition set_value (v : Z) (n : Node) : Node :=
  mkNode v (color n) (left n) (right n) (parent n).
Definition set_color (c : Color) (n : Node) : Node :=
  mkNode (value n) c (left n) (right n) (parent n).
Definition set_left (l : option ref) (n : Node) : Node :=
  mkNode (value n) (color n) l (right n) (parent n).
Definition set_right (r : option ref) (n : Node) : Node :=
  mkNode (value n) (color n) (left n) r (parent n).
Definition set_parent (p : option ref) (n : Node) : Node :=
  mkNode (value n) (color n) (left n) (right n) p.

(** ** The state and error monad of the methods *)

Definition M (A : Type) : Type := RedBlackTree → option (A * RedBlackTree).

#[global] Instance M_ret : MRet M := λ A a s, Some (a, s).
#[global] Instance M_bind : MBind M :=
  λ A B f m s, match m s with Some (a, s') => f a s' | None => None end.
Definition ret {A} (a : A) : M A := mret a.
Definition throw {A} : M A := λ _, None.

(** [o.f] for a non-null [o]. *)
Definition get {A} (f : Node → A) (i : ref) : M A :=
  λ s, match nodes s !! i with Some n => Some (f n, s) | None => None end.

(** [o.f = v] for a non-null [o]. *)
Definition put (upd : Node → Node) (i : ref) : M unit :=
  λ s, Some (tt, mkTree (root s) (alter upd i (nodes s))).

(** Using a nullable reference as an object: [null] throws. *)
Definition nn (r : option ref) : M ref :=
  match r with Some i => ret i | None => throw end.

(** [o.f!] followed by a field access, or [o.f.g]. *)
Definition getN (f : Node → option ref) (i : ref) : M ref :=
  r ← get f i; nn r.

Definition get_root : M (option ref) := λ s, Some (root s, s).
Definition set_root (r : option ref) : M unit :=
  λ s, Some (tt, mkTree r (nodes s)).

(** [new Node(value)]: a RED node without links, at the next index. *)
Definition new_node (v : Z) : M ref :=
  λ s, Some (length (nodes s),
             mkTree (root s) (nodes s ++ [mkNode v RED None None None])).

(** A loop body answers [inl st] to run another iteration on the locals [st]
    and [inr r] to leave the loop with [r]. *)
Fixpoint while {S R} (fuel : nat) (body : S → M (S + R)) (st : S) : M R :=
  match fuel with
  | O => throw
  | Datatypes.S fuel' =>
      x ← body st;
      match x with
      | inl st' => while fuel' body st'
      | inr r => ret r
      end
  end.

(** ** Rotations *)

Definition rotateLeft (node : ref) : M unit :=
  right_ ← getN right node;
  rl ← get left right_;
  put (set_right rl) node;;
  rl' ← get left right_;
  (match rl' with
   | Some c => put (set_parent (Some node)) c
   | None => ret tt
   end);;
  np ← get parent node;
  put (set_parent np) right_;;
  np' ← get parent node;
  (match np' with
   | None => set_root (Some right_)
   | Some p =>
       pl ← get left p;
       if decide (Some node = pl)
       then put (set_left (Some right_)) p
       else put (set_right (Some right_)) p
   end);;
  put (set_left (Some node)) right_;;
  put (set_parent (Some right_)) node.

Definition rotateRight (node : ref) : M unit :=
  left_ ← getN left node;
  lr ← get right left_;
  put (set_left lr) node;;
  lr' ← get right left_;
  (match lr' with
   | Some c => put (set_parent (Some node)) c
   | None => ret tt
   end);;
  np ← get parent node;
  put (set_parent np) left_;;
  np' ← get parent node;
  (match np' with
   | None => set_root (Some left_)
   | Some p =>
       pr ← get right p;
       if decide (Some node = pr)
       then put (set_right (Some left_)) p
       else put (set_left (Some left_)) p
   end);;
  put (set_right (Some node)) left_;;
  put (set_parent (Some left_)) node.

(** ** Insertion *)

(** [uncle && uncle.color === Color.RED] *)
Definition is_red (r : option ref) : M bool :=
  match r with
  | Some u => c ← get color u; ret (bool_decide (c = RED))
  | None => ret false
  end.

(** [o?.f] *)
Definition get_opt (f : Node → option ref) (r : option ref) : M (option ref) :=
  match r with Some i => get f i | None => ret None end.

(** One iteration of the loop of [fixInsert]; the local is [node]. *)
Definition fixInsert_body (node : ref) : M (ref + unit) :=
  np ← get parent node;
  match np with
  | None => ret (inr tt)
  | Some p =>
    pc ← get color p;
    if decide (pc = RED) then
      gp ← get parent p;
      gl ← get_opt left gp;
      if decide (Some p = gl) then
        uncle ← get_opt right gp;
        ur ← is_red uncle;
        if (ur : bool) then
          p1 ← getN parent node; put (set_color BLACK) p1;;
          u ← nn uncle; put (set_color BLACK) u;;
          p2 ← getN parent node; g2 ← getN parent p2;
          put (set_color RED) g2;;
          p3 ← getN parent node; g3 ← getN parent p3;
          ret (inl g3)
        else
          p1 ← getN parent node; pr ← get right p1;
          node' ← (if decide (Some node = pr)
                   then n' ← getN parent node; rotateLeft n';; ret n'
                   else ret node);
          p2 ← getN parent node'; put (set_color BLACK) p2;;
          p3 ← getN parent node'; g3 ← getN parent p3;
          put (set_color RED) g3;;
          p4 ← getN parent node'; g4 ← getN parent p4;
          rotateRight g4;;
          ret (inl node')
      else
        uncle ← get_opt left gp;
        ur ← is_red uncle;
        if (ur : bool) then
          p1 ← getN parent node; put (set_color BLACK) p1;;
          u ← nn uncle; put (set_color BLACK) u;;
          p2 ← getN parent node; g2 ← getN parent p2;
          put (set_color RED) g2;;
          p3 ← getN parent node; g3 ← getN parent p3;
          ret (inl g3)
        else
          p1 ← getN parent node; pl ← get left p1;
          node' ← (if decide (Some node = pl)
                   then n' ← getN parent node; rotateRight n';; ret n'
                   else ret node);
          p2 ← getN parent node'; put (set_color BLACK) p2;;
          p3 ← getN parent node'; g3 ← getN parent p3;
          put (set_color RED) g3;;
          p4 ← getN parent node'; g4 ← getN parent p4;
          rotateLeft g4;;
          ret (inl node')
    else ret (inr tt)
  end.

Definition fixInsert (fuel : nat) (node : ref) : M unit :=
  while fuel fixInsert_body node;;
  r ← get_root; rt ← nn r;
  put (set_color BLACK) rt.

(** One iteration of the descent of [insert]; the locals are
    [(current, parent)]. *)
Definition descend_body (v : Z) (st : option ref * option ref)
  : M (option ref * option ref + option ref) :=
  match fst st with
  | None => ret (inr (snd st))
  | Some c =>
      cv ← get value c;
      if decide (v < cv)
      then l ← get left c; ret (inl (l, Some c))
      else r ← get right c; ret (inl (r, Some c))
  end.

(** The part of [insert] before the call of [fixInsert]: the descent and the
    attachment of the new node, whose reference is returned. *)
Definition attach (fuel : nat) (v : Z) : M ref :=
  r ← get_root;
  par ← while fuel (descend_body v) (r, None);
  newNode ← new_node v;
  put (set_parent par) newNode;;
  p ← nn par;
  pv ← get value p;
  (if decide (v < pv)
   then p' ← nn par; put (set_left (Some newNode)) p'
   else p' ← nn par; put (set_right (Some newNode)) p');;
  ret newNode.

Definition insert (fuel : nat) (v : Z) : M unit :=
  r ← get_root;
  match r with
  | None =>
      n ← new_node v;
      set_root (Some n);;
      r' ← get_root; rt ← nn r';
      put (set_color BLACK) rt
  | Some _ =>
      newNode ← attach fuel v;
      fixInsert fuel newNode
  end.

(** ** Deletion *)

Definition findNode_body (v : Z) (current : option ref)
  : M (option ref + option ref) :=
  match current with
  | None => ret (inr None)
  | Some c =>
      cv ← get value c;
      if decide (v = cv) then ret (inr (Some c))
      else
        cv' ← get value c;
        if decide (v < cv')
        then l ← get left c; ret (inl l)
        else r ← get right c; ret (inl r)
  end.

Definition findNode (fuel : nat) (v : Z) : M (option ref) :=
  r ← get_root;
  while fuel (findNode_body v) r.

Definition findMin_body (node : ref) : M (ref + ref) :=
  l ← get left node;
  match l with
  | Some l' => ret (inl l')
  | None => ret (inr node)
  end.

Definition findMin (fuel : nat) (node : ref) : M ref :=
  while fuel findMin_body node.

Definition deleteNode (node : ref) : M (option ref) :=
  l ← get left node;
  child ← (match l with Some _ => ret l | None => get right node end);
  np ← get parent node;
  match np with
  | None =>
      set_root child;;
      (match child with
       | Some c => put (set_parent None) c
       | None => ret tt
       end);;
      ret child
  | Some p =>
      pl ← get left p;
      (if decide (Some node = pl)
       then p' ← getN parent node; put (set_left child) p'
       else p' ← getN parent node; put (set_right child) p');;
      (match child with
       | Some c => np' ← get parent node; put (set_parent np') c
       | None => ret tt
       end);;
      ret child
  end.

(** [o?.color || Color.BLACK] *)
Definition color_or_black (r : option ref) : M Color :=
  match r with Some i => get color i | None => ret BLACK end.

(** One iteration of the loop of [fixDelete]; [node] is the method's first
    argument and the local is [current]. *)
Definition fixDelete_body (node : ref) (current : option ref)
  : M (option ref + unit) :=
  match current with
  | None => ret (inr tt)
  | Some cur =>
    rt ← get_root;
    if decide (Some cur = rt) then ret (inr tt) else
    par ← getN parent cur;
    pl ← get left par;
    let isLeftChild := bool_decide (Some cur = pl) in
    sibling ← (if isLeftChild then get right par else get left par);
    match sibling with
    | None => ret (inl (Some par))
    | Some sib =>
      sc ← get color sib;
      if decide (sc = RED) then
        put (set_color BLACK) sib;;
        put (set_color RED) par;;
        (if isLeftChild then rotateLeft par else rotateRight par);;
        ret (inl (Some node))
      else
        siblingLeft ← get left sib;
        siblingRight ← get right sib;
        siblingLeftColor ← color_or_black siblingLeft;
        siblingRightColor ← color_or_black siblingRight;
        sc2 ← get color sib;
        if decide (sc2 = BLACK ∧ siblingLeftColor = BLACK
                   ∧ siblingRightColor = BLACK) then
          put (set_color RED) sib;;
          ret (inl (Some par))
        else
          sc3 ← get color sib;
          if decide (sc3 = BLACK) then
            if isLeftChild then
              if decide (siblingLeftColor = RED ∧ siblingRightColor = BLACK)
              then
                sl ← nn siblingLeft; put (set_color BLACK) sl;;
                put (set_color RED) sib;;
                rotateRight sib;;
                ret (inl (Some cur))
              else if decide (siblingRightColor = RED) then
                pc ← get color par; put (set_color pc) sib;;
                put (set_color BLACK) par;;
                sr ← nn siblingRight; put (set_color BLACK) sr;;
                rotateLeft par;;
                ret (inr tt)
              else ret (inl (Some cur))
            else
              if decide (siblingRightColor = RED ∧ siblingLeftColor = BLACK)
              then
                sr ← nn siblingRight; put (set_color BLACK) sr;;
                put (set_color RED) sib;;
                rotateLeft sib;;
                ret (inl (Some cur))
              else if decide (siblingLeftColor = RED) then
                pc ← get color par; put (set_color pc) sib;;
                put (set_color BLACK) par;;
                sl ← nn siblingLeft; put (set_color BLACK) sl;;
                rotateRight par;;
                ret (inr tt)
              else ret (inl (Some cur))
          else ret (inl (Some cur))
    end
  end.

Definition fixDelete (fuel : nat) (node : ref) (deletedNodeChild : option ref)
  : M unit :=
  while fuel (fixDelete_body node) (Some node);;
  r ← get_root;
  match r with
  | Some rt => put (set_color BLACK) rt
  | None => ret tt
  end.

Definition delete (fuel : nat) (v : Z) : M bool :=
  found ← findNode fuel v;
  match found with
  | None => ret false
  | Some node =>
      l ← get left node;
      r ← get right node;
      fix_ ← (match l, r with
              | Some _, Some r' =>
                  successor ← findMin fuel r';
                  sv ← get value successor;
                  put (set_value sv) node;;
                  nodeToFix ← deleteNode successor;
                  nodeToFixParent ← get parent successor;
                  ret (nodeToFix, nodeToFixParent)
              | _, _ =>
                  nodeToFix ← deleteNode node;
                  nodeToFixParent ← get parent node;
                  ret (nodeToFix, nodeToFixParent)
              end);
      (match fix_ with
       | (None, Some p) => fixDelete fuel p None
       | (Some f, _) => fixDelete fuel f (Some f)
       | (None, None) => ret tt
       end);;
      ret true
  end.

(** ** Running sequences of public operations *)

Inductive Op := Insert (v : Z) | Delete (v : Z).

Definition run_op (fuel : nat) (o : Op) : M bool :=
  match o with
  | Insert v => insert fuel v;; ret true
  | Delete v => delete fuel v
  end.

(** The state after a sequence of operations, and what each returned. *)
Fixpoint run (fuel : nat) (ops : list Op) : M (list bool) :=
  match ops with
  | [] => ret []
  | o :: ops' => b ← run_op fuel o; bs ← run fuel ops'; ret (b :: bs)
  end.

(** ** Observing a store as a tree *)

(** The shape of a tree: which node sits where. *)
Inductive shape := Leaf | Br (l : shape) (i : ref) (r : shape).

Definition top (t : shape) : option ref :=
  match t with Leaf => None | Br _ i _ => Some i end.

(** The nodes of a shape in in-order. *)
Fixpoint ids (t : shape) : list ref :=
  match t with Leaf => [] | Br l i r => ids l ++ i :: ids r end.

Fixpoint size (t : shape) : nat :=
  match t with Leaf => O | Br l _ r => Datatypes.S (size l + size r) end.

Fixpoint height (t : shape) : nat :=
  match t with Leaf => O | Br l _ r => Datatypes.S (height l `max` height r) end.

(** Following the child links from [p], at most [fuel] levels deep. *)
Fixpoint read (fuel : nat) (h : list Node) (p : option ref) : shape :=
  match fuel, p with
  | Datatypes.S fuel', Some i =>
      match h !! i with
      | Some n => Br (read fuel' h (left n)) i (read fuel' h (right n))
      | None => Leaf
      end
  | _, _ => Leaf
  end.

(** The tree hanging from the root; a tree of [n] nodes has no more than [n]
    levels. *)
Definition shape_of (s : RedBlackTree) : shape :=
  read (length (nodes s)) (nodes s) (root s).

Definition col (h : list Node) (i : ref) : Color :=
  match h !! i with Some n => color n | None => BLACK end.
Definition val (h : list Node) (i : ref) : Z :=
  match h !! i with Some n => value n | None => 0 end.

(** The in-order key sequence. *)
Definition keys (s : RedBlackTree) : list Z :=
  val (nodes s) <$> ids (shape_of s).

(** Absent children count as BLACK. *)
Definition col_of (h : list Node) (p : option ref) : Color :=
  match p with Some i => col h i | None => BLACK end.

(** Rule 2: the root, if present, is BLACK. *)
Definition root_black (h : list Node) (t : shape) : Prop :=
  col_of h (top t) = BLACK.

(** Rule 4: no RED node has a RED child. *)
Fixpoint no_red_red (h : list Node) (t : shape) : Prop :=
  match t with
  | Leaf => True
  | Br l i r =>
      (col h i = RED → col_of h (top l) = BLACK ∧ col_of h (top r) = BLACK)
      ∧ no_red_red h l ∧ no_red_red h r
  end.

(** Rule 5: [black_height h t = Some n] when every path from the top of [t]
    down to an absent child passes through [n] BLACK nodes. *)
Fixpoint black_height (h : list Node) (t : shape) : option nat :=
  match t with
  | Leaf => Some O
  | Br l i r =>
      match black_height h l, black_height h r with
      | Some a, Some b =>
          if decide (a = b)
          then Some (if decide (col h i = BLACK) then Datatypes.S a else a)
          else None
      | _, _ => None
      end
  end.

Definition red_black (s : RedBlackTree) : Prop :=
  root_black (nodes s) (shape_of s)
  ∧ no_red_red (nodes s) (shape_of s)
  ∧ is_Some (black_height (nodes s) (shape_of s)).

#[global] Instance no_red_red_dec h t : Decision (no_red_red h t).
Proof. induction t; simpl; apply _. Defined.

#[global] Instance red_black_dec s : Decision (red_black s).
Proof. unfold red_black, root_black. apply _. Defined.

(** ** Printing the tree *)

Definition color_name (c : Color) : string :=
  match c with RED => "RED" | BLACK => "BLACK" end.

(** [printTree(node, indent)]: the lines written by [console.log], in the
    order in which they are written, are the result.  The recursion of the
    source is bounded by the fuel. *)
Fixpoint printTree (fuel : nat) (node : option ref) (indent : string)
  : M (list string) :=
  match fuel with
  | O => throw
  | Datatypes.S fuel' =>
      match node with
      | None => ret []
      | Some n =>
          v ← get value n;
          c ← get color n;
          let line := indent +:+ pretty v +:+ "(" +:+ color_name c +:+ ")" in
          l ← get left n;
          r ← get right n;
          match l, r with
          | None, None => ret [line]
          | _, _ =>
              outl ← (match l with
                      | Some _ => printTree fuel' l (indent +:+ "  L: ")
                      | None => ret [indent +:+ "  L: null"]
                      end);
              outr ← (match r with
                      | Some _ => printTree fuel' r (indent +:+ "  R: ")
                      | None => ret [indent +:+ "  R: null"]
                      end);
              ret (line :: outl ++ outr)
          end
      end
  end.

(** [printTree()] *)
Definition printTree_root (fuel : nat) : M (list string) :=
  r ← get_root; printTree fuel r "".

(** ** Shapes with a hole *)

(** One level of the path from a position up to the root: the position is
    the left child of [i] (with right sibling [r]), or its right child. *)
Inductive frame := FL (i : ref) (r : shape) | FR (l : shape) (i : ref).

(** The path from a position up to the root, nearest ancestor first. *)
Definition ctx := list frame.

Definition fill (f : frame) (t : shape) : shape :=
  match f with FL i r => Br t i r | FR l i => Br l i t end.

Fixpoint plug (c : ctx) (t : shape) : shape :=
  match c with [] => t | f :: c' => plug c' (fill f t) end.

Definition fid (f : frame) : ref :=
  match f with FL i _ => i | FR _ i => i end.

Definition fids (f : frame) : list ref :=
  match f with FL i r => i :: ids r | FR l i => i :: ids l end.

Fixpoint cids (c : ctx) : list ref :=
  match c with [] => [] | f :: c' => fids f ++ cids c' end.

Definition ctop (c : ctx) : option ref :=
  match c with [] => None | f :: _ => Some (fid f) end.

Fixpoint croot (c : ctx) (x : option ref) : option ref :=
  match c with [] => x | f :: c' => croot c' (Some (fid f)) end.

(** ** The store represents a shape *)

(** The three links of a node. *)
Definition links (h : list Node) (i : ref)
  : option (option ref * option ref * option ref) :=
  (λ n, (left n, right n, parent n)) <$> h !! i.

(** [rep h p t]: in the store [h] the nodes of [t] are linked as [t] says,
    and the parent link of its top node is [p]. *)
Fixpoint rep (h : list Node) (p : option ref) (t : shape) : Prop :=
  match t with
  | Leaf => True
  | Br l i r =>
      links h i = Some (top l, top r, p)
      ∧ rep h (Some i) l ∧ rep h (Some i) r
  end.

(** [repc h c x]: the ancestors in [c] and their other subtrees are linked as
    [c] says, around a position that holds the reference [x]. *)
Fixpoint repc (h : list Node) (c : ctx) (x : option ref) : Prop :=
  match c with
  | [] => True
  | f :: c' =>
      match f with
      | FL i r => links h i = Some (x, top r, ctop c') ∧ rep h (Some i) r
      | FR l i => links h i = Some (top l, x, ctop c') ∧ rep h (Some i) l
      end ∧ repc h c' (Some (fid f))
  end.

(** The tree object [s] holds the tree of shape [t]: no node occurs twice. *)
Record Rep (s : RedBlackTree) (t : shape) : Prop := mkRep {
  Rep_root : root s = top t;
  Rep_links : rep (nodes s) None t;
  Rep_nodup : NoDup (ids t)
}.

(** The key and colour of a node, when it exists. *)
Definition data (h : list Node) (i : ref) : option (Z * Color) :=
  (λ n, (value n, color n)) <$> h !! i.



(** The state after [o.f = v]. *)
Definition upd (f : Node → Node) (i : ref) (s : RedBlackTree) : RedBlackTree :=
  mkTree (root s) (alter f i (nodes s)).

(** The state after [this.root = r]. *)
Definition setroot (r : option ref) (s : RedBlackTree) : RedBlackTree :=
  mkTree r (nodes s).

(** A field update that leaves the three links alone, and one that leaves key
    and colour alone. *)
Definition keeps_links (f : Node → Node) : Prop :=
  ∀ n, left (f n) = left n ∧ right (f n) = right n ∧ parent (f n) = parent n.
Definition keeps_data (f : Node → Node) : Prop :=
  ∀ n, value (f n) = value n ∧ color (f n) = color n.


(** The state after [new Node(v)]. *)
Definition alloc (v : Z) (s : RedBlackTree) : RedBlackTree :=
  mkTree (root s) (nodes s ++ [mkNode v RED None None None]).

(** ** Termination and results of fuel-bounded computations *)

(** [Runs m s a s']: started in [s] with enough fuel, [m] returns [a] and
    leaves the state [s']; and whatever the fuel, it returns nothing else. *)
Definition Runs {A} (m : nat → M A) (s : RedBlackTree) (a : A)
    (s' : RedBlackTree) : Prop :=
  (∃ f0, ∀ fuel, (f0 ≤ fuel)%nat → m fuel s = Some (a, s'))
  ∧ (∀ fuel r, m fuel s = Some r → r = (a, s')).

(** ** The searches as functions on shapes *)

(** The node [findNode] stops at. *)
Fixpoint find_shape (v : Z) (h : list Node) (t : shape) : option ref :=
  match t with
  | Leaf => None
  | Br l i r =>
      if decide (v = val h i) then Some i
      else if decide (v < val h i) then find_shape v h l
      else find_shape v h r
  end.

(** The position the descent of [insert] ends at, below the position [c]. *)
Fixpoint descend_ctx (v : Z) (h : list Node) (t : shape) (c : ctx) : ctx :=
  match t with
  | Leaf => c
  | Br l i r =>
      if decide (v < val h i) then descend_ctx v h l (FL i r :: c)
      else descend_ctx v h r (FR l i :: c)
  end.

(** The leftmost node of the tree [Br l i r] at position [c]: its position,
    its reference and its right subtree. *)
Fixpoint leftmost (l : shape) (i : ref) (r : shape) (c : ctx)
  : ctx * ref * shape :=
  match l with
  | Leaf => (c, i, r)
  | Br ll j lr => leftmost ll j lr (FL i r :: c)
  end.

(** The comparisons that lead to a position: left of a node only when the key
    is strictly less than the node's key, right of it otherwise. *)
Definition routed (v : Z) (h : list Node) (f : frame) : Prop :=
  match f with
  | FL i _ => v < val h i
  | FR _ i => ¬ (v < val h i)
  end.

(** The nodes before and after a position, in in-order. *)
Fixpoint cbefore (c : ctx) : list ref :=
  match c with
  | [] => []
  | FL _ _ :: c' => cbefore c'
  | FR l i :: c' => cbefore c' ++ ids l ++ [i]
  end.

Fixpoint cafter (c : ctx) : list ref :=
  match c with
  | [] => []
  | FL i r :: c' => i :: ids r ++ cafter c'
  | FR _ _ :: c' => cafter c'
  end.

(** The situation of the last case of [fixDelete] at a position: the sibling
    is BLACK and its child on the far side is RED. *)
Definition far_red (h : list Node) (c : ctx) : Prop :=
  match c with
  | FL _ (Br _ sib (Br _ far _)) :: _ => col h sib = BLACK ∧ col h far = RED
  | FR (Br (Br _ far _) sib _) _ :: _ => col h sib = BLACK ∧ col h far = RED
  | _ => False
  end.

(** ** Reachable trees *)

(** The trees that the public operations build from the empty tree. *)
Inductive reachable : RedBlackTree → Prop :=
  | reach_empty : reachable empty
  | reach_insert s fuel v s' :
      reachable s → insert fuel v s = Some (tt, s') → reachable s'
  | reach_delete s fuel v b s' :
      reachable s → delete fuel v s = Some (b, s') → reachable s'.

(** The child links from the root form a tree without sharing, and the parent
    links point back along them. *)
Definition well_formed (s : RedBlackTree) : Prop := Rep s (shape_of s).

(** The in-order key sequence is non-decreasing. *)
Definition ordered (s : RedBlackTree) : Prop := StronglySorted Z.le (keys s).

(** What holds between any two public operations. *)
Definition Inv (s : RedBlackTree) : Prop :=
  well_formed s ∧ col_of (nodes s) (root s) = BLACK ∧ ordered s.

(** [o.parent] as a partial function of the store. *)
Definition parent_of (h : list Node) (i : ref) : option ref :=
  match h !! i with Some n => parent n | None => None end.

(** The parent links agree with the child links: the root has no parent, and
    the parent of every child of a node of the tree is that node. *)
Definition parents_consistent (s : RedBlackTree) : Prop :=
  (∀ r, root s = Some r → parent_of (nodes s) r = None)
  ∧ ∀ i n, i ∈ ids (shape_of s) → nodes s !! i = Some n →
      (∀ c, left n = Some c → parent_of (nodes s) c = Some i)
      ∧ (∀ c, right n = Some c → parent_of (nodes s) c = Some i).

(** The node that [delete] splices out: the node found when it has at most
    one child, its in-order successor otherwise. *)
Definition spliced_node (fuel : nat) (v : Z) : M (option ref) :=
  found ← findNode fuel v;
  match found with
  | None => ret None
  | Some node =>
      l ← get left node;
      r ← get right node;
      match l, r with
      | Some _, Some r' => successor ← findMin fuel r'; ret (Some successor)
      | _, _ => ret (Some node)
      end
  end.

(** [delete] without its repair step: the search, the key copy and the
    splice. *)
Definition splice_only (fuel : nat) (v : Z) : M bool :=
  found ← findNode fuel v;
  match found with
  | None => ret false
  | Some node =>
      l ← get left node;
      r ← get right node;
      match l, r with
      | Some _, Some r' =>
          successor ← findMin fuel r';
          sv ← get value successor;
          put (set_value sv) node;;
          deleteNode successor;;
          ret true
      | _, _ => deleteNode node;; ret true
      end
  end.

(** The height bound of red-black trees, [height ≤ 2·log₂(n+1)], over the
    natural numbers: [2^height ≤ (n+1)²]. *)
Definition height_bound (s : RedBlackTree) : Prop :=
  (2 ^ height (shape_of s) ≤ (size (shape_of s) + 1) ^ 2)%nat.

(** The same bound when the height counts the links of the longest path
    rather than its nodes. *)
Definition height_bound_links (s : RedBlackTree) : Prop :=
  (2 ^ (height (shape_of s) - 1) ≤ (size (shape_of s) + 1) ^ 2)%nat.

(** The keys of the demonstration at the end of the source file. *)
Definition demo_values : list Z := [10; 5; 15; 3; 7; 12; 17; 1; 4; 6; 8].
Definition demo_deleted : list Z := [3; 1; 5].

(** The tree that a sequence of operations builds from the empty tree. *)
Definition after (ops : list Op) : RedBlackTree :=
  match run 64 ops empty with
  | Some (_, s) => s
  | None => empty
  end.

(** A small tree for examples: 2 at the root, 1 and 3 below it. *)
Definition small_tree : RedBlackTree :=
  Eval vm_compute in after [Insert 2; Insert 1; Insert 3].

(** ** A sorted list as the model of the keys *)

(** Insertion into a sorted list, after the elements that are not greater. *)
Fixpoint sorted_insert (v : Z) (l : list Z) : list Z :=
  match l with
  | [] => [v]
  | k :: l' => if decide (v < k) then v :: l else k :: sorted_insert v l'
  end.

(** Removal of the first occurrence. *)
Fixpoint remove_one (v : Z) (l : list Z) : list Z :=
  match l with
  | [] => []
  | k :: l' => if decide (k = v) then l' else k :: remove_one v l'
  end.

(** What an operation answers and does on the model. *)
Definition model_op (o : Op) (l : list Z) : bool * list Z :=
  match o with
  | Insert v => (true, sorted_insert v l)
  | Delete v => (bool_decide (v ∈ l), remove_one v l)
  end.

Fixpoint model_run (ops : list Op) (l : list Z) : list bool * list Z :=
  match ops with
  | [] => ([], l)
  | o :: ops' =>
      let r := model_run ops' (model_op o l).2 in
      ((model_op o l).1 :: r.1, r.2)
  end.

(** ** The red-black rules around a position *)

(** The subtree beside a position. *)
Definition fsib (f : frame) : shape :=
  match f with FL _ r => r | FR l _ => l end.

(** [ctx_rb h c n]: around a subtree of black height [n], the ancestors in
    [c] and their other subtrees satisfy rules 4 and 5; the colour of the
    top of the subtree itself is left aside. *)
Fixpoint ctx_rb (h : list Node) (c : ctx) (n : nat) : Prop :=
  match c with
  | [] => True
  | f :: c' =>
      no_red_red h (fsib f) ∧ black_height h (fsib f) = Some n
      ∧ (col h (fid f) = RED →
           col_of h (top (fsib f)) = BLACK ∧ col_of h (ctop c') = BLACK)
      ∧ ctx_rb h c' (if decide (col h (fid f) = BLACK) then Datatypes.S n else n)
  end.

(** A colouring, and a colouring with one node recoloured. *)
Definition coloring := ref → Color.

Definition kof (k : coloring) (p : option ref) : Color :=
  match p with Some i => k i | None => BLACK end.

Definition recol (k : coloring) (p : option ref) (c : Color) : coloring :=
  λ j, if decide (Some j = p) then c else k j.

(** One iteration of [fixInsert] on shapes and colourings: [None] when the
    loop is left, otherwise the new colouring and the new position of the
    local [node]. *)
Definition fixInsert_step (k : coloring) (c : ctx) (l : shape) (x : ref)
    (r : shape) : option (coloring * ctx * shape * ref * shape) :=
  match c with
  | f :: g :: c' =>
      if decide (k (fid f) = RED) then
        match g with
        | FL gp u =>
            if decide (kof k (top u) = RED) then
              Some (recol (recol (recol k (Some (fid f)) BLACK) (top u) BLACK)
                      (Some gp) RED,
                    c', fill f (Br l x r), gp, u)
            else
              match f with
              | FL p sib =>
                  Some (recol (recol k (Some p) BLACK) (Some gp) RED,
                        FL p (Br sib gp u) :: c', l, x, r)
              | FR sib p =>
                  Some (recol (recol k (Some x) BLACK) (Some gp) RED,
                        FL x (Br r gp u) :: c', sib, p, l)
              end
        | FR u gp =>
            if decide (kof k (top u) = RED) then
              Some (recol (recol (recol k (Some (fid f)) BLACK) (top u) BLACK)
                      (Some gp) RED,
                    c', u, gp, fill f (Br l x r))
            else
              match f with
              | FR sib p =>
                  Some (recol (recol k (Some p) BLACK) (Some gp) RED,
                        FR (Br u gp sib) p :: c', l, x, r)
              | FL p sib =>
                  Some (recol (recol k (Some x) BLACK) (Some gp) RED,
                        FR (Br u gp l) x :: c', r, p, sib)
              end
        end
      else None
  | _ => None
  end.

(** What holds at the head of each iteration of [fixInsert]: the node is
    RED, its subtree and the rest of the tree around it satisfy rules 4 and
    5, and the root is BLACK unless the node is the root. *)
Definition fixInsert_inv (h : list Node) (c : ctx) (l : shape) (x : ref)
    (r : shape) : Prop :=
  col h x = RED
  ∧ no_red_red h (Br l x r)
  ∧ (∃ n, black_height h (Br l x r) = Some n ∧ ctx_rb h c n)
  ∧ (col_of h (croot c (Some x)) = BLACK ∨ c = []).

(** ** The printed lines of a shape *)

(** The lines of a tree: a line for each node in pre-order, indented by the
    path to it, and a line for the absent child of each node that has
    exactly one child. *)
Fixpoint render (h : list Node) (t : shape) (indent : string) : list string :=
  match t with
  | Leaf => []
  | Br l i r =>
      let line :=
        indent +:+ pretty (val h i) +:+ "(" +:+ color_name (col h i) +:+ ")" in
      match l, r with
      | Leaf, Leaf => [line]
      | _, _ =>
          line
          :: (match l with
              | Leaf => [indent +:+ "  L: null"]
              | _ => render h l (indent +:+ "  L: ")
              end)
          ++ (match r with
              | Leaf => [indent +:+ "  R: null"]
              | _ => render h r (indent +:+ "  R: ")
              end)
      end
  end.

(** The nodes that have exactly one child. *)
Fixpoint one_child (t : shape) : nat :=
  match t with
  | Leaf => O
  | Br l _ r =>
      (match l, r with
       | Leaf, Br _ _ _ | Br _ _ _, Leaf => 1
       | _, _ => 0
       end + one_child l + one_child r)%nat
  end.

(** * Part II: verification *)

(** ** Shapes, positions and representation *)

Section shapes.
Implicit Types (h : list Node) (t l r : shape) (c : ctx) (i j x : ref)
  (p : option ref).

Lemma top_plug c t : top (plug c t) = croot c (top t).
Proof. revert t. induction c as [|[] c IH]; intros t; simpl; [done|..]; by rewrite IH. Qed.

Lemma ids_plug c t : ids (plug c t) ≡ₚ ids t ++ cids c.
Proof.
  revert t. induction c as [|[i r|l i] c IH]; intros t; simpl.
  - by rewrite app_nil_r.
  - rewrite IH. simpl. rewrite <-!app_assoc. done.
  - rewrite IH. simpl. rewrite <-!app_assoc. simpl.
    rewrite <-!Permutation_middle. f_equiv.
    rewrite !app_assoc. f_equiv. apply Permutation_app_comm.
Qed.

Lemma size_ids t : length (ids t) = size t.
Proof. induction t; simpl; [done|]. rewrite length_app. simpl. lia. Qed.

Lemma height_size t : (height t ≤ size t)%nat.
Proof. induction t; simpl; lia. Qed.

Lemma top_elem t i : top t = Some i → i ∈ ids t.
Proof. destruct t; simpl; [done|]. intros [= ->]. set_solver. Qed.

Lemma ctop_elem c i : ctop c = Some i → i ∈ cids c.
Proof. destruct c as [|[] c]; simpl; [done|..]; intros [= ->]; set_solver. Qed.

Lemma rep_plug h c t :
  rep h None (plug c t) ↔ rep h (ctop c) t ∧ repc h c (top t).
Proof.
  revert t. induction c as [|[i r|l i] c IH]; intros t; simpl.
  - tauto.
  - rewrite IH. simpl. tauto.
  - rewrite IH. simpl. tauto.
Qed.

Lemma Rep_plug s c t :
  Rep s (plug c t) ↔
  root s = croot c (top t) ∧ rep (nodes s) (ctop c) t
  ∧ repc (nodes s) c (top t) ∧ NoDup (ids t ++ cids c).
Proof.
  split.
  - intros [H1 H2 H3]. rewrite top_plug in H1. rewrite rep_plug in H2.
    rewrite ids_plug in H3. tauto.
  - intros (H1 & H2 & H3 & H4). split.
    + by rewrite top_plug.
    + rewrite rep_plug. tauto.
    + by rewrite ids_plug.
Qed.

Lemma plug_app c1 c2 t : plug (c1 ++ c2) t = plug c2 (plug c1 t).
Proof. revert t. induction c1 as [|f c1 IH]; intros t; simpl; [done|]. by rewrite IH. Qed.

(** Every node of a shape is the top of a subtree at some position. *)
Lemma focus t i : i ∈ ids t → ∃ c l r, t = plug c (Br l i r).
Proof.
  induction t as [|l IHl j r IHr]; simpl; [set_solver|].
  rewrite elem_of_app, elem_of_cons. intros [H|[->|H]].
  - destruct (IHl H) as (c & l' & r' & ->).
    exists (c ++ [FL j r]), l', r'. by rewrite plug_app.
  - by exists [], l, r.
  - destruct (IHr H) as (c & l' & r' & ->).
    exists (c ++ [FR l j]), l', r'. by rewrite plug_app.
Qed.

(** Stores with the same links represent the same shapes. *)
Lemma rep_frame h h' p t :
  (∀ i, i ∈ ids t → links h' i = links h i) → rep h p t → rep h' p t.
Proof.
  revert p. induction t as [|l IHl j r IHr]; intros p Hf; simpl; [done|].
  intros (H1 & H2 & H3). split_and!.
  - rewrite Hf; [done|set_solver].
  - apply IHl; [|done]. intros k Hk; apply Hf; set_solver.
  - apply IHr; [|done]. intros k Hk; apply Hf; set_solver.
Qed.

Lemma repc_frame h h' c (x : option ref) :
  (∀ i, i ∈ cids c → links h' i = links h i) → repc h c x → repc h' c x.
Proof.
  revert x. induction c as [|[j r|l j] c IH]; intros x Hf; simpl; [done|..].
  - intros ((H1 & H2) & H3). split_and!.
    + rewrite Hf; [done|set_solver].
    + eapply rep_frame; [|done]. intros k Hk; apply Hf; set_solver.
    + apply IH; [|done]. intros k Hk; apply Hf; set_solver.
  - intros ((H1 & H2) & H3). split_and!.
    + rewrite Hf; [done|set_solver].
    + eapply rep_frame; [|done]. intros k Hk; apply Hf; set_solver.
    + apply IH; [|done]. intros k Hk; apply Hf; set_solver.
Qed.

(** The nodes of a represented shape exist in the store. *)
Lemma rep_valid h p t i : rep h p t → i ∈ ids t → is_Some (links h i).
Proof.
  revert p. induction t as [|l IHl j r IHr]; intros p; simpl; [set_solver|].
  intros (H1 & H2 & H3). rewrite elem_of_app, elem_of_cons.
  intros [H|[->|H]]; eauto.
Qed.

Lemma links_lt h i : is_Some (links h i) → (i < length h)%nat.
Proof. unfold links. rewrite fmap_is_Some. apply lookup_lt_is_Some. Qed.

Lemma NoDup_bound (l : list nat) n :
  NoDup l → (∀ x, x ∈ l → (x < n)%nat) → (length l ≤ n)%nat.
Proof.
  intros Hnd Hlt. rewrite <-(length_seq n 0). apply submseteq_length.
  apply NoDup_submseteq; [done|]. intros x Hx. apply elem_of_seq. specialize (Hlt x Hx). lia.
Qed.

(** Reading the store back yields the represented shape. *)
Lemma read_rep h p t fuel :
  rep h p t → (height t ≤ fuel)%nat → read fuel h (top t) = t.
Proof.
  revert p t. induction fuel as [|fuel IH]; intros p [|l i r]; simpl; try done; try lia.
  intros (H1 & H2 & H3) Hh. unfold links in H1.
  destruct (h !! i) as [n|]; [|done]. simpl in H1. injection H1 as -> -> _.
  rewrite (IH _ _ H2), (IH _ _ H3) by lia. done.
Qed.

Lemma shape_of_Rep s t : Rep s t → shape_of s = t.
Proof.
  intros [H1 H2 H3]. unfold shape_of. rewrite H1. eapply read_rep; [done|].
  etrans; [apply height_size|]. rewrite <-size_ids. apply NoDup_bound; [done|].
  intros x Hx. apply links_lt. by eapply rep_valid.
Qed.

End shapes.

(** ** Executing field reads and writes *)

Section exec.
Implicit Types (h : list Node) (s : RedBlackTree) (i j x : ref)
  (l r p : option ref) (t : shape) (c : ctx).

Lemma bind_eq {A B} (m : M A) (k : A → M B) s a s' :
  m s = Some (a, s') → (m ≫= k) s = k a s'.
Proof. unfold mbind, M_bind. by intros ->. Qed.

Lemma bind_assoc {A B C} (m : M A) (k1 : A → M B) (k2 : B → M C) s :
  ((m ≫= k1) ≫= k2) s = (m ≫= λ a, k1 a ≫= k2) s.
Proof. unfold mbind, M_bind. by destruct (m s) as [[]|]. Qed.

Lemma put_eq f i s : put f i s = Some (tt, upd f i s).
Proof. done. Qed.

Lemma set_root_eq r s : set_root r s = Some (tt, setroot r s).
Proof. done. Qed.

Lemma get_root_eq s : get_root s = Some (root s, s).
Proof. done. Qed.

Lemma ret_eq {A} (a : A) s : ret a s = Some (a, s).
Proof. done. Qed.

Lemma get_left s i l r p :
  links (nodes s) i = Some (l, r, p) → get left i s = Some (l, s).
Proof. unfold links, get. destruct (nodes s !! i); simpl; [|done]. by intros [= -> _ _]. Qed.

Lemma get_right s i l r p :
  links (nodes s) i = Some (l, r, p) → get right i s = Some (r, s).
Proof. unfold links, get. destruct (nodes s !! i); simpl; [|done]. by intros [= _ -> _]. Qed.

Lemma get_parent s i l r p :
  links (nodes s) i = Some (l, r, p) → get parent i s = Some (p, s).
Proof. unfold links, get. destruct (nodes s !! i); simpl; [|done]. by intros [= _ _ ->]. Qed.

Lemma get_color s i :
  is_Some (links (nodes s) i) → get color i s = Some (col (nodes s) i, s).
Proof. unfold links, get, col. destruct (nodes s !! i); simpl; [done|]. by intros [? [=]]. Qed.

Lemma get_value s i :
  is_Some (links (nodes s) i) → get value i s = Some (val (nodes s) i, s).
Proof. unfold links, get, val. destruct (nodes s !! i); simpl; [done|]. by intros [? [=]]. Qed.

Lemma links_upd_ne f i j s :
  i ≠ j → links (nodes (upd f j s)) i = links (nodes s) i.
Proof. intros. unfold links, upd. simpl. by rewrite list_lookup_alter_ne. Qed.

Lemma links_upd_keep f i j s :
  keeps_links f → links (nodes (upd f j s)) i = links (nodes s) i.
Proof.
  intros Hf. destruct (decide (i = j)) as [->|]; [|by apply links_upd_ne].
  unfold links, upd. simpl. rewrite list_lookup_alter_eq.
  destruct (nodes s !! j) as [n|]; simpl; [|done].
  by destruct (Hf n) as (-> & -> & ->).
Qed.

Lemma links_upd_left v i s l r p :
  links (nodes s) i = Some (l, r, p) →
  links (nodes (upd (set_left v) i s)) i = Some (v, r, p).
Proof.
  unfold links, upd. simpl. rewrite list_lookup_alter_eq.
  destruct (nodes s !! i); simpl; [|done]. by intros [= _ -> ->].
Qed.

Lemma links_upd_right v i s l r p :
  links (nodes s) i = Some (l, r, p) →
  links (nodes (upd (set_right v) i s)) i = Some (l, v, p).
Proof.
  unfold links, upd. simpl. rewrite list_lookup_alter_eq.
  destruct (nodes s !! i); simpl; [|done]. by intros [= -> _ ->].
Qed.

Lemma links_upd_parent v i s l r p :
  links (nodes s) i = Some (l, r, p) →
  links (nodes (upd (set_parent v) i s)) i = Some (l, r, v).
Proof.
  unfold links, upd. simpl. rewrite list_lookup_alter_eq.
  destruct (nodes s !! i); simpl; [|done]. by intros [= -> -> _].
Qed.

Lemma data_upd_ne f i j s :
  i ≠ j → data (nodes (upd f j s)) i = data (nodes s) i.
Proof. intros. unfold data, upd. simpl. by rewrite list_lookup_alter_ne. Qed.

Lemma data_upd_keep f i j s :
  keeps_data f → data (nodes (upd f j s)) i = data (nodes s) i.
Proof.
  intros Hf. destruct (decide (i = j)) as [->|]; [|by apply data_upd_ne].
  unfold data, upd. simpl. rewrite list_lookup_alter_eq.
  destruct (nodes s !! j) as [n|]; simpl; [|done].
  by destruct (Hf n) as (-> & ->).
Qed.

Lemma keeps_links_color (k : Color) : keeps_links (set_color k).
Proof. done. Qed.
Lemma keeps_links_value v : keeps_links (set_value v).
Proof. done. Qed.
Lemma keeps_data_left v : keeps_data (set_left v).
Proof. done. Qed.
Lemma keeps_data_right v : keeps_data (set_right v).
Proof. done. Qed.
Lemma keeps_data_parent v : keeps_data (set_parent v).
Proof. done. Qed.

Lemma length_upd f i s : length (nodes (upd f i s)) = length (nodes s).
Proof. unfold upd. simpl. apply length_alter. Qed.

Lemma col_data h h' i : data h' i = data h i → col h' i = col h i.
Proof. unfold data, col. destruct (h' !! i), (h !! i); simpl; congruence. Qed.

Lemma val_data h h' i : data h' i = data h i → val h' i = val h i.
Proof. unfold data, val. destruct (h' !! i), (h !! i); simpl; congruence. Qed.

Lemma links_upd_ne' f i j s v :
  i ≠ j → links (nodes s) i = v → links (nodes (upd f j s)) i = v.
Proof. intros. by rewrite links_upd_ne. Qed.

Lemma links_upd_keep' f i j s v :
  keeps_links f → links (nodes s) i = v → links (nodes (upd f j s)) i = v.
Proof. intros. by rewrite links_upd_keep. Qed.

Lemma rep_upd_ne f j s p t :
  j ∉ ids t → rep (nodes s) p t → rep (nodes (upd f j s)) p t.
Proof.
  intros Hj. apply rep_frame. intros i Hi. apply links_upd_ne. congruence.
Qed.

Lemma rep_upd_keep f j s p t :
  keeps_links f → rep (nodes s) p t → rep (nodes (upd f j s)) p t.
Proof. intros Hf. apply rep_frame. intros i Hi. by apply links_upd_keep. Qed.

Lemma repc_upd_ne f j s c (x : option ref) :
  j ∉ cids c → repc (nodes s) c x → repc (nodes (upd f j s)) c x.
Proof.
  intros Hj. apply repc_frame. intros i Hi. apply links_upd_ne. congruence.
Qed.

Lemma repc_upd_keep f j s c (x : option ref) :
  keeps_links f → repc (nodes s) c x → repc (nodes (upd f j s)) c x.
Proof. intros Hf. apply repc_frame. intros i Hi. by apply links_upd_keep. Qed.

Lemma new_node_eq v s : new_node v s = Some (length (nodes s), alloc v s).
Proof. done. Qed.

Lemma links_alloc v s i lk :
  links (nodes s) i = Some lk → links (nodes (alloc v s)) i = Some lk.
Proof.
  unfold links, alloc. simpl. intros H.
  destruct (nodes s !! i) as [n|] eqn:E; [|done].
  by rewrite (lookup_app_l_Some _ _ _ _ E).
Qed.

Lemma links_alloc_new v s :
  links (nodes (alloc v s)) (length (nodes s)) = Some (None, None, None).
Proof.
  unfold links, alloc. simpl. rewrite lookup_app_r by lia.
  by rewrite Nat.sub_diag.
Qed.

Lemma rep_alloc v s p t : rep (nodes s) p t → rep (nodes (alloc v s)) p t.
Proof.
  revert p. induction t as [|l IHl i r IHr]; intros p; simpl; [done|].
  intros (H1 & H2 & H3). split_and!; [by apply links_alloc|by apply IHl|by apply IHr].
Qed.

Lemma repc_alloc v s c (x : option ref) :
  repc (nodes s) c x → repc (nodes (alloc v s)) c x.
Proof.
  revert x. induction c as [|[i r|l i] c IH]; intros x; simpl; [done|..];
    intros ((H1 & H2) & H3);
    (split_and!; [by apply links_alloc|by apply rep_alloc|by apply IH]).
Qed.

Lemma repc_valid h c (x : option ref) i :
  repc h c x → i ∈ cids c → is_Some (links h i).
Proof.
  revert x. induction c as [|[j r|l j] c IH]; intros x; simpl; [set_solver|..];
    intros ((H1 & H2) & H3); rewrite elem_of_cons, elem_of_app;
    (intros [->|[H|H]]; [done|by eapply rep_valid|by eapply IH]).
Qed.

Lemma data_alloc v s i :
  i ≠ length (nodes s) → data (nodes (alloc v s)) i = data (nodes s) i.
Proof.
  intros Hi. unfold data, alloc. simpl.
  destruct (decide (i < length (nodes s))%nat).
  - by rewrite lookup_app_l.
  - rewrite !lookup_ge_None_2; [done|lia|]. rewrite length_app. simpl. lia.
Qed.

Lemma data_alloc_new v s :
  data (nodes (alloc v s)) (length (nodes s)) = Some (v, RED).
Proof.
  unfold data, alloc. simpl. rewrite lookup_app_r by lia.
  by rewrite Nat.sub_diag.
Qed.

Lemma length_alloc v s : length (nodes (alloc v s)) = Datatypes.S (length (nodes s)).
Proof. unfold alloc. simpl. rewrite length_app. simpl. lia. Qed.

Lemma val_upd_keep f i j s :
  keeps_data f → val (nodes (upd f j s)) i = val (nodes s) i.
Proof. intros. apply val_data. by apply data_upd_keep. Qed.

Lemma col_upd_keep f i j s :
  keeps_data f → col (nodes (upd f j s)) i = col (nodes s) i.
Proof. intros. apply col_data. by apply data_upd_keep. Qed.

Lemma col_upd_ne f i j s :
  i ≠ j → col (nodes (upd f j s)) i = col (nodes s) i.
Proof. intros. apply col_data. by apply data_upd_ne. Qed.

Lemma val_upd_ne f i j s :
  i ≠ j → val (nodes (upd f j s)) i = val (nodes s) i.
Proof. intros. apply val_data. by apply data_upd_ne. Qed.

Lemma col_upd_color k i s :
  is_Some (links (nodes s) i) → col (nodes (upd (set_color k) i s)) i = k.
Proof.
  unfold links, col, upd. simpl. rewrite list_lookup_alter_eq.
  destruct (nodes s !! i); simpl; [done|]. by intros [? [=]].
Qed.

Lemma val_upd_color k i j s :
  val (nodes (upd (set_color k) j s)) i = val (nodes s) i.
Proof.
  destruct (decide (i = j)) as [->|]; [|by apply val_upd_ne].
  unfold val, upd. simpl. rewrite list_lookup_alter_eq.
  by destruct (nodes s !! j).
Qed.

Lemma col_upd_value v i j s :
  col (nodes (upd (set_value v) j s)) i = col (nodes s) i.
Proof.
  destruct (decide (i = j)) as [->|]; [|by apply col_upd_ne].
  unfold col, upd. simpl. rewrite list_lookup_alter_eq.
  by destruct (nodes s !! j).
Qed.

Lemma val_upd_value v i s :
  is_Some (links (nodes s) i) → val (nodes (upd (set_value v) i s)) i = v.
Proof.
  unfold links, val, upd. simpl. rewrite list_lookup_alter_eq.
  destruct (nodes s !! i); simpl; [done|]. by intros [? [=]].
Qed.

Lemma val_alloc v s i :
  i ≠ length (nodes s) → val (nodes (alloc v s)) i = val (nodes s) i.
Proof. intros. apply val_data. by apply data_alloc. Qed.

Lemma val_alloc_new v s : val (nodes (alloc v s)) (length (nodes s)) = v.
Proof.
  unfold val, alloc. simpl. rewrite lookup_app_r by lia.
  by rewrite Nat.sub_diag.
Qed.

Lemma col_alloc v s i :
  i ≠ length (nodes s) → col (nodes (alloc v s)) i = col (nodes s) i.
Proof. intros. apply col_data. by apply data_alloc. Qed.

Lemma is_red_eq s t p :
  rep (nodes s) p t →
  is_red (top t) s = Some (bool_decide (col_of (nodes s) (top t) = RED), s).
Proof.
  destruct t as [|l i r]; simpl; [done|]. intros (H & _). unfold is_red.
  erewrite bind_eq; [|apply get_color; eauto]. done.
Qed.

Lemma color_or_black_eq s t p :
  rep (nodes s) p t →
  color_or_black (top t) s = Some (col_of (nodes s) (top t), s).
Proof.
  destruct t as [|l i r]; simpl; [done|]. intros (H & _).
  apply get_color; eauto.
Qed.

Lemma top_ne t i : i ∉ ids t → Some i ≠ top t.
Proof. intros Hi E. symmetry in E. by apply top_elem in E. Qed.

Lemma root_upd f i s : root (upd f i s) = root s.
Proof. done. Qed.

Lemma root_alloc v s : root (alloc v s) = root s.
Proof. done. Qed.

Lemma nodes_setroot r s : nodes (setroot r s) = nodes s.
Proof. done. Qed.

End exec.

#[global] Opaque upd setroot alloc.

Create HintDb heap.
#[global] Hint Resolve keeps_links_color keeps_links_value keeps_data_left
  keeps_data_right keeps_data_parent : heap.

(** Looking up the links of a node through a sequence of field writes. *)
(** Distinctness of nodes, from the absence of duplicates in the shape:
    a node that occurs at two places of a duplicate-free list is absurd. *)
Ltac elem_search :=
  first
    [ assumption
    | apply list_elem_of_here
    | apply top_elem; assumption
    | apply ctop_elem; assumption
    | apply list_elem_of_further; elem_search
    | apply elem_of_app; left; elem_search
    | apply elem_of_app; right; elem_search ].

Ltac nd_contra a H :=
  lazymatch type of H with
  | NoDup (?x :: ?L) =>
      first
        [ constr_eq x a;
          let H1 := fresh in
          pose proof (proj1 (proj1 (NoDup_cons x L) H)) as H1;
          apply H1; elem_search
        | let H2 := fresh in
          pose proof (proj2 (proj1 (NoDup_cons x L) H)) as H2;
          nd_contra a H2 ]
  | NoDup (?A ++ ?B) =>
      first
        [ let H1 := fresh in
          pose proof (proj1 (proj2 (proj1 (NoDup_app A B) H)) a) as H1;
          apply H1; elem_search
        | let H2 := fresh in
          pose proof (proj1 (proj1 (NoDup_app A B) H)) as H2;
          nd_contra a H2
        | let H3 := fresh in
          pose proof (proj2 (proj2 (proj1 (NoDup_app A B) H))) as H3;
          nd_contra a H3 ]
  end.

Ltac nd_solve :=
  lazymatch goal with
  | |- ?a ∉ _ =>
      let Hin := fresh in
      intros Hin;
      match goal with
      | H : NoDup _ |- _ =>
          let H' := fresh in
          pose proof H as H'; simpl in H'; simpl in Hin; nd_contra a H'
      end
  | |- ?a ≠ ?b =>
      let E := fresh in
      intros E;
      match goal with
      | H : NoDup _ |- _ =>
          let H' := fresh in
          pose proof H as H'; simpl in H';
          first [ subst a; nd_contra b H' | subst b; nd_contra a H' ]
      end
  end.

Ltac solve_ne :=
  first [ assumption | apply not_eq_sym; assumption | nd_solve ].

Ltac solve_links :=
  lazymatch goal with
  | |- links (nodes (upd ?f ?j ?s)) ?i = _ =>
      first
        [ apply links_upd_keep'; [solve [auto with heap] | solve_links]
        | constr_eq i j;
          first [ eapply links_upd_left | eapply links_upd_right
                | eapply links_upd_parent ]; solve_links
        | apply links_upd_ne'; [solve_ne | solve_links] ]
  | |- links (nodes (setroot _ ?s)) ?i = _ =>
      change (nodes (setroot _ s)) with (nodes s); solve_links
  | |- links (nodes (alloc _ ?s)) ?i = _ =>
      first [ apply links_alloc_new | apply links_alloc; solve_links ]
  | |- _ => eassumption
  end.

Ltac solve_rep :=
  lazymatch goal with
  | |- rep (nodes (upd ?f ?j ?s)) _ _ =>
      first [ apply rep_upd_keep; [solve [auto with heap] | solve_rep]
            | apply rep_upd_ne; [nd_solve | solve_rep] ]
  | |- rep (nodes (setroot _ ?s)) _ _ =>
      change (nodes (setroot _ s)) with (nodes s); solve_rep
  | |- repc (nodes (upd ?f ?j ?s)) _ _ =>
      first [ apply repc_upd_keep; [solve [auto with heap] | solve_rep]
            | apply repc_upd_ne; [nd_solve | solve_rep] ]
  | |- repc (nodes (setroot _ ?s)) _ _ =>
      change (nodes (setroot _ s)) with (nodes s); solve_rep
  | |- rep (nodes (alloc _ ?s)) _ _ => apply rep_alloc; solve_rep
  | |- repc (nodes (alloc _ ?s)) _ _ => apply repc_alloc; solve_rep
  | |- _ => eassumption
  end.

Ltac solve_data :=
  intros; rewrite ?nodes_setroot;
  repeat (rewrite data_upd_keep by auto with heap; rewrite ?nodes_setroot);
  rewrite ?data_alloc_new, ?data_alloc by assumption;
  try done.

Ltac solve_length :=
  rewrite ?nodes_setroot;
  repeat (rewrite length_upd; rewrite ?nodes_setroot);
  rewrite ?length_alloc; try done.

(** One step of execution: the first action of the program is a field read,
    a field write or a root access. *)
Ltac exec1 :=
  lazymatch goal with
  | |- context [ ((?m ≫= ?k1) ≫= ?k2) ?s ] =>
      rewrite (bind_assoc m k1 k2 s)
  | |- context [ (get left ?i ≫= ?k) ?s ] =>
      erewrite (bind_eq (get left i) k s); [|eapply get_left; solve_links]
  | |- context [ (get right ?i ≫= ?k) ?s ] =>
      erewrite (bind_eq (get right i) k s); [|eapply get_right; solve_links]
  | |- context [ (get parent ?i ≫= ?k) ?s ] =>
      erewrite (bind_eq (get parent i) k s); [|eapply get_parent; solve_links]
  | |- context [ (get value ?i ≫= ?k) ?s ] =>
      erewrite (bind_eq (get value i) k s);
      [|eapply get_value; eexists; solve_links]
  | |- context [ (get color ?i ≫= ?k) ?s ] =>
      erewrite (bind_eq (get color i) k s);
      [|eapply get_color; eexists; solve_links]
  | |- context [ (put ?f ?i ≫= ?k) ?s ] =>
      rewrite (bind_eq (put f i) k s _ _ (put_eq f i s))
  | |- context [ (new_node ?v ≫= ?k) ?s ] =>
      rewrite (bind_eq (new_node v) k s _ _ (new_node_eq v s))
  | |- context [ (set_root ?r ≫= ?k) ?s ] =>
      rewrite (bind_eq (set_root r) k s _ _ (set_root_eq r s))
  | |- context [ (get_root ≫= ?k) ?s ] =>
      rewrite (bind_eq get_root k s _ _ (get_root_eq s))
  | |- context [ (ret ?a ≫= ?k) ?s ] =>
      rewrite (bind_eq (ret a) k s _ _ (ret_eq a s))
  | |- context [ (nn (Some ?a) ≫= ?k) ?s ] =>
      rewrite (bind_eq (nn (Some a)) k s _ _ (ret_eq a s))
  | |- context [ decide (Some ?a = Some ?a) ] =>
      rewrite (decide_True (P := Some a = Some a)) by reflexivity
  | |- context [ decide (Some ?a = top ?t) ] =>
      rewrite (decide_False (P := Some a = top t)) by (apply top_ne; nd_solve)
  | |- context [ decide (Some ?a = Some ?b) ] =>
      rewrite (decide_False (P := Some a = Some b))
        by (let E := fresh in
            intros E; injection E as E; revert E; change (a ≠ b); nd_solve)
  | |- context [ decide (Some ?a = None) ] =>
      rewrite (decide_False (P := Some a = None)) by discriminate
  end; cbn beta iota.

Ltac exec := repeat exec1.

(** Execution that also settles the colour tests from the hypotheses. *)
Ltac exec_dec :=
  repeat first
    [ exec1
    | rewrite decide_True by done
    | rewrite decide_False by (intros ?; destruct_and?; congruence) ].

(** ** Rotations *)

Section rotations.
Implicit Types (s : RedBlackTree) (x y : ref) (l r : shape) (c : ctx).

(** [rotateLeft x] promotes the right child [y] of [x]: only links change. *)
Lemma rotateLeft_spec s c l x rl y rr :
  Rep s (plug c (Br l x (Br rl y rr))) →
  ∃ s', rotateLeft x s = Some (tt, s')
    ∧ Rep s' (plug c (Br (Br l x rl) y rr))
    ∧ (∀ i, data (nodes s') i = data (nodes s) i)
    ∧ length (nodes s') = length (nodes s).
Proof.
  intros H. apply Rep_plug in H as (Hroot & Hrep & Hc & Hnd).
  cut (∃ s', rotateLeft x s = Some (tt, s')
    ∧ (root s' = croot c (Some y)
       ∧ rep (nodes s') (ctop c) (Br (Br l x rl) y rr)
       ∧ repc (nodes s') c (Some y))
    ∧ (∀ i, data (nodes s') i = data (nodes s) i)
    ∧ length (nodes s') = length (nodes s)).
  { intros (s' & ? & (? & ? & ?) & ? & ?). exists s'. split_and!; try done.
    apply Rep_plug. split_and!; try done.
    revert Hnd. simpl. by rewrite <-!app_assoc, <-!app_comm_cons, <-?app_assoc. }
  simpl in Hrep. destruct Hrep as (Hx & Hl & Hy & Hrl & Hrr).
  unfold rotateLeft, getN.
  rewrite (bind_eq _ _ _ _ _ (bind_eq _ _ _ _ _ (get_right _ _ _ _ _ Hx))).
  cbn beta iota. exec.
  destruct rl as [|rll z rlr]; simpl in Hrl, Hy, Hnd |- *;
    (destruct c as [|[p sib|sib p] c']; simpl in Hc, Hx, Hnd, Hroot |- *);
    destruct_and?; exec;
    (eexists; split; [apply put_eq|]);
    split_and!; try done; try solve_links; try solve_rep; try solve_data;
    try solve_length.
Qed.

(** [rotateRight x] promotes the left child [y] of [x]. *)
Lemma rotateRight_spec s c ll y lr x r :
  Rep s (plug c (Br (Br ll y lr) x r)) →
  ∃ s', rotateRight x s = Some (tt, s')
    ∧ Rep s' (plug c (Br ll y (Br lr x r)))
    ∧ (∀ i, data (nodes s') i = data (nodes s) i)
    ∧ length (nodes s') = length (nodes s).
Proof.
  intros H. apply Rep_plug in H as (Hroot & Hrep & Hc & Hnd).
  cut (∃ s', rotateRight x s = Some (tt, s')
    ∧ (root s' = croot c (Some y)
       ∧ rep (nodes s') (ctop c) (Br ll y (Br lr x r))
       ∧ repc (nodes s') c (Some y))
    ∧ (∀ i, data (nodes s') i = data (nodes s) i)
    ∧ length (nodes s') = length (nodes s)).
  { intros (s' & ? & (? & ? & ?) & ? & ?). exists s'. split_and!; try done.
    apply Rep_plug. split_and!; try done.
    revert Hnd. simpl. by rewrite <-!app_assoc, <-!app_comm_cons, <-?app_assoc. }
  simpl in Hrep. destruct Hrep as (Hx & (Hy & Hll & Hlr) & Hr).
  unfold rotateRight, getN.
  rewrite (bind_eq _ _ _ _ _ (bind_eq _ _ _ _ _ (get_left _ _ _ _ _ Hx))).
  cbn beta iota. exec.
  destruct lr as [|lrl z lrr]; simpl in Hlr, Hy, Hnd |- *;
    (destruct c as [|[p sib|sib p] c']; simpl in Hc, Hx, Hnd, Hroot |- *);
    destruct_and?; exec;
    (eexists; split; [apply put_eq|]);
    split_and!; try done; try solve_links; try solve_rep; try solve_data;
    try solve_length.
Qed.

End rotations.

(** ** Loops and their termination *)

Section runs.
Context {A B : Type}.
Implicit Types (s : RedBlackTree).

Lemma Runs_const (m : M A) s a s' :
  m s = Some (a, s') → Runs (λ _, m) s a s'.
Proof.
  intros H. split.
  - by exists O.
  - intros _ r. rewrite H. by intros [= <-].
Qed.

Lemma Runs_bind (m : nat → M A) (k : A → nat → M B) s a s1 b s2 :
  Runs m s a s1 → Runs (k a) s1 b s2 →
  Runs (λ fuel, m fuel ≫= λ x, k x fuel) s b s2.
Proof.
  intros [[f1 H1] D1] [[f2 H2] D2]. split.
  - exists (f1 `max` f2)%nat. intros fuel Hf.
    rewrite (bind_eq _ _ _ _ _ (H1 fuel ltac:(lia))). apply H2. lia.
  - intros fuel r. unfold mbind, M_bind.
    destruct (m fuel s) as [[a' s1']|] eqn:E; [|done].
    apply D1 in E as [= -> ->]. apply D2.
Qed.

Lemma Runs_det (m : nat → M A) s a s' fuel r :
  Runs m s a s' → m fuel s = Some r → r = (a, s').
Proof. intros [_ D]. apply D. Qed.

End runs.

Section while_loop.
Context {S R : Type} (body : S → M (S + R)).
Context (I : nat → S → RedBlackTree → Prop) (Q : R → RedBlackTree → Prop).

(** A loop whose body keeps [I] while decreasing its index terminates, in a
    state that satisfies what the exits of the body establish. *)
Lemma while_Runs :
  (∀ m st s, I m st s →
     ∃ x s', body st s = Some (x, s')
       ∧ match x with
         | inl st' => ∃ m', (m' < m)%nat ∧ I m' st' s'
         | inr r => Q r s'
         end) →
  ∀ m st s, I m st s →
    ∃ r s', Runs (λ fuel, while fuel body st) s r s' ∧ Q r s'.
Proof.
  intros Hbody m. induction (lt_wf m) as [m _ IH]. intros st s HI.
  destruct (Hbody m st s HI) as (x & s' & Hb & Hx). destruct x as [st'|r].
  - destruct Hx as (m' & Hm & HI').
    destruct (IH m' Hm st' s' HI') as (r & s'' & [[f0 Hf] Hd] & HQ).
    exists r, s''. split; [|done]. split.
    + exists (Datatypes.S f0). intros [|fuel] Hle; [lia|]. simpl.
      rewrite (bind_eq _ _ _ _ _ Hb). apply Hf. lia.
    + intros [|fuel] r'; simpl; [done|].
      rewrite (bind_eq _ _ _ _ _ Hb). apply Hd.
  - exists r, s'. split; [|done]. split.
    + exists 1%nat. intros [|fuel] Hle; [lia|]. simpl.
      by rewrite (bind_eq _ _ _ _ _ Hb).
    + intros [|fuel] r'; simpl; [done|].
      rewrite (bind_eq _ _ _ _ _ Hb). by intros [= <-].
Qed.

End while_loop.

(** ** The searches: [findNode], [findMin] and the descent of [insert] *)

Section searches.
Implicit Types (s : RedBlackTree) (t l r T : shape) (c : ctx) (v : Z).

(** [findNode] walks the tree as [find_shape] does, and changes nothing. *)
Lemma findNode_spec s T v :
  Rep s T →
  Runs (λ fuel, findNode fuel v) s (find_shape v (nodes s) T) s.
Proof.
  intros [Hroot Hrep _].
  apply (Runs_bind (λ _, get_root)
           (λ (r : option ref) fuel, while fuel (findNode_body v) r)
           s (root s) s); [by apply Runs_const|].
  pose (I := λ (m : nat) (cur : option ref) (s' : RedBlackTree),
    s' = s ∧ ∃ p t, rep (nodes s) p t ∧ top t = cur ∧ m = height t
      ∧ find_shape v (nodes s) t = find_shape v (nodes s) T).
  pose (Q := λ (r : option ref) (s' : RedBlackTree),
    s' = s ∧ r = find_shape v (nodes s) T).
  destruct (while_Runs (findNode_body v) I Q) with (m := height T)
    (st := root s) (s := s) as (r & s' & Hruns & -> & ->); [| |done].
  - clear. intros m cur s' (-> & p & t & Hrep & <- & -> & Hfind).
    destruct t as [|l i r]; simpl in *.
    + eexists _, _. split; [reflexivity|]. by split.
    + destruct Hrep as (Hi & Hl & Hr). unfold findNode_body. exec.
      destruct (decide (v = val (nodes s) i)) as [Hv|Hv].
      { eexists _, _. split; [reflexivity|]. by split. }
      exec. destruct (decide (v < val (nodes s) i)); exec.
      * eexists _, _. split; [reflexivity|]. exists (height l).
        split; [lia|]. split; [done|]. by exists (Some i), l.
      * eexists _, _. split; [reflexivity|]. exists (height r).
        split; [lia|]. split; [done|]. by exists (Some i), r.
  - split; [done|]. by exists None, T.
Qed.

(** [findMin] returns the leftmost node of the subtree it starts from. *)
Lemma findMin_spec s p l i r c :
  rep (nodes s) p (Br l i r) →
  Runs (λ fuel, findMin fuel i) s (leftmost l i r c).1.2 s.
Proof.
  intros Hrep.
  pose (I := λ (m : nat) (node : ref) (s' : RedBlackTree),
    s' = s ∧ ∃ p' l' r' c', rep (nodes s) p' (Br l' node r') ∧ m = height l'
      ∧ leftmost l' node r' c' = leftmost l i r c).
  pose (Q := λ (x : ref) (s' : RedBlackTree),
    s' = s ∧ x = (leftmost l i r c).1.2).
  destruct (while_Runs findMin_body I Q) with (m := height l)
    (st := i) (s := s) as (x & s' & Hruns & -> & ->); [| |done].
  - clear. intros m node s' (-> & p' & l' & r' & c' & Hrep & -> & Hlm).
    simpl in Hrep. destruct Hrep as (Hi & Hl & Hr). unfold findMin_body. exec.
    destruct l' as [|ll j lr]; simpl in *.
    + eexists _, _. split; [reflexivity|]. split; [done|]. by rewrite <-Hlm.
    + eexists _, _. split; [reflexivity|]. exists (height ll).
      split; [lia|]. split; [done|]. by exists (Some node), ll, lr, (FL node r' :: c').
  - split; [done|]. by exists p, l, r, c.
Qed.

(** The descent of [insert] ends below the node that [descend_ctx] ends
    below. *)
Lemma descend_spec s T v :
  Rep s T →
  Runs (λ fuel, while fuel (descend_body v) (root s, None)) s
    (ctop (descend_ctx v (nodes s) T [])) s.
Proof.
  intros [Hroot Hrep _].
  pose (I := λ (m : nat) (st : option ref * option ref) (s' : RedBlackTree),
    s' = s ∧ ∃ t c, rep (nodes s) (ctop c) t ∧ st = (top t, ctop c)
      ∧ m = height t
      ∧ descend_ctx v (nodes s) t c = descend_ctx v (nodes s) T []).
  pose (Q := λ (r : option ref) (s' : RedBlackTree),
    s' = s ∧ r = ctop (descend_ctx v (nodes s) T [])).
  destruct (while_Runs (descend_body v) I Q) with (m := height T)
    (st := (root s, @None ref)) (s := s) as (x & s' & Hruns & -> & ->);
    [| |done].
  - clear. intros m st s' (-> & t & c & Hrep & -> & -> & Hd).
    destruct t as [|l i r]; simpl in *.
    + eexists _, _. split; [reflexivity|]. split; [done|]. by rewrite <-Hd.
    + destruct Hrep as (Hi & Hl & Hr). unfold descend_body. simpl. exec.
      destruct (decide (v < val (nodes s) i)); exec.
      * eexists _, _. split; [reflexivity|]. exists (height l).
        split; [lia|]. split; [done|]. by exists l, (FL i r :: c).
      * eexists _, _. split; [reflexivity|]. exists (height r).
        split; [lia|]. split; [done|]. by exists r, (FR l i :: c).
  - split; [done|]. exists T, []. by rewrite Hroot.
Qed.

End searches.

(** ** The attachment of the new node *)

Section attach.
Implicit Types (s : RedBlackTree) (t l r T : shape) (c : ctx) (v : Z).

Lemma descend_plug v h t c : plug (descend_ctx v h t c) Leaf = plug c t.
Proof.
  revert c. induction t as [|l IHl i r IHr]; intros c; simpl; [done|].
  destruct (decide _); [by rewrite IHl|by rewrite IHr].
Qed.

Lemma descend_routed v h t c :
  Forall (routed v h) c → Forall (routed v h) (descend_ctx v h t c).
Proof.
  revert c. induction t as [|l IHl i r IHr]; intros c Hc; simpl; [done|].
  destruct (decide _); [apply IHl|apply IHr]; by constructor.
Qed.

Lemma descend_nonempty v h t c :
  t ≠ Leaf ∨ c ≠ [] → descend_ctx v h t c ≠ [].
Proof.
  revert c. induction t as [|l IHl i r IHr]; intros c; simpl; [naive_solver|].
  intros _. destruct (decide _); [apply IHl|apply IHr]; by right.
Qed.

Lemma attach_spec s T v :
  Rep s T → T ≠ Leaf →
  ∃ s', Runs (λ fuel, attach fuel v) s (length (nodes s)) s'
    ∧ Rep s' (plug (descend_ctx v (nodes s) T []) (Br Leaf (length (nodes s)) Leaf))
    ∧ (∀ i, i ≠ length (nodes s) → data (nodes s') i = data (nodes s) i)
    ∧ data (nodes s') (length (nodes s)) = Some (v, RED)
    ∧ length (nodes s') = Datatypes.S (length (nodes s)).
Proof.
  intros HT Hne.
  pose proof (descend_spec s T v HT) as Hd.
  pose proof (descend_plug v (nodes s) T []) as Hplug. simpl in Hplug.
  pose proof (descend_routed v (nodes s) T [] ltac:(constructor)) as Hrt.
  pose proof (descend_nonempty v (nodes s) T [] (or_introl Hne)) as Hc.
  set (c := descend_ctx v (nodes s) T []) in *. clearbody c.
  rewrite <-Hplug in HT. clear Hplug Hne.
  apply Rep_plug in HT as (Hroot & _ & Hrc & Hnd). simpl in Hnd.
  assert (Hn : length (nodes s) ∉ cids c).
  { intros Hin. eapply repc_valid in Hin; [|done]. apply links_lt in Hin. lia. }
  assert (Hnd' : NoDup (ids (Br Leaf (length (nodes s)) Leaf) ++ cids c)).
  { simpl. by constructor. }
  clear Hnd.
  cut (∃ s', (new_node v ≫= λ newNode, put (set_parent (ctop c)) newNode ≫= λ _,
     nn (ctop c) ≫= λ p, get value p ≫= λ pv,
     (if decide (v < pv)
      then nn (ctop c) ≫= λ p', put (set_left (Some newNode)) p'
      else nn (ctop c) ≫= λ p', put (set_right (Some newNode)) p') ≫= λ _,
     ret newNode) s = Some (length (nodes s), s')
     ∧ (root s' = croot c (Some (length (nodes s)))
        ∧ rep (nodes s') (ctop c) (Br Leaf (length (nodes s)) Leaf)
        ∧ repc (nodes s') c (Some (length (nodes s))))
     ∧ (∀ i, i ≠ length (nodes s) → data (nodes s') i = data (nodes s) i)
     ∧ data (nodes s') (length (nodes s)) = Some (v, RED)
     ∧ length (nodes s') = Datatypes.S (length (nodes s))).
  { intros (s' & Hrun & (? & ? & ?) & ? & ? & ?). exists s'. split_and!; try done.
    - unfold attach.
      apply (Runs_bind (λ _, get_root)
        (λ (r : option ref) fuel, while fuel (descend_body v) (r, None) ≫= _)
        s (root s) s); [by apply Runs_const|].
      eapply (Runs_bind (λ fuel, while fuel (descend_body v) (root s, None))
        (λ (par : option ref) _, _)); [done|].
      by apply Runs_const.
    - by apply Rep_plug. }
  destruct c as [|f c']; [done|]. clear Hc.
  apply Forall_cons in Hrt as [Hf _].
  destruct f as [p sib|sib p]; simpl in *; destruct_and?; exec;
    rewrite !val_upd_keep by auto with heap;
    (rewrite val_alloc by solve_ne);
    [rewrite decide_True by done|rewrite decide_False by done]; exec;
    (eexists; split; [reflexivity|]);
    (split_and!; try done; try solve_links; try solve_rep; try solve_data;
       try solve_length).
Qed.
End attach.

(** ** In-order sequences of positions *)

Section order.
Implicit Types (s : RedBlackTree) (t l r T : shape) (c : ctx).

Lemma ids_plug_eq c t : ids (plug c t) = cbefore c ++ ids t ++ cafter c.
Proof.
  revert t. induction c as [|[i r|l i] c IH]; intros t; simpl.
  - by rewrite app_nil_r.
  - rewrite IH. simpl. by rewrite <-!app_assoc.
  - rewrite IH. simpl. by rewrite <-!app_assoc.
Qed.

Lemma ids_plug_congr c t t' : ids t = ids t' → ids (plug c t) = ids (plug c t').
Proof. intros H. by rewrite !ids_plug_eq, H. Qed.

Lemma croot_elem c (x : option ref) :
  c ≠ [] → ∃ i, croot c x = Some i ∧ i ∈ cids c.
Proof.
  revert x. induction c as [|f c IH]; intros x Hc; [done|]. simpl.
  destruct (decide (c = [])) as [->|Hne].
  - exists (fid f). split; [done|]. destruct f; set_solver.
  - destruct (IH (Some (fid f)) Hne) as (i & Hi & Hin). exists i.
    split; [done|]. set_solver.
Qed.

Lemma croot_indep c (x y : option ref) : c ≠ [] → croot c x = croot c y.
Proof. by destruct c. Qed.

Lemma length_ctx_size c t : (length c + size t ≤ size (plug c t))%nat.
Proof.
  revert t. induction c as [|[i r|l i] c IH]; intros t; simpl; [lia|..].
  - specialize (IH (Br t i r)). simpl in IH. lia.
  - specialize (IH (Br l i t)). simpl in IH. lia.
Qed.

Lemma Rep_upd_keep f i s T : keeps_links f → Rep s T → Rep (upd f i s) T.
Proof.
  intros Hf [H1 H2 H3]. split; [done| |done]. by apply rep_upd_keep.
Qed.

Lemma Rep_ids_lt s T i : Rep s T → i ∈ ids T → (i < length (nodes s))%nat.
Proof. intros [_ H _] Hi. apply links_lt. by eapply rep_valid. Qed.

End order.

(** Equality of in-order sequences of shapes given by their positions. *)
Ltac solve_ids :=
  simpl; repeat (apply ids_plug_congr; simpl);
  rewrite <-?app_assoc, <-?app_comm_cons, <-?app_assoc; try done.

(** Running a rotation inside a method body. *)
Tactic Notation "exec_rotateLeft" "at" constr(c) constr(l) constr(rl)
    constr(y) constr(rr) "as" ident(s2) ident(HR) ident(Hd) ident(Hl) :=
  lazymatch goal with
  | |- context [ (rotateLeft ?x ≫= ?k) ?s1 ] =>
      destruct (rotateLeft_spec s1 c l x rl y rr) as (s2 & ?Hrot & HR & Hd & Hl);
      [ | erewrite (bind_eq (rotateLeft x) k s1) by eassumption; cbn beta iota;
          pose proof (λ i, col_data _ _ i (Hd i)) as ?Hcol;
          pose proof (λ i, val_data _ _ i (Hd i)) as ?Hval ]
  end.

Tactic Notation "exec_rotateRight" "at" constr(c) constr(ll) constr(y)
    constr(lr) constr(r) "as" ident(s2) ident(HR) ident(Hd) ident(Hl) :=
  lazymatch goal with
  | |- context [ (rotateRight ?x ≫= ?k) ?s1 ] =>
      destruct (rotateRight_spec s1 c ll y lr x r) as (s2 & ?Hrot & HR & Hd & Hl);
      [ | erewrite (bind_eq (rotateRight x) k s1) by eassumption; cbn beta iota;
          pose proof (λ i, col_data _ _ i (Hd i)) as ?Hcol;
          pose proof (λ i, val_data _ _ i (Hd i)) as ?Hval ]
  end.

(** The links that a representation provides, as hypotheses. *)
Ltac open_Rep H :=
  let H' := fresh in
  let Hroot := fresh "Hroot" in
  let Hrep := fresh "Hrep" in
  let Hrepc := fresh "Hrepc" in
  let Hnd := fresh "Hnd" in
  pose proof H as H';
  apply Rep_plug in H' as (Hroot & Hrep & Hrepc & Hnd);
  cbn [rep repc ids cids fids ctop croot top fid] in Hroot, Hrep, Hrepc, Hnd;
  destruct_and?.

(** Colours and keys seen through rotations and field writes. *)
Ltac col_simpl :=
  repeat first
    [ match goal with
      | H : ∀ i, col (nodes ?s2) i = _ |- context [ col (nodes ?s2) _ ] =>
          rewrite !H
      end
    | rewrite col_upd_color by (eexists; solve_links)
    | rewrite col_upd_ne by solve_ne ].

Ltac val_simpl :=
  repeat first
    [ match goal with
      | H : ∀ i, val (nodes ?s2) i = _ |- context [ val (nodes ?s2) _ ] =>
          rewrite !H
      end
    | rewrite val_upd_color
    | rewrite val_upd_keep by auto with heap ].

Ltac len_simpl :=
  repeat first
    [ match goal with
      | H : length (nodes ?s2) = _ |- context [ length (nodes ?s2) ] =>
          rewrite !H
      end
    | rewrite length_upd ].

(** The root of the tree at a position stays BLACK when only nodes other
    than the root were recoloured, or the new root was made BLACK. *)
Ltac solve_rootcol c Hrb :=
  let Hc := fresh in
  destruct (decide (c = [])) as [->|Hc];
  [ repeat match goal with
           | H : root _ = _ |- _ => simpl in H; rewrite H; clear H
           end;
    cbn [col_of]; col_simpl; try done
  | let rid := fresh "rid" in
    let Hrid := fresh in
    let Hin := fresh in
    destruct (croot_elem c None Hc) as (rid & Hrid & Hin);
    destruct Hrb as [Hrb|Hrb]; [|done];
    repeat match goal with
           | H : root _ = croot c ?x |- _ =>
               rewrite (croot_indep c x None Hc), Hrid in H;
               rewrite ?H in Hrb; rewrite ?H; clear H
           end;
    cbn [col_of] in Hrb |- *; col_simpl; try done ].

(** ** The repair loop of insertion *)

Section fixInsert.
Implicit Types (s : RedBlackTree) (t l r T : shape) (c : ctx).

(** One iteration of [fixInsert] on the node [x] at the position [c]: it
    stops, or moves two levels up, or rotates and leaves a BLACK parent. *)
Lemma fixInsert_body_spec s c l x r :
  Rep s (plug c (Br l x r)) →
  (col_of (nodes s) (root s) = BLACK ∨ c = []) →
  ∃ res s', fixInsert_body x s = Some (res, s')
    ∧ (∀ i, val (nodes s') i = val (nodes s) i)
    ∧ length (nodes s') = length (nodes s)
    ∧ match res with
      | inr _ => s' = s
      | inl x' =>
          (∃ f c0, c = f :: c0 ∧ col (nodes s) (fid f) = RED)
          ∧ ∃ c' l' r', Rep s' (plug c' (Br l' x' r'))
            ∧ ids (plug c' (Br l' x' r')) = ids (plug c (Br l x r))
            ∧ (col_of (nodes s') (root s') = BLACK ∨ c' = [])
            ∧ ((length c' < length c)%nat
               ∨ ∃ f c0, c' = f :: c0 ∧ col (nodes s') (fid f) = BLACK)
      end.
Proof.
  intros HRep Hrb. unfold fixInsert_body, getN, get_opt, is_red.
  destruct c as [|f c].
  { open_Rep HRep. exec. by eexists _, _. }
  assert (∃ p, p = fid f) as [p Hp] by eauto.
  destruct (decide (col (nodes s) p = RED)) as [Hred|Hblack]; cycle 1.
  { destruct f; simpl in Hp; subst; open_Rep HRep; exec;
      (rewrite decide_False by done); by eexists _, _. }
  destruct c as [|g c].
  { exfalso. destruct Hrb as [Hrb|]; [|done]. destruct HRep as [Hroot _ _].
    rewrite Hroot, top_plug in Hrb. simpl in Hrb. congruence. }
  destruct g as [gp u|u gp].
  - (* the parent is the left child of the grandparent *)
    destruct (decide (col_of (nodes s) (top u) = RED)) as [Hu|Hu].
    + (* red uncle: recolour and move two levels up *)
      destruct u as [|ul un ur]; [done|]. simpl in Hu.
      destruct f as [? sib|sib ?]; simpl in Hp; subst; open_Rep HRep; exec;
        rewrite ?decide_True by done; exec;
        rewrite bool_decide_eq_true_2 by done; exec;
        (eexists _, _; split; [reflexivity|]; split_and!;
         [ intros; by rewrite !val_upd_color | solve_length
         | by eexists _, _ | ]);
        (eexists c, _, _; split_and!;
         [ by do 3 (apply Rep_upd_keep; [auto with heap|]) | done
         | rewrite !root_upd; destruct (decide (c = [])); [by right|left];
           solve_rootcol c Hrb
         | left; simpl; lia ]).
    + (* black uncle: rotate *)
      destruct f as [? sib|sib ?]; simpl in Hp; subst; open_Rep HRep; exec;
        rewrite ?decide_True by done; exec;
        (erewrite (bind_eq (is_red (top u))) by (by eapply is_red_eq));
        rewrite bool_decide_eq_false_2 by done; cbn beta iota; exec.
      * exec_rotateRight at c (Br l x r) i sib u as s2 HR2 Hd2 Hl2.
        { by do 2 (apply Rep_upd_keep; [auto with heap|]). }
        eexists _, _; split; [reflexivity|]; split_and!.
        { intros. by val_simpl. }
        { by len_simpl. }
        { by eexists _, _. }
        exists (FL i (Br sib gp u) :: c), l, r. split_and!.
        { done. }
        { solve_ids. }
        { left. open_Rep HR2. solve_rootcol c Hrb. }
        { right. eexists _, _. split; [done|]. simpl. by col_simpl. }
      * exec_rotateLeft at (FL gp u :: c) sib l x r as s2 HR2 Hd2 Hl2.
        { done. }
        open_Rep HR2. exec.
        exec_rotateRight at c (Br sib i l) x r u as s3 HR3 Hd3 Hl3.
        { by do 2 (apply Rep_upd_keep; [auto with heap|]). }
        eexists _, _; split; [reflexivity|]; split_and!.
        { intros. by val_simpl. }
        { by len_simpl. }
        { by eexists _, _. }
        exists (FL x (Br r gp u) :: c), sib, l. split_and!.
        { done. }
        { solve_ids. }
        { left. open_Rep HR3. solve_rootcol c Hrb. }
        { right. eexists _, _. split; [done|]. simpl. by col_simpl. }
  - (* the parent is the right child of the grandparent *)
    destruct (decide (col_of (nodes s) (top u) = RED)) as [Hu|Hu].
    + destruct u as [|ul un ur]; [done|]. simpl in Hu.
      destruct f as [? sib|sib ?]; simpl in Hp; subst; open_Rep HRep; exec;
        rewrite ?decide_True by done; exec;
        rewrite bool_decide_eq_true_2 by done; exec;
        (eexists _, _; split; [reflexivity|]; split_and!;
         [ intros; by rewrite !val_upd_color | solve_length
         | by eexists _, _ | ]);
        (eexists c, _, _; split_and!;
         [ by do 3 (apply Rep_upd_keep; [auto with heap|]) | done
         | rewrite !root_upd; destruct (decide (c = [])); [by right|left];
           solve_rootcol c Hrb
         | left; simpl; lia ]).
    + destruct f as [? sib|sib ?]; simpl in Hp; subst; open_Rep HRep; exec;
        rewrite ?decide_True by done; exec;
        (erewrite (bind_eq (is_red (top u))) by (by eapply is_red_eq));
        rewrite bool_decide_eq_false_2 by done; cbn beta iota; exec.
      * exec_rotateRight at (FR u gp :: c) l x r sib as s2 HR2 Hd2 Hl2.
        { done. }
        open_Rep HR2. exec.
        exec_rotateLeft at c u l x (Br r i sib) as s3 HR3 Hd3 Hl3.
        { by do 2 (apply Rep_upd_keep; [auto with heap|]). }
        eexists _, _; split; [reflexivity|]; split_and!.
        { intros. by val_simpl. }
        { by len_simpl. }
        { by eexists _, _. }
        exists (FR (Br u gp l) x :: c), r, sib. split_and!.
        { done. }
        { solve_ids. }
        { left. open_Rep HR3. solve_rootcol c Hrb. }
        { right. eexists _, _. split; [done|]. simpl. by col_simpl. }
      * exec_rotateLeft at c u sib i (Br l x r) as s2 HR2 Hd2 Hl2.
        { by do 2 (apply Rep_upd_keep; [auto with heap|]). }
        eexists _, _; split; [reflexivity|]; split_and!.
        { intros. by val_simpl. }
        { by len_simpl. }
        { by eexists _, _. }
        exists (FR (Br u gp sib) i :: c), l, r. split_and!.
        { done. }
        { solve_ids. }
        { left. open_Rep HR2. solve_rootcol c Hrb. }
        { right. eexists _, _. split; [done|]. simpl. by col_simpl. }
Qed.

Lemma fixInsert_spec s c l x r :
  Rep s (plug c (Br l x r)) →
  (col_of (nodes s) (root s) = BLACK ∨ c = []) →
  ∃ s' T', Runs (λ fuel, fixInsert fuel x) s tt s'
    ∧ Rep s' T'
    ∧ ids T' = ids (plug c (Br l x r))
    ∧ (∀ i, val (nodes s') i = val (nodes s) i)
    ∧ length (nodes s') = length (nodes s)
    ∧ col_of (nodes s') (root s') = BLACK.
Proof.
  intros HRep Hrb.
  pose (I := λ (m : nat) (x' : ref) (s' : RedBlackTree),
    ∃ c' l' r', Rep s' (plug c' (Br l' x' r'))
      ∧ ids (plug c' (Br l' x' r')) = ids (plug c (Br l x r))
      ∧ (∀ i, val (nodes s') i = val (nodes s) i)
      ∧ length (nodes s') = length (nodes s)
      ∧ (col_of (nodes s') (root s') = BLACK ∨ c' = [])
      ∧ (m = Datatypes.S (length c')
         ∨ ∃ f c0, c' = f :: c0 ∧ col (nodes s') (fid f) = BLACK)).
  pose (Q := λ (_ : unit) (s' : RedBlackTree),
    ∃ T', Rep s' T' ∧ T' ≠ Leaf
      ∧ ids T' = ids (plug c (Br l x r))
      ∧ (∀ i, val (nodes s') i = val (nodes s) i)
      ∧ length (nodes s') = length (nodes s)).
  destruct (while_Runs fixInsert_body I Q) with (m := Datatypes.S (length c))
    (st := x) (s := s) as ([] & s1 & Hruns & T1 & HR1 & Hne & Hids & Hval & Hlen).
  - clear. intros m x' s' (c' & l' & r' & HR & Hids & Hval & Hlen & Hrb & Hm).
    destruct (fixInsert_body_spec s' c' l' x' r' HR Hrb)
      as (res & s'' & Hb & Hval' & Hlen' & Hres).
    exists res, s''. split; [done|]. destruct res as [x''|[]].
    + destruct Hres as ((f & c0 & -> & Hred) & c'' & l'' & r'' & HR' & Hids'
        & Hrb' & Hm').
      destruct Hm as [->|(f' & c0' & [= <- <-] & Hblack)]; [|congruence].
      destruct Hm' as [Hm'|Hm'].
      * exists (Datatypes.S (length c'')). split; [simpl in *; lia|].
        exists c'', l'', r''.
        split_and!; [done|congruence| |congruence|done|by left].
        intros. by rewrite Hval'.
      * exists O. split; [lia|].
        exists c'', l'', r''.
        split_and!; [done|congruence| |congruence|done|by right].
        intros. by rewrite Hval'.
    + subst s''. exists (plug c' (Br l' x' r')). split_and!; try done.
      intros E. apply (f_equal size) in E. 
      pose proof (length_ctx_size c' (Br l' x' r')). simpl in *. lia.
  - exists c, l, r. split_and!; try done. by left.
  - destruct T1 as [|l1 rt r1]; [done|].
    exists (upd (set_color BLACK) rt s1), (Br l1 rt r1). split_and!.
    + unfold fixInsert.
      eapply (Runs_bind (λ fuel, while fuel fixInsert_body x)
        (λ (_ : unit) _, _)); [done|].
      apply Runs_const. destruct HR1 as [Hroot Hrep _]. simpl in Hroot, Hrep.
      destruct_and?. exec. rewrite Hroot. by exec.
    + by apply Rep_upd_keep.
    + done.
    + intros. by rewrite val_upd_color.
    + by rewrite length_upd.
    + rewrite root_upd. destruct HR1 as [-> Hrep _]. simpl in *. destruct_and?.
      apply col_upd_color. eauto.
Qed.

End fixInsert.

(** ** Splicing a node out *)

Section deleteNode.
Implicit Types (s : RedBlackTree) (t l r T : shape) (c : ctx).

(** [deleteNode x] replaces a node that has at most one child by that child
    (or by nothing); the links of the removed node itself stay as they were. *)
Lemma deleteNode_spec s c l x r :
  Rep s (plug c (Br l x r)) →
  l = Leaf ∨ r = Leaf →
  ∃ s', deleteNode x s = Some (top (match l with Leaf => r | _ => l end), s')
    ∧ Rep s' (plug c (match l with Leaf => r | _ => l end))
    ∧ (∀ i, data (nodes s') i = data (nodes s) i)
    ∧ length (nodes s') = length (nodes s)
    ∧ links (nodes s') x = links (nodes s) x.
Proof.
  intros H Hlr. apply Rep_plug in H as (Hroot & Hrep & Hc & Hnd).
  set (ch := match l with Leaf => r | _ => l end).
  cut (∃ s', deleteNode x s = Some (top ch, s')
    ∧ (root s' = croot c (top ch)
       ∧ rep (nodes s') (ctop c) ch
       ∧ repc (nodes s') c (top ch))
    ∧ (∀ i, data (nodes s') i = data (nodes s) i)
    ∧ length (nodes s') = length (nodes s)
    ∧ links (nodes s') x = links (nodes s) x).
  { intros (s' & ? & (? & ? & ?) & ? & ? & ?). exists s'. split_and!; try done.
    apply Rep_plug. split_and!; try done.
    eapply sublist_NoDup; [exact Hnd|]. apply sublist_app; [|done].
    subst ch. destruct Hlr as [->| ->]; simpl.
    - by apply sublist_cons.
    - destruct l; [apply sublist_nil_l|]. by apply sublist_inserts_r. }
  simpl in Hrep. destruct Hrep as (Hx & Hl & Hr).
  unfold deleteNode, getN. subst ch.
  destruct Hlr as [->| ->]; [destruct r as [|rl z rr]|destruct l as [|ll z lr]];
    simpl in Hl, Hr, Hx, Hnd |- *;
    (destruct c as [|[p sib|sib p] c']; simpl in Hc, Hx, Hnd, Hroot |- *);
    destruct_and?; exec;
    (eexists; split; [reflexivity|]);
    split_and!; try done; try solve_links; try solve_rep; try solve_data;
    try solve_length;
    repeat (rewrite ?nodes_setroot; rewrite ?links_upd_ne by solve_ne); done.
Qed.
End deleteNode.

(** ** The repair loop of deletion *)

Section fixDelete.
Implicit Types (s : RedBlackTree) (t l r T : shape) (c : ctx).

Lemma color_cases (k : Color) : k ≠ RED → k = BLACK.
Proof. by destruct k. Qed.

(** One iteration of [fixDelete] with [current] at the position [c]: it
    stops; or moves one level up; or rotates a RED sibling away, which puts
    the position one level deeper, and restarts from [node]; or prepares the
    last case, which then stops. *)
Lemma fixDelete_body_spec s node c xl cur xr :
  Rep s (plug c (Br xl cur xr)) →
  ∃ res s', fixDelete_body node (Some cur) s = Some (res, s')
    ∧ (∀ i, val (nodes s') i = val (nodes s) i)
    ∧ length (nodes s') = length (nodes s)
    ∧ match res with
      | inr _ => ∃ T', Rep s' T' ∧ ids T' = ids (plug c (Br xl cur xr))
      | inl cur' =>
          ¬ far_red (nodes s) c
          ∧ ((∃ f c', c = f :: c' ∧ cur' = Some (fid f)
                ∧ Rep s' (plug c (Br xl cur xr)))
             ∨ (cur' = Some node
                ∧ ∃ c', length c' = Datatypes.S (length c)
                  ∧ Rep s' (plug c' (Br xl cur xr))
                  ∧ ids (plug c' (Br xl cur xr)) = ids (plug c (Br xl cur xr)))
             ∨ (cur' = Some cur
                ∧ ∃ c', length c' = length c
                  ∧ Rep s' (plug c' (Br xl cur xr))
                  ∧ ids (plug c' (Br xl cur xr)) = ids (plug c (Br xl cur xr))
                  ∧ far_red (nodes s') c'))
      end.
Proof.
  intros HRep. unfold fixDelete_body, getN. exec.
  destruct c as [|f c].
  { open_Rep HRep. rewrite Hroot. exec. eexists _, _. split; [reflexivity|]. eauto. }
  destruct (croot_elem (f :: c) (Some cur)) as (rid & Hrid & Hin); [done|].
  pose proof HRep as [Hroot _ _]. rewrite top_plug in Hroot. simpl top in Hroot.
  rewrite Hroot, Hrid. clear Hroot Hrid.
  destruct f as [p sibT|sibT p].
  - (* current is a left child *)
    open_Rep HRep. simpl in Hin. exec.
    rewrite bool_decide_eq_true_2 by done. cbn zeta beta iota. exec.
    destruct sibT as [|sl sib sr]; simpl in * |-; cbn [top]; destruct_and?.
    { (* no sibling *)
      eexists _, _. split; [reflexivity|].
      split_and!; [done|done|by intros []|]. left. by eexists _, _. }
    exec. destruct (decide (col (nodes s) sib = RED)) as [Hsib|Hsib].
    { (* red sibling *)
      exec.
      exec_rotateLeft at c (Br xl cur xr) sl sib sr as s2 HR2 Hd2 Hl2.
      { by do 2 (apply Rep_upd_keep; [auto with heap|]). }
      eexists _, _. split; [reflexivity|]. split_and!.
      { intros. by val_simpl. }
      { by len_simpl. }
      { simpl. destruct sr; [by intros []|intros [? ?]; congruence]. }
      right. left. split; [done|].
      exists (FL p sl :: FL sib sr :: c). split_and!; [done|done|solve_ids]. }
    apply color_cases in Hsib. exec.
    erewrite (bind_eq (color_or_black (top sl))) by (by eapply color_or_black_eq).
    erewrite (bind_eq (color_or_black (top sr))) by (by eapply color_or_black_eq).
    exec.
    destruct (decide (col_of (nodes s) (top sr) = RED)) as [Hsr|Hsr].
    { (* black sibling with a red far child: the last case *)
      destruct sr as [|a far b]; [done|]. simpl in * |-. cbn [top col_of].
      destruct_and?.
      exec_dec.
      exec_rotateLeft at c (Br xl cur xr) sl sib (Br a far b) as s2 HR2 Hd2 Hl2.
      { by do 3 (apply Rep_upd_keep; [auto with heap|]). }
      eexists _, _. split; [reflexivity|]. split_and!.
      { intros. by val_simpl. }
      { by len_simpl. }
      eexists. split; [done|]. solve_ids. }
    apply color_cases in Hsr.
    destruct (decide (col_of (nodes s) (top sl) = RED)) as [Hsl|Hsl].
    { (* black sibling with a red near child only *)
      destruct sl as [|a near b]; [done|]. simpl in * |-. cbn [top col_of].
      destruct_and?.
      exec_dec.
      exec_rotateRight at (FR (Br xl cur xr) p :: c) a near b sr
        as s2 HR2 Hd2 Hl2.
      { by do 2 (apply Rep_upd_keep; [auto with heap|]). }
      eexists _, _. split; [reflexivity|]. split_and!.
      { intros. by val_simpl. }
      { by len_simpl. }
      { simpl. destruct sr; [by intros []|]. simpl in Hsr. intros [? ?]; congruence. }
      right. right. split; [done|].
      exists (FL p (Br a near (Br b sib sr)) :: c).
      split_and!; [done|done|solve_ids|].
      simpl. split; by col_simpl. }
    (* black sibling with black children *)
    apply color_cases in Hsl. exec_dec.
    eexists _, _. split; [reflexivity|]. split_and!.
    { intros. by val_simpl. }
    { by len_simpl. }
    { simpl. destruct sr; [by intros []|]. simpl in Hsr. intros [? ?]; congruence. }
    left. eexists _, _. split_and!; [done|done|]. by apply Rep_upd_keep; [auto with heap|].
  - (* current is a right child *)
    open_Rep HRep. simpl in Hin. exec.
    rewrite bool_decide_eq_false_2 by (apply top_ne; nd_solve).
    cbn zeta beta iota. exec.
    destruct sibT as [|sl sib sr]; simpl in * |-; cbn [top]; destruct_and?.
    { eexists _, _. split; [reflexivity|].
      split_and!; [done|done|by intros []|]. left. by eexists _, _. }
    exec. destruct (decide (col (nodes s) sib = RED)) as [Hsib|Hsib].
    { exec.
      exec_rotateRight at c sl sib sr (Br xl cur xr) as s2 HR2 Hd2 Hl2.
      { by do 2 (apply Rep_upd_keep; [auto with heap|]). }
      eexists _, _. split; [reflexivity|]. split_and!.
      { intros. by val_simpl. }
      { by len_simpl. }
      { simpl. destruct sl; [by intros []|intros [? ?]; congruence]. }
      right. left. split; [done|].
      exists (FR sr p :: FR sl sib :: c). split_and!; [done|done|solve_ids]. }
    apply color_cases in Hsib. exec.
    erewrite (bind_eq (color_or_black (top sl))) by (by eapply color_or_black_eq).
    erewrite (bind_eq (color_or_black (top sr))) by (by eapply color_or_black_eq).
    exec.
    destruct (decide (col_of (nodes s) (top sl) = RED)) as [Hsl|Hsl].
    { destruct sl as [|a far b]; [done|]. simpl in * |-. cbn [top col_of].
      destruct_and?.
      destruct (decide (col_of (nodes s) (top sr) = RED)) as [Hsr|Hsr];
        [|apply color_cases in Hsr]; exec_dec;
        (exec_rotateRight at c (Br a far b) sib sr (Br xl cur xr)
           as s2 HR2 Hd2 Hl2;
         [ by do 3 (apply Rep_upd_keep; [auto with heap|]) |]);
        (eexists _, _; split; [reflexivity|]; split_and!;
         [ intros; by val_simpl | by len_simpl
         | eexists; split; [done|]; solve_ids ]). }
    apply color_cases in Hsl.
    destruct (decide (col_of (nodes s) (top sr) = RED)) as [Hsr|Hsr].
    { destruct sr as [|a near b]; [done|]. simpl in * |-. cbn [top col_of].
      destruct_and?.
      exec_dec.
      exec_rotateLeft at (FL p (Br xl cur xr) :: c) sl a near b
        as s2 HR2 Hd2 Hl2.
      { by do 2 (apply Rep_upd_keep; [auto with heap|]). }
      eexists _, _. split; [reflexivity|]. split_and!.
      { intros. by val_simpl. }
      { by len_simpl. }
      { simpl. destruct sl; [by intros []|]. simpl in Hsl. intros [? ?]; congruence. }
      right. right. split; [done|].
      exists (FR (Br (Br sl sib a) near b) p :: c).
      split_and!; [done|done|solve_ids|].
      simpl. split; by col_simpl. }
    apply color_cases in Hsr. exec_dec.
    eexists _, _. split; [reflexivity|]. split_and!.
    { intros. by val_simpl. }
    { by len_simpl. }
    { simpl. destruct sl; [by intros []|]. simpl in Hsl. intros [? ?]; congruence. }
    left. eexists _, _. split_and!; [done|done|]. by apply Rep_upd_keep; [auto with heap|].
Qed.

Lemma measure_restart (N L lc : nat) :
  (L + 2 ≤ N)%nat →
  (2 * ((N - (L + 1)) * (N + 1) + (L + 1)) + 1
   < 2 * ((N - L) * (N + 1) + lc) + 1)%nat.
Proof.
  intros H. replace (N - L)%nat with (Datatypes.S (N - (L + 1))) by lia.
  nia.
Qed.

Lemma plug_Br c l i r : ∃ l' i' r', plug c (Br l i r) = Br l' i' r'.
Proof.
  revert l i r. induction c as [|[j t|t j] c IH]; intros l i r; simpl; eauto.
Qed.

(** [fixDelete] terminates from every node of the tree: each restart finds
    [node] one level deeper, and the tree has finitely many levels. *)
Lemma fixDelete_spec s T node d :
  Rep s T → node ∈ ids T →
  ∃ s' T', Runs (λ fuel, fixDelete fuel node d) s tt s'
    ∧ Rep s' T'
    ∧ ids T' = ids T
    ∧ (∀ i, val (nodes s') i = val (nodes s) i)
    ∧ length (nodes s') = length (nodes s)
    ∧ col_of (nodes s') (root s') = BLACK.
Proof.
  intros HRep Hnode.
  destruct (focus T node Hnode) as (c & nl & nr & HT).
  remember (length (ids T)) as N eqn:HN.
  remember (ids T) as L0 eqn:HL0.
  pose (I := λ (m : nat) (cur : option ref) (s' : RedBlackTree),
    ∃ c0 c nl nr, cur = top (plug c0 (Br nl node nr))
      ∧ Rep s' (plug (c0 ++ c) (Br nl node nr))
      ∧ ids (plug (c0 ++ c) (Br nl node nr)) = L0
      ∧ (∀ i, val (nodes s') i = val (nodes s) i)
      ∧ length (nodes s') = length (nodes s)
      ∧ (m = (2 * ((N - length (c0 ++ c)) * (N + 1) + length c) + 1)%nat
         ∨ far_red (nodes s') c)).
  pose (Q := λ (_ : unit) (s' : RedBlackTree),
    ∃ T', Rep s' T' ∧ ids T' = L0
      ∧ (∀ i, val (nodes s') i = val (nodes s) i)
      ∧ length (nodes s') = length (nodes s)).
  destruct (while_Runs (fixDelete_body node) I Q)
    with (m := (2 * ((N - length c) * (N + 1) + length c) + 1)%nat)
         (st := Some node) (s := s)
    as ([] & s1 & Hruns & T1 & HR1 & Hids & Hval & Hlen).
  - clear HRep Hnode HT HL0.
    intros m cur s' (c0 & c1 & nl' & nr' & -> & HR & Hids & Hval & Hlen & Hm).
    destruct (plug_Br c0 nl' node nr') as (xl & x & xr & HX).
    rewrite plug_app, HX in HR, Hids. rewrite HX. simpl top.
    destruct (fixDelete_body_spec s' node c1 xl x xr HR)
      as (res & s'' & Hb & Hval' & Hlen' & Hres).
    exists res, s''. split; [done|]. destruct res as [cur'|[]].
    + destruct Hres as (Hnf & Hres).
      destruct Hm as [->|Hfr]; [|done].
      destruct Hres as [(f & c' & -> & -> & HR')
                       |[(-> & c' & Hc' & HR' & Hids')
                        |(-> & c' & Hc' & HR' & Hids' & Hfr)]].
      * eexists. split; [|exists (c0 ++ [f]), c', nl', nr'; split_and!].
        2:{ rewrite plug_app, HX. by destruct f. }
        2:{ by rewrite <-app_assoc, plug_app, HX. }
        2:{ by rewrite <-app_assoc, plug_app, HX. }
        2:{ intros. by rewrite Hval'. }
        2:{ congruence. }
        2:{ left. reflexivity. }
        rewrite <-app_assoc. simpl. rewrite !length_app. simpl. lia.
      * assert (length c0 + length c' + 1 ≤ N)%nat as Hle.
        { pose proof (length_ctx_size (c0 ++ c') (Br nl' node nr')) as Hs.
          rewrite plug_app, HX in Hs.
          rewrite <-(size_ids (plug c' _)), Hids', Hids in Hs.
          rewrite length_app in Hs. simpl in Hs. lia. }
        clear HN.
        eexists. split; [|exists [], (c0 ++ c'), nl', nr'; split_and!].
        2:{ done. }
        2:{ simpl. by rewrite plug_app, HX. }
        2:{ simpl. rewrite plug_app, HX. congruence. }
        2:{ intros. by rewrite Hval'. }
        2:{ congruence. }
        2:{ left. reflexivity. }
        change ([] ++ (c0 ++ c')) with (c0 ++ c').
        replace (length (c0 ++ c')) with (length (c0 ++ c1) + 1)%nat
          by (rewrite !length_app; lia).
        apply measure_restart; rewrite length_app; lia.
      * exists O. split; [rewrite Nat.add_1_r; apply Nat.lt_0_succ|].
        exists c0, c', nl', nr'. split_and!.
        { by rewrite HX. }
        { by rewrite plug_app, HX. }
        { rewrite plug_app, HX. congruence. }
        { intros. by rewrite Hval'. }
        { congruence. }
        { by right. }
    + destruct Hres as (T' & HR' & Hids'). exists T'.
      split_and!; [done|congruence| |congruence].
      intros. by rewrite Hval'.
  - exists [], c, nl, nr. subst. split_and!; try done. by left.
  - assert (∃ s', (get_root ≫= λ r : option ref,
        match r with Some rt => put (set_color BLACK) rt | None => ret tt end)
        s1 = Some (tt, s') ∧ Rep s' T1
        ∧ (∀ i, val (nodes s') i = val (nodes s1) i)
        ∧ length (nodes s') = length (nodes s1)
        ∧ col_of (nodes s') (root s') = BLACK) as (s' & Hfin & ? & Hv & ? & ?).
    { exec. destruct HR1 as [Hroot Hrep Hnd]. rewrite Hroot.
      destruct T1 as [|l1 rt r1]; simpl.
      - exists s1. split_and!; try done. by rewrite Hroot.
      - simpl in Hrep. destruct_and?. eexists. split; [apply put_eq|]. split_and!.
        + by apply Rep_upd_keep.
        + intros. by rewrite val_upd_color.
        + by rewrite length_upd.
        + rewrite root_upd, Hroot. simpl. apply col_upd_color. eauto. }
    exists s', T1. split_and!; [|done|congruence| |congruence|done].
    + unfold fixDelete.
      eapply (Runs_bind (λ fuel, while fuel (fixDelete_body node) (Some node))
        (λ (_ : unit) _, _)); [done|].
      by apply Runs_const.
    + intros. by rewrite Hv.
Qed.

End fixDelete.

(** ** The public operations *)

Section public.
Implicit Types (s : RedBlackTree) (t l r T : shape) (c : ctx) (v : Z).

Lemma Runs_step {A B} (m : M A) (k : A → nat → M B) s a s1 b s2 :
  m s = Some (a, s1) → Runs (k a) s1 b s2 →
  Runs (λ fuel, m ≫= λ x, k x fuel) s b s2.
Proof. intros H. apply (Runs_bind (λ _, m) k). by apply Runs_const. Qed.

(** [insert v] terminates on every tree with a BLACK root; the new node, the
    next free reference, enters the in-order sequence where the descent
    ends. *)
Lemma insert_spec s T v :
  Rep s T → col_of (nodes s) (root s) = BLACK →
  ∃ s' T' c, Runs (λ fuel, insert fuel v) s tt s'
    ∧ Rep s' T'
    ∧ c = descend_ctx v (nodes s) T []
    ∧ ids T' = cbefore c ++ length (nodes s) :: cafter c
    ∧ (∀ i, i ≠ length (nodes s) → val (nodes s') i = val (nodes s) i)
    ∧ val (nodes s') (length (nodes s)) = v
    ∧ length (nodes s') = Datatypes.S (length (nodes s))
    ∧ col_of (nodes s') (root s') = BLACK.
Proof.
  intros HRep Hrb. destruct T as [|l x r].
  - destruct HRep as [Hroot _ _]. simpl in Hroot.
    exists (upd (set_color BLACK) (length (nodes s))
              (setroot (Some (length (nodes s))) (alloc v s))),
      (Br Leaf (length (nodes s)) Leaf), []. split_and!.
    + unfold insert. eapply Runs_step; [apply get_root_eq|]. rewrite Hroot.
      apply Runs_const. by exec.
    + split; [done| |simpl; apply NoDup_singleton].
      simpl. split_and!; [|done..]. solve_links.
    + done.
    + done.
    + intros i Hi. rewrite val_upd_color, nodes_setroot. by apply val_alloc.
    + rewrite val_upd_color, nodes_setroot. apply val_alloc_new.
    + by rewrite length_upd, nodes_setroot, length_alloc.
    + apply col_upd_color. eexists. solve_links.
  - pose proof HRep as [Hroot _ _]. simpl in Hroot.
    destruct (attach_spec s (Br l x r) v HRep) as (s1 & Hr1 & HR1 & Hd1 & Hn1 & Hl1);
      [done|].
    set (c := descend_ctx v (nodes s) (Br l x r) []) in *.
    assert (Hc : c ≠ []) by (apply descend_nonempty; by left).
    pose proof (descend_plug v (nodes s) (Br l x r) []) as Hplug.
    simpl plug in Hplug. fold c in Hplug.
    destruct (fixInsert_spec s1 c Leaf (length (nodes s)) Leaf HR1)
      as (s2 & T2 & Hr2 & HR2 & Hids2 & Hval2 & Hl2 & Hrb2).
    { left. destruct HR1 as [Hroot1 _ _]. rewrite Hroot1, top_plug.
      rewrite (croot_indep c _ None Hc).
      assert (root s = croot c None) as Hrs.
      { destruct HRep as [-> _ _]. by rewrite <-Hplug, top_plug. }
      rewrite <-Hrs. rewrite Hroot in Hrb |- *. simpl in Hrb |- *.
      rewrite <-Hrb. apply col_data, Hd1.
      apply Nat.lt_neq. eapply Rep_ids_lt; [done|]. simpl. set_solver. }
    exists s2, T2, c. split_and!.
    + unfold insert. eapply Runs_step; [apply get_root_eq|]. rewrite Hroot.
      cbn beta iota. eapply Runs_bind; [exact Hr1|exact Hr2].
    + done.
    + done.
    + rewrite Hids2, ids_plug_eq. done.
    + intros i Hi. rewrite Hval2. apply val_data. by apply Hd1.
    + rewrite Hval2. unfold val, data in *.
      destruct (nodes s1 !! length (nodes s)); simpl in *; congruence.
    + congruence.
    + done.
Qed.

Lemma find_shape_Some v h T x :
  find_shape v h T = Some x → x ∈ ids T ∧ val h x = v.
Proof.
  induction T as [|l IHl i r IHr]; simpl; [done|].
  destruct (decide (v = val h i)) as [->|]; [intros [= ->]; set_solver|].
  destruct (decide (v < val h i)); intros H; [apply IHl in H|apply IHr in H];
    set_solver.
Qed.

Lemma leftmost_spec l i r c :
  ∃ cm, (leftmost l i r c).1.1 = cm ++ c
    ∧ cbefore (cm ++ c) = cbefore c
    ∧ plug (cm ++ c) (Br Leaf (leftmost l i r c).1.2 (leftmost l i r c).2)
      = plug c (Br l i r).
Proof.
  revert i r c. induction l as [|ll IHl j lr _]; intros i r c; simpl.
  - by exists [].
  - destruct (IHl j lr (FL i r :: c)) as (cm & H1 & H2 & H3).
    exists (cm ++ [FL i r]). rewrite <-!app_assoc. simpl. by rewrite H1.
Qed.

Lemma fmap_val_ext (h h' : list Node) (K : list ref) :
  (∀ i, i ∈ K → val h' i = val h i) → val h' <$> K = val h <$> K.
Proof. intros H. apply Forall_fmap_ext, Forall_forall. done. Qed.

Lemma elem_plug c t i : i ∈ ids t ∨ i ∈ cids c → i ∈ ids (plug c t).
Proof. rewrite ids_plug. set_solver. Qed.

(** [delete v] terminates on every tree.  When the search finds nothing the
    tree is left as it was; otherwise the key found leaves the in-order key
    sequence, and the root is BLACK at the end. *)
Lemma delete_spec s T v :
  Rep s T →
  (find_shape v (nodes s) T = None ∧ Runs (λ fuel, delete fuel v) s false s)
  ∨ (∃ x s' T' k1 k2, find_shape v (nodes s) T = Some x
      ∧ Runs (λ fuel, delete fuel v) s true s' ∧ Rep s' T'
      ∧ val (nodes s) <$> ids T = k1 ++ v :: k2
      ∧ val (nodes s') <$> ids T' = k1 ++ k2
      ∧ length (nodes s') = length (nodes s)
      ∧ col_of (nodes s') (root s') = BLACK).
Proof.
  intros HRep. pose proof (findNode_spec s T v HRep) as Hfind.
  destruct (find_shape v (nodes s) T) as [x|] eqn:Hfs; cycle 1.
  { left. split; [done|]. unfold delete.
    eapply Runs_bind; [exact Hfind|]. by apply Runs_const. }
  right. apply find_shape_Some in Hfs as [Hx Hv].
  destruct (focus T x Hx) as (c & l & r & ->).
  assert (l = Leaf ∨ r = Leaf ∨ ∃ ll lx lr rl j rr,
    l = Br ll lx lr ∧ r = Br rl j rr) as [Hl|[Hr|Htwo]].
  { destruct l, r; eauto 10. }
  3:{ (* two children: the successor is spliced out *)
    destruct Htwo as (ll & lx & lr & rl & j & rr & -> & ->).
    destruct (leftmost_spec rl j rr (FR (Br ll lx lr) x :: c))
      as (cm & Hcm & Hbef & Hplug).
    open_Rep HRep.
    pose proof (findMin_spec s (Some x) rl j rr (FR (Br ll lx lr) x :: c)) as Hmin.
    destruct (leftmost rl j rr (FR (Br ll lx lr) x :: c)) as [[cm0 m] mr].
    simpl in Hcm, Hplug, Hmin. subst cm0.
    specialize (Hmin ltac:(done)).
    set (cM := cm ++ FR (Br ll lx lr) x :: c) in *.
    assert (∃ q, ctop cM = Some q) as [q Hq].
    { subst cM. destruct cm as [|f cm]; simpl; eauto. }
    pose proof HRep as HRepM. rewrite <-Hplug in HRepM.
    pose proof HRepM as (HrootM & HrepM & HrepcM & HndM)%Rep_plug.
    simpl in HrepM. destruct HrepM as (Hm & _ & Hmr).
    set (s1 := upd (set_value (val (nodes s) m)) x s).
    assert (Rep s1 (plug cM (Br Leaf m mr))) as HR1.
    { by apply Rep_upd_keep; [auto with heap|]. }
    destruct (deleteNode_spec s1 cM Leaf m mr HR1) as (s2 & Hdel & HR2 & Hd2 & Hl2 & Hlk2);
      [by left|].
    assert (links (nodes s2) m = Some (None, top mr, Some q)) as Hm2.
    { rewrite Hlk2. subst s1. rewrite links_upd_keep by auto with heap.
      by rewrite Hm, Hq. }
    set (node0 := match top mr with Some f => f | None => q end).
    destruct (fixDelete_spec s2 (plug cM mr) node0 (top mr) HR2)
      as (s3 & T3 & Hfix & HR3 & Hids3 & Hval3 & Hl3 & Hrb3).
    { apply elem_plug. subst node0.
      destruct mr as [|? f ?]; simpl; [right; by apply ctop_elem|left; set_solver]. }
    set (K1 := cbefore c ++ ids (Br ll lx lr)).
    set (K2 := ids mr ++ cafter cM).
    assert (ids (plug c (Br (Br ll lx lr) x (Br rl j rr))) = K1 ++ x :: m :: K2)
      as HidsT.
    { rewrite <-Hplug, ids_plug_eq, Hbef. subst K1 K2. simpl.
      repeat (rewrite <-app_assoc; simpl). done. }
    assert (ids T3 = K1 ++ x :: K2) as HidsT3.
    { rewrite Hids3, ids_plug_eq, Hbef. subst K1 K2. simpl.
      repeat (rewrite <-app_assoc; simpl). done. }
    destruct HRep as [_ _ HndT]. rewrite HidsT in HndT.
    apply NoDup_app in HndT as (_ & Hx1 & HndT).
    apply NoDup_cons in HndT as (Hx2 & _).
    assert (∀ i, val (nodes s3) i = val (nodes s1) i) as Hv31.
    { intros i. rewrite Hval3. apply val_data, Hd2. }
    exists x, s3, T3, (val (nodes s) <$> K1), (val (nodes s) <$> (m :: K2)).
    split_and!; [done| | done | | | rewrite Hl3, Hl2; apply length_upd | done].
    - unfold delete. eapply Runs_bind; [exact Hfind|]. cbn beta iota.
      eapply Runs_step; [by eapply get_left|].
      eapply Runs_step; [by eapply get_right|]. cbn beta iota.
      eapply (Runs_bind _ _ s (top mr, Some q) s2).
      + eapply Runs_bind; [exact Hmin|]. apply Runs_const. exec.
        fold s1. rewrite (bind_eq _ _ _ _ _ Hdel). by exec.
      + cbn beta iota. subst node0. destruct (top mr) as [f|]; cbn beta iota.
        * eapply Runs_bind; [exact Hfix|]. by apply Runs_const.
        * eapply Runs_bind; [exact Hfix|]. by apply Runs_const.
    - by rewrite HidsT, fmap_app, !fmap_cons, Hv.
    - rewrite HidsT3, !fmap_app, !fmap_cons. f_equal; [|f_equal].
      + apply fmap_val_ext. intros i Hi. rewrite Hv31. subst s1.
        apply val_upd_ne. intros ->. by apply Hx1 in Hi; set_solver.
      + rewrite Hv31. subst s1. apply val_upd_value. eauto.
      + apply fmap_val_ext. intros i Hi. rewrite Hv31. subst s1.
        apply val_upd_ne. intros ->. set_solver. }
  all: (* at most one child: the node itself is spliced out *)
    assert (l = Leaf ∨ r = Leaf) as Hone by tauto; clear Hl || clear Hr.
  all: set (ch := match l with Leaf => r | _ => l end);
    destruct (deleteNode_spec s c l x r HRep Hone)
      as (s2 & Hdel & HR2 & Hd2 & Hl2 & Hlk2); fold ch in Hdel, HR2;
    open_Rep HRep;
    assert (ids ch = ids l ++ ids r) as Hch
      by (subst ch; destruct Hone as [-> | ->]; [done|];
          destruct l; simpl; by rewrite ?app_nil_r);
    set (K1 := cbefore c ++ ids l); set (K2 := ids r ++ cafter c);
    assert (ids (plug c (Br l x r)) = K1 ++ x :: K2) as HidsT
      by (rewrite ids_plug_eq; subst K1 K2; simpl;
          repeat (rewrite <-app_assoc; simpl); done);
    assert (ids (plug c ch) = K1 ++ K2) as HidsT2
      by (rewrite ids_plug_eq, Hch; subst K1 K2;
          repeat (rewrite <-app_assoc; simpl); done);
    assert (links (nodes s2) x = Some (top l, top r, ctop c)) as Hx2
      by (by rewrite Hlk2);
    assert (∀ i, val (nodes s2) i = val (nodes s) i) as Hv2
      by (intros i; apply val_data, Hd2);
    assert (∃ s3 T3, Runs (λ fuel,
              match (top ch, ctop c) with
              | (None, Some p) => fixDelete fuel p None
              | (Some f, _) => fixDelete fuel f (Some f)
              | (None, None) => ret tt
              end) s2 tt s3
            ∧ Rep s3 T3 ∧ ids T3 = ids (plug c ch)
            ∧ (∀ i, val (nodes s3) i = val (nodes s2) i)
            ∧ length (nodes s3) = length (nodes s2)
            ∧ col_of (nodes s3) (root s3) = BLACK)
      as (s3 & T3 & Hfix & HR3 & Hids3 & Hval3 & Hl3 & Hrb3)
      by (destruct (top ch) as [f|] eqn:Htop; [|destruct c as [|fr c']];
          [ apply (fixDelete_spec s2 (plug c ch) f (Some f) HR2), elem_plug;
            left; by apply top_elem
          | exists s2, (plug [] ch); split_and!; try done;
            [ by apply Runs_const
            | destruct HR2 as [-> _ _]; simpl; by rewrite Htop ]
          | apply (fixDelete_spec s2 (plug (fr :: c') ch) (fid fr) None HR2),
              elem_plug; right; destruct fr; set_solver ]);
    (exists x, s3, T3, (val (nodes s) <$> K1), (val (nodes s) <$> K2);
     split_and!; [done| |done| | |congruence|done]);
    [ unfold delete; (eapply Runs_bind; [exact Hfind|]); cbn beta iota;
      (eapply Runs_step; [by eapply get_left|]);
      (eapply Runs_step; [by eapply get_right|]);
      eapply (Runs_bind _ _ s (top ch, ctop c) s2);
      [ destruct Hone as [-> | ->]; cbn [top]; [|destruct (top l)];
        cbn beta iota; apply Runs_const;
        rewrite (bind_eq _ _ _ _ _ Hdel); by exec
      | cbn beta iota; eapply Runs_bind; [exact Hfix|]; by apply Runs_const ]
    | by rewrite HidsT, fmap_app, fmap_cons, Hv
    | rewrite Hids3, HidsT2, <-fmap_app; apply fmap_val_ext; intros i _;
      by rewrite Hval3, Hv2 ].
Qed.

End public.

(** ** Ordered keys *)

Section ordered.
Implicit Types (h : list Node) (t l r T : shape) (c : ctx) (v : Z).

Lemma SS_remove_middle (l1 m l2 : list Z) :
  StronglySorted Z.le (l1 ++ m ++ l2) → StronglySorted Z.le (l1 ++ l2).
Proof.
  rewrite !StronglySorted_app. intros (H1 & H2 & H3 & H4 & H5).
  split_and!; [|done..]. intros x1 x2 Hx1 Hx2. apply H1; [done|].
  apply elem_of_app. by right.
Qed.

Lemma SS_val_le h (l1 l2 : list ref) i j :
  StronglySorted Z.le (val h <$> (l1 ++ l2)) → i ∈ l1 → j ∈ l2 →
  val h i ≤ val h j.
Proof.
  rewrite fmap_app. intros Hs Hi Hj.
  eapply StronglySorted_app_1_elem_of; [done|by apply list_elem_of_fmap_2..].
Qed.

(** Along the descent of [insert], everything before the position is at most
    the key and everything after it is greater. *)
Lemma routed_bounds v h c :
  Forall (routed v h) c →
  StronglySorted Z.le (val h <$> (cbefore c ++ cafter c)) →
  (∀ i, i ∈ cbefore c → val h i ≤ v) ∧ (∀ i, i ∈ cafter c → v < val h i).
Proof.
  induction c as [|[i r|l i] c IH]; simpl; intros Hr Hs.
  - split; intros i Hi; by apply elem_of_nil in Hi.
  - apply Forall_cons in Hr as [Hi Hr]. simpl in Hi.
    destruct IH as [IH1 IH2]; [done| |].
    { revert Hs. rewrite !fmap_app, fmap_cons, fmap_app.
      change (?x :: ?a ++ ?b) with ((x :: a) ++ b). apply SS_remove_middle. }
    split; [done|]. intros j. rewrite elem_of_cons, elem_of_app.
    intros [->|[Hj|Hj]]; [done| |by apply IH2].
    assert (val h i ≤ val h j); [|lia].
    apply (SS_val_le h (cbefore c ++ [i]) (ids r ++ cafter c)).
    + by rewrite <-app_assoc.
    + set_solver.
    + set_solver.
  - apply Forall_cons in Hr as [Hi Hr]. simpl in Hi.
    destruct IH as [IH1 IH2]; [done| |].
    { revert Hs. rewrite <-(app_assoc (cbefore c)).
      rewrite (fmap_app _ (cbefore c)), (fmap_app _ (ids l ++ [i])),
        (fmap_app _ (cbefore c) (cafter c)).
      apply SS_remove_middle. }
    split; [|done]. intros j. rewrite !elem_of_app, list_elem_of_singleton.
    intros [Hj|[Hj| ->]]; [by apply IH1| |lia].
    assert (val h j ≤ val h i); [|lia].
    apply (SS_val_le h (cbefore c ++ ids l) (i :: cafter c)).
    + revert Hs. by rewrite <-!app_assoc.
    + set_solver.
    + set_solver.
Qed.

(** In an ordered tree [findNode] finds every key that is present. *)
Lemma find_shape_sorted v h T :
  StronglySorted Z.le (val h <$> ids T) → v ∈ val h <$> ids T →
  is_Some (find_shape v h T).
Proof.
  induction T as [|l IHl i r IHr]; simpl; intros Hs Hv.
  - by apply elem_of_nil in Hv.
  - destruct (decide (v = val h i)) as [|Hne]; [done|].
    rewrite fmap_app, fmap_cons in Hv, Hs.
    apply StronglySorted_app in Hs as (H1 & H2 & H3).
    apply StronglySorted_cons in H3 as (H3 & H4).
    apply elem_of_app in Hv as [Hv|Hv].
    + destruct (decide (v < val h i)); [by apply IHl|].
      exfalso. assert (v ≤ val h i); [|lia]. apply H1; [done|set_solver].
    + apply elem_of_cons in Hv as [Hv|Hv]; [done|].
      destruct (decide (v < val h i)); [|by apply IHr].
      exfalso. rewrite Forall_forall in H3. specialize (H3 v Hv). lia.
Qed.

Lemma descend_keeps v h t c f : f ∈ c → f ∈ descend_ctx v h t c.
Proof.
  revert c. induction t as [|l IHl i r IHr]; intros c Hf; simpl; [done|].
  destruct (decide _); [apply IHl|apply IHr]; set_solver.
Qed.

(** In an ordered tree the descent for a key that is present goes right at a
    node that holds this key. *)
Lemma descend_dup v h T c :
  StronglySorted Z.le (val h <$> ids T) → v ∈ val h <$> ids T →
  ∃ l i, FR l i ∈ descend_ctx v h T c ∧ val h i = v.
Proof.
  revert c. induction T as [|l IHl i r IHr]; simpl; intros c Hs Hv.
  - by apply elem_of_nil in Hv.
  - rewrite fmap_app, fmap_cons in Hv, Hs.
    apply StronglySorted_app in Hs as (H1 & H2 & H3).
    apply StronglySorted_cons in H3 as (H3 & H4).
    destruct (decide (v < val h i)) as [Hlt|Hge].
    + apply IHl; [done|]. apply elem_of_app in Hv as [Hv|Hv]; [done|].
      exfalso. apply elem_of_cons in Hv as [Hv|Hv]; [lia|].
      rewrite Forall_forall in H3. specialize (H3 v Hv). lia.
    + destruct (decide (v = val h i)) as [Heq|Hne].
      * exists l, i. split; [|done]. apply descend_keeps. set_solver.
      * apply IHr; [done|]. apply elem_of_app in Hv as [Hv|Hv].
        -- exfalso. assert (v ≤ val h i); [|lia]. apply H1; [done|set_solver].
        -- apply elem_of_cons in Hv as [Hv|Hv]; done.
Qed.

End ordered.

(** ** The invariant of reachable trees *)

Section invariant.
Implicit Types (s : RedBlackTree) (T : shape) (v : Z).

Lemma keys_Rep s T : Rep s T → keys s = val (nodes s) <$> ids T.
Proof. intros H. unfold keys. by rewrite (shape_of_Rep s T H). Qed.

Lemma well_formed_Rep s T : Rep s T → well_formed s.
Proof. intros H. unfold well_formed. by rewrite (shape_of_Rep s T H). Qed.

Lemma Inv_empty : Inv empty.
Proof.
  split_and!; [|done|constructor]. unfold well_formed. simpl.
  split; [done..|constructor].
Qed.

(** [insert] terminates on every tree that satisfies the invariant, keeps
    the invariant and adds its key to the keys. *)
Lemma Inv_insert s v :
  Inv s →
  ∃ s', Runs (λ fuel, insert fuel v) s tt s' ∧ Inv s'
    ∧ keys s' ≡ₚ v :: keys s.
Proof.
  intros (Hwf & Hrb & Hord). unfold ordered in Hord.
  rewrite (keys_Rep s _ Hwf) in Hord |- *. set (T := shape_of s) in *.
  destruct (insert_spec s T v Hwf Hrb)
    as (s' & T' & c & Hrun & HR' & Hc & Hids & Hval & Hvn & Hlen & Hrb').
  pose proof (descend_plug v (nodes s) T []) as Hplug. simpl in Hplug.
  rewrite <-Hc in Hplug.
  assert (ids T = cbefore c ++ cafter c) as HidsT.
  { by rewrite <-Hplug, ids_plug_eq. }
  assert (Forall (routed v (nodes s)) c) as Hrt.
  { rewrite Hc. apply descend_routed. constructor. }
  rewrite HidsT in Hord.
  destruct (routed_bounds v (nodes s) c Hrt Hord) as [Hb1 Hb2].
  assert (∀ i, i ∈ ids T → val (nodes s') i = val (nodes s) i) as Hold.
  { intros i Hi. apply Hval, Nat.lt_neq. by eapply Rep_ids_lt. }
  assert (keys s' = (val (nodes s) <$> cbefore c) ++ v
                      :: (val (nodes s) <$> cafter c)) as Hkeys.
  { rewrite (keys_Rep s' T' HR'), Hids, fmap_app, fmap_cons, Hvn.
    f_equal; [|f_equal]; apply fmap_val_ext; intros i Hi; apply Hold;
      rewrite HidsT; set_solver. }
  exists s'. split_and!; [done| |].
  - split_and!; [by eapply well_formed_Rep|done|]. unfold ordered.
    rewrite Hkeys. rewrite fmap_app in Hord.
    apply StronglySorted_app in Hord as (H1 & H2 & H3).
    apply StronglySorted_app_2; [|done|].
    + intros x1 x2 (i & -> & Hi)%list_elem_of_fmap. 
      rewrite elem_of_cons. intros [->|(j & -> & Hj)%list_elem_of_fmap].
      * by apply Hb1.
      * apply H1; by apply list_elem_of_fmap_2.
    + apply StronglySorted_cons. split; [|done].
      apply Forall_forall. intros x (j & -> & Hj)%list_elem_of_fmap.
      specialize (Hb2 j Hj). lia.
  - rewrite Hkeys, HidsT, fmap_app. by rewrite Permutation_middle.
Qed.

(** [delete] terminates on every tree that satisfies the invariant and keeps
    the invariant; it removes one occurrence of a key that is present, and
    changes nothing when the key is absent. *)
Lemma Inv_delete s v :
  Inv s →
  ∃ b s', Runs (λ fuel, delete fuel v) s b s' ∧ Inv s'
    ∧ (v ∈ keys s → b = true ∧ keys s ≡ₚ v :: keys s')
    ∧ (v ∉ keys s → b = false ∧ s' = s).
Proof.
  intros (Hwf & Hrb & Hord). unfold ordered in Hord.
  rewrite (keys_Rep s _ Hwf) in Hord |- *. set (T := shape_of s) in *.
  destruct (delete_spec s T v Hwf)
    as [(Hnone & Hrun)
       |(x & s' & T' & k1 & k2 & Hsome & Hrun & HR' & Hk & Hk' & Hlen & Hrb')].
  - exists false, s. split_and!; [done| |..].
    + by split_and!.
    + intros Hv. destruct (find_shape_sorted v (nodes s) T Hord Hv) as [? Hs].
      congruence.
    + done.
  - exists true, s'. split_and!; [done| |..].
    + split_and!; [by eapply well_formed_Rep|done|]. unfold ordered.
      rewrite (keys_Rep s' T' HR'), Hk'. rewrite Hk in Hord.
      change (v :: k2) with ([v] ++ k2) in Hord. by apply SS_remove_middle in Hord.
    + intros _. split; [done|].
      rewrite (keys_Rep s' T' HR'), Hk, Hk'. by rewrite Permutation_middle.
    + intros Hv. exfalso. apply Hv. rewrite Hk. set_solver.
Qed.

Lemma reachable_Inv s : reachable s → Inv s.
Proof.
  induction 1 as [|s fuel v s' _ IH Hins|s fuel v b s' _ IH Hdel].
  - apply Inv_empty.
  - destruct (Inv_insert s v IH) as (s'' & Hrun & HI & _).
    by apply (Runs_det _ _ _ _ _ _ Hrun) in Hins as [= ->].
  - destruct (Inv_delete s v IH) as (b' & s'' & Hrun & HI & _).
    by apply (Runs_det _ _ _ _ _ _ Hrun) in Hdel as [= -> ->].
Qed.

End invariant.

(** * Part III: the claims *)

Section sequences.
Implicit Types (s : RedBlackTree) (ops : list Op).

Lemma run_reachable fuel ops s bs s' :
  reachable s → run fuel ops s = Some (bs, s') → reachable s'.
Proof.
  revert s bs. induction ops as [|o ops IH]; intros s bs Hs; simpl.
  - by intros [= _ <-].
  - unfold mbind, M_bind.
    destruct (run_op fuel o s) as [[b s1]|] eqn:Ho; [|done].
    destruct (run fuel ops s1) as [[bs1 s2]|] eqn:Hr; [|done].
    intros [= _ <-]. eapply IH; [|done].
    destruct o as [v|v]; simpl in Ho.
    + unfold mbind, M_bind in Ho.
      destruct (insert fuel v s) as [[[] s1']|] eqn:Hi; [|done].
      injection Ho as _ <-. by eapply reach_insert.
    + by eapply reach_delete.
Qed.

End sequences.

(** ** C1: the invariants after every operation *)

(** C1 (refuted on the code): the red-black invariants do not survive every
    sequence of operations.  After inserting 1, 2, 3, 4 and deleting 1 the
    tree is 2(BLACK) with the right child 3(BLACK) and its right child
    4(RED), and no left child: the paths from the root pass through
    different numbers of BLACK nodes (rule 5). *)
Theorem C1_delete_breaks_black_height :
  ∃ bs s,
    run 64 [Insert 1; Insert 2; Insert 3; Insert 4; Delete 1] empty
      = Some (bs, s)
    ∧ reachable s
    ∧ keys s = [2; 3; 4]
    ∧ (col (nodes s) <$> ids (shape_of s)) = [BLACK; BLACK; RED]
    ∧ black_height (nodes s) (shape_of s) = None
    ∧ ¬ red_black s.
Proof.
  eexists _, _. split; [vm_compute; reflexivity|]. split_and!.
  - eapply (run_reachable 64 [Insert 1; Insert 2; Insert 3; Insert 4; Delete 1]);
      [apply reach_empty|vm_compute; reflexivity].
  - by vm_compute.
  - by vm_compute.
  - by vm_compute.
  - intros (_ & _ & [n Hn]). by vm_compute in Hn.
Qed.

(** ** C2: the demonstration scenario *)

(** C2 (refuted on the code): in the scenario of the source file, the three
    deletions return true and leave exactly the keys 4, 6, 7, 8, 10, 12, 15,
    17 in ascending in-order, but the final tree is a left spine of seven
    levels on which rule 5 fails. *)
Theorem C2_demo_scenario :
  ∃ s,
    run 64 ((Insert <$> demo_values) ++ (Delete <$> demo_deleted)) empty
      = Some (replicate 11 true ++ [true; true; true], s)
    ∧ keys s = [4; 6; 7; 8; 10; 12; 15; 17]
    ∧ Sorted Z.lt (keys s)
    ∧ root_black (nodes s) (shape_of s)
    ∧ no_red_red (nodes s) (shape_of s)
    ∧ black_height (nodes s) (shape_of s) = None
    ∧ ¬ red_black s.
Proof.
  eexists. split; [vm_compute; reflexivity|]. split_and!.
  - by vm_compute.
  - vm_compute. repeat constructor.
  - by vm_compute.
  - vm_compute. intuition congruence.
  - by vm_compute.
  - intros (_ & _ & [n Hn]). by vm_compute in Hn.
Qed.

(** After the eleven insertions of the scenario, the root holds 10 and all
    invariants hold. *)
Lemma demo_inserts_red_black :
  ∃ s r n,
    run 64 (Insert <$> demo_values) empty = Some (replicate 11 true, s)
    ∧ root s = Some r ∧ nodes s !! r = Some n
    ∧ value n = 10 ∧ color n = BLACK
    ∧ red_black s.
Proof.
  eexists _, _, _. split; [vm_compute; reflexivity|].
  split_and!; try by vm_compute.
  apply (@bool_decide_unpack _ (red_black_dec _)). by vm_compute.
Qed.

(** ** C4: splicing out a RED node *)

(** C4 (refuted on the code): [delete] runs its repair whatever the colour
    of the spliced node.  In the tree built by inserting 15, 12, 3, 4, the
    node of key 4 is a RED leaf; deleting it recolours the node of key 15
    from BLACK to RED, which the splice alone does not, and breaks rule 5. *)
Theorem C4_repair_after_red_splice :
  ∃ s x s1 s2,
    run 64 (Insert <$> [15; 12; 3; 4]) empty = Some (replicate 4 true, s)
    ∧ spliced_node 64 4 s = Some (Some x, s)
    ∧ col (nodes s) x = RED
    ∧ splice_only 64 4 s = Some (true, s1)
    ∧ delete 64 4 s = Some (true, s2)
    ∧ shape_of s1 = shape_of s2
    ∧ keys s1 = [3; 12; 15] ∧ keys s2 = [3; 12; 15]
    ∧ (col (nodes s1) <$> ids (shape_of s1)) = [BLACK; BLACK; BLACK]
    ∧ (col (nodes s2) <$> ids (shape_of s2)) = [BLACK; BLACK; RED]
    ∧ red_black s1 ∧ ¬ red_black s2.
Proof.
  eexists _, _, _, _. split; [vm_compute; reflexivity|].
  split; [vm_compute; reflexivity|].
  split; [by vm_compute|].
  split; [vm_compute; reflexivity|].
  split; [vm_compute; reflexivity|].
  split_and!; try by vm_compute.
  - apply (@bool_decide_unpack _ (red_black_dec _)). by vm_compute.
  - intros (_ & _ & [n Hn]). by vm_compute in Hn.
Qed.

(** ** C7: the height bound *)

(** After the scenario of the source file the tree has 8 nodes on 7
    levels, and 2^7 = 128 exceeds (8+1)² = 81. *)
Lemma demo_height :
  ∃ bs s,
    run 64 ((Insert <$> demo_values) ++ (Delete <$> demo_deleted)) empty
      = Some (bs, s)
    ∧ size (shape_of s) = 8%nat ∧ height (shape_of s) = 7%nat
    ∧ ¬ height_bound s.
Proof.
  eexists _, _. split; [vm_compute; reflexivity|]. split_and!.
  - by vm_compute.
  - by vm_compute.
  - unfold height_bound. vm_compute. lia.
Qed.

(** C7 (refuted on the code): inserting 0 after the scenario of the source
    file gives a tree of 9 nodes on 8 levels, a left spine with one more
    node to the right of the root.  The bound fails whether the height
    counts the nodes of the longest path (2^8 = 256) or its links
    (2^7 = 128): both exceed (9+1)² = 100. *)
Theorem C7_height_bound_broken :
  ∃ bs s,
    run 64 ((Insert <$> demo_values) ++ (Delete <$> demo_deleted)
            ++ [Insert 0]) empty
      = Some (bs, s)
    ∧ reachable s
    ∧ size (shape_of s) = 9%nat ∧ height (shape_of s) = 8%nat
    ∧ ¬ height_bound s ∧ ¬ height_bound_links s.
Proof.
  eexists _, _. split; [vm_compute; reflexivity|]. split_and!.
  - eapply (run_reachable 64
      ((Insert <$> demo_values) ++ (Delete <$> demo_deleted) ++ [Insert 0]));
      [apply reach_empty|vm_compute; reflexivity].
  - by vm_compute.
  - by vm_compute.
  - unfold height_bound. vm_compute. lia.
  - unfold height_bound_links. vm_compute. lia.
Qed.

Section universal.
Implicit Types (s : RedBlackTree) (T : shape) (v : Z).

Lemma small_tree_reachable : reachable small_tree.
Proof.
  eapply (run_reachable 64 [Insert 2; Insert 1; Insert 3]);
    [apply reach_empty|vm_compute; reflexivity].
Qed.

Lemma Runs_run_cons o ops s b s1 bs s2 :
  Runs (λ fuel, run_op fuel o) s b s1 →
  Runs (λ fuel, run fuel ops) s1 bs s2 →
  Runs (λ fuel, run fuel (o :: ops)) s (b :: bs) s2.
Proof.
  intros H1 H2. simpl.
  eapply Runs_bind; [exact H1|]. cbn beta.
  eapply Runs_bind; [exact H2|]. by apply Runs_const.
Qed.

Lemma Runs_run_nil s : Runs (λ fuel, run fuel []) s [] s.
Proof. by apply Runs_const. Qed.

Lemma Runs_run_insert v s s' :
  Runs (λ fuel, insert fuel v) s tt s' →
  Runs (λ fuel, run_op fuel (Insert v)) s true s'.
Proof. intros H. simpl. eapply Runs_bind; [exact H|]. by apply Runs_const. Qed.

(** Deleting keys that are present, one after the other. *)
Lemma run_deletes (l K : list Z) s :
  Inv s → keys s ≡ₚ l ++ K →
  ∃ s', Runs (λ fuel, run fuel (Delete <$> l)) s (replicate (length l) true) s'
    ∧ Inv s' ∧ keys s' ≡ₚ K.
Proof.
  revert s. induction l as [|v l IH]; intros s HI Hk.
  - exists s. split_and!; [apply Runs_run_nil|done|done].
  - destruct (Inv_delete s v HI) as (b & s1 & Hrun & HI1 & Hin & _).
    destruct Hin as [-> Hk1]; [rewrite Hk; set_solver|].
    destruct (IH s1 HI1) as (s2 & Hrun2 & HI2 & Hk2).
    { apply (Permutation_cons_inv (a := v)). by rewrite <-Hk1, Hk. }
    exists s2. split_and!; [|done..].
    change (Runs (λ fuel, run fuel (Delete v :: (Delete <$> l))) s
              (true :: replicate (length l) true) s2).
    by eapply Runs_run_cons.
Qed.

(** Inserting keys one after the other, followed by more operations. *)
Lemma run_inserts_then (l : list Z) ops (P : list bool → RedBlackTree → Prop) s :
  Inv s →
  (∀ s1, Inv s1 → keys s1 ≡ₚ l ++ keys s →
     ∃ bs s', Runs (λ fuel, run fuel ops) s1 bs s' ∧ P bs s') →
  ∃ bs s',
    Runs (λ fuel, run fuel ((Insert <$> l) ++ ops)) s
      (replicate (length l) true ++ bs) s' ∧ P bs s'.
Proof.
  revert s. induction l as [|v l IH]; intros s HI Hk.
  - apply Hk; done.
  - destruct (Inv_insert s v HI) as (s1 & Hrun & HI1 & Hk1).
    destruct (IH s1 HI1) as (bs & s2 & Hrun2 & HP).
    { intros s' HI' Hk'. apply Hk; [done|]. rewrite Hk', Hk1.
      by rewrite <-Permutation_middle. }
    exists bs, s2. split; [|done].
    change (Runs (λ fuel, run fuel (Insert v :: ((Insert <$> l) ++ ops))) s
              (true :: (replicate (length l) true ++ bs)) s2).
    eapply Runs_run_cons; [by apply Runs_run_insert|done].
Qed.

Lemma ids_nil T : ids T = [] → T = Leaf.
Proof. destruct T as [|l i r]; [done|]. simpl. by destruct (ids l). Qed.

Lemma Inv_no_keys s : Inv s → keys s = [] → shape_of s = Leaf ∧ root s = None.
Proof.
  intros (Hwf & _ & _) Hk. apply fmap_nil_inv, ids_nil in Hk.
  split; [done|]. destruct Hwf as [Hroot _ _]. by rewrite Hroot, Hk.
Qed.

(** ** C3: termination *)

(** C3: on every reachable tree each public operation returns when given
    enough fuel; and the loop of [fixDelete] exits from every node of every
    well-formed tree, the trees between the splice and the repair
    included. *)
Theorem C3_operations_terminate s v :
  reachable s →
  (∃ s', Runs (λ fuel, insert fuel v) s tt s')
  ∧ (∃ b s', Runs (λ fuel, delete fuel v) s b s')
  ∧ (∃ r, Runs (λ fuel, findNode fuel v) s r s)
  ∧ (∀ s1 node d, well_formed s1 → node ∈ ids (shape_of s1) →
       ∃ s', Runs (λ fuel, fixDelete fuel node d) s1 tt s').
Proof.
  intros HI%reachable_Inv. split_and!.
  - destruct (Inv_insert s v HI) as (s' & Hrun & _). eauto.
  - destruct (Inv_delete s v HI) as (b & s' & Hrun & _). eauto.
  - destruct HI as (Hwf & _). eexists. by eapply findNode_spec.
  - intros s1 node d Hwf Hnode.
    destruct (fixDelete_spec s1 _ node d Hwf Hnode) as (s' & T' & Hrun & _).
    eauto.
Qed.

Lemma C3_operations_terminate_witness :
  reachable small_tree
  ∧ (∃ s', Runs (λ fuel, insert fuel 3) small_tree tt s')
  ∧ (∃ b s', Runs (λ fuel, delete fuel 3) small_tree b s')
  ∧ (∃ r, Runs (λ fuel, findNode fuel 3) small_tree r small_tree)
  ∧ (∀ s1 node d, well_formed s1 → node ∈ ids (shape_of s1) →
       ∃ s', Runs (λ fuel, fixDelete fuel node d) s1 tt s').
Proof.
  split; [exact small_tree_reachable|].
  exact (C3_operations_terminate small_tree 3 small_tree_reachable).
Defined.

(** ** C5: deleting an absent key *)

(** C5: on a reachable tree, deleting a key that is not in it returns false
    (given enough fuel, and nothing else whatever the fuel) and leaves the
    tree object exactly as it was: the same root and the same store, hence
    the same shape, keys and colours. *)
Theorem C5_delete_absent s v :
  reachable s → v ∉ keys s →
  Runs (λ fuel, delete fuel v) s false s.
Proof.
  intros HI%reachable_Inv Hv.
  destruct (Inv_delete s v HI) as (b & s' & Hrun & _ & _ & Habs).
  by destruct (Habs Hv) as [-> ->].
Qed.

Lemma C5_delete_absent_witness :
  reachable small_tree ∧ (7 ∉ keys small_tree)
  ∧ Runs (λ fuel, delete fuel 7) small_tree false small_tree.
Proof.
  assert (7 ∉ keys small_tree) as H.
  { vm_compute. intros H. repeat (apply elem_of_cons in H as [H|H]; [done|]).
    by apply elem_of_nil in H. }
  split; [exact small_tree_reachable|]. split; [exact H|].
  exact (C5_delete_absent small_tree 7 small_tree_reachable H).
Defined.

(** ** C6: inserting a set and deleting it again *)

(** Inserting keys and deleting them again in any order empties the tree;
    the keys need not be distinct. *)
Lemma round_trip (l1 l2 : list Z) :
  l1 ≡ₚ l2 →
  ∃ s,
    Runs (λ fuel, run fuel ((Insert <$> l1) ++ (Delete <$> l2))) empty
      (replicate (length l1) true ++ replicate (length l2) true) s
    ∧ root s = None ∧ shape_of s = Leaf.
Proof.
  intros Hperm.
  destruct (run_inserts_then l1 (Delete <$> l2)
    (λ bs s', bs = replicate (length l2) true ∧ root s' = None
              ∧ shape_of s' = Leaf) empty Inv_empty)
    as (bs & s & Hrun & -> & Hroot & Hshape).
  { intros s1 HI1 Hk1.
    destruct (run_deletes l2 [] s1 HI1) as (s2 & Hrun2 & HI2 & Hk2).
    { rewrite Hk1, Hperm. by rewrite !app_nil_r. }
    apply Permutation_nil_r in Hk2.
    destruct (Inv_no_keys s2 HI2 Hk2) as [? ?].
    by exists (replicate (length l2) true), s2. }
  by exists s.
Qed.

(** C6: inserting distinct keys in any order and then deleting them in any
    order terminates, every deletion returns true, and the tree is empty at
    the end: the root reference is absent. *)
Theorem C6_round_trip (l1 l2 : list Z) :
  NoDup l1 → l1 ≡ₚ l2 →
  ∃ s,
    Runs (λ fuel, run fuel ((Insert <$> l1) ++ (Delete <$> l2))) empty
      (replicate (length l1) true ++ replicate (length l2) true) s
    ∧ root s = None ∧ shape_of s = Leaf.
Proof. intros _ Hperm. by apply round_trip. Qed.

Lemma C6_round_trip_witness :
  NoDup [2; 1; 3] ∧ [2; 1; 3] ≡ₚ [3; 2; 1]
  ∧ ∃ s,
      Runs (λ fuel, run fuel ((Insert <$> [2; 1; 3]) ++ (Delete <$> [3; 2; 1])))
        empty (replicate 3 true ++ replicate 3 true) s
      ∧ root s = None ∧ shape_of s = Leaf.
Proof.
  assert (NoDup [2; 1; 3]) as H1.
  { apply (bool_decide_unpack _). by vm_compute. }
  assert ([2; 1; 3] ≡ₚ [3; 2; 1]) as H2.
  { etrans; [apply perm_swap|]. etrans; [apply perm_skip, perm_swap|].
    etrans; [apply perm_swap|]. apply perm_skip, perm_swap. }
  split; [exact H1|]. split; [exact H2|].
  exact (C6_round_trip [2; 1; 3] [3; 2; 1] H1 H2).
Defined.

(** ** C8: rotations *)

Lemma focus_child_r s c l x r n y :
  Rep s (plug c (Br l x r)) → nodes s !! x = Some n → right n = Some y →
  ∃ rl rr, r = Br rl y rr.
Proof.
  intros (_ & Hrep & _ & _)%Rep_plug Hn Hy. simpl in Hrep.
  destruct Hrep as (Hx & _). unfold links in Hx. rewrite Hn in Hx.
  simpl in Hx. injection Hx as _ Hr _. rewrite Hy in Hr.
  destruct r as [|rl y' rr]; [done|]. injection Hr as ->. eauto.
Qed.

Lemma focus_child_l s c l x r n y :
  Rep s (plug c (Br l x r)) → nodes s !! x = Some n → left n = Some y →
  ∃ ll lr, l = Br ll y lr.
Proof.
  intros (_ & Hrep & _ & _)%Rep_plug Hn Hy. simpl in Hrep.
  destruct Hrep as (Hx & _). unfold links in Hx. rewrite Hn in Hx.
  simpl in Hx. injection Hx as Hl _ _. rewrite Hy in Hl.
  destruct l as [|ll y' lr]; [done|]. injection Hl as ->. eauto.
Qed.

(** C8: on a well-formed tree, a rotation at a node of the tree whose
    required child is present succeeds, changes the colour of no node, and
    leaves the in-order sequence of nodes, hence of keys, as it was. *)
Theorem C8_rotations_keep_colors_and_order s x n :
  well_formed s → x ∈ ids (shape_of s) → nodes s !! x = Some n →
  (∀ y, right n = Some y →
     ∃ s', rotateLeft x s = Some (tt, s') ∧ well_formed s'
       ∧ ids (shape_of s') = ids (shape_of s) ∧ keys s' = keys s
       ∧ ∀ i, col (nodes s') i = col (nodes s) i)
  ∧ (∀ y, left n = Some y →
     ∃ s', rotateRight x s = Some (tt, s') ∧ well_formed s'
       ∧ ids (shape_of s') = ids (shape_of s) ∧ keys s' = keys s
       ∧ ∀ i, col (nodes s') i = col (nodes s) i).
Proof.
  intros Hwf Hx Hn. unfold well_formed in Hwf.
  destruct (focus _ x Hx) as (c & l & r & HT).
  unfold keys. rewrite HT in Hwf |- *. clear HT. split.
  - intros y Hy.
    destruct (focus_child_r s c l x r n y Hwf Hn Hy) as (rl & rr & ->).
    destruct (rotateLeft_spec s c l x rl y rr Hwf) as (s' & Hrun & HR' & Hd & _).
    exists s'. rewrite (shape_of_Rep s' _ HR').
    assert (ids (plug c (Br (Br l x rl) y rr)) = ids (plug c (Br l x (Br rl y rr))))
      as Hids by solve_ids.
    split_and!; [done|by eapply well_formed_Rep|done| |].
    + rewrite Hids. apply fmap_val_ext. intros i _. apply val_data, Hd.
    + intros i. apply col_data, Hd.
  - intros y Hy.
    destruct (focus_child_l s c l x r n y Hwf Hn Hy) as (ll & lr & ->).
    destruct (rotateRight_spec s c ll y lr x r Hwf) as (s' & Hrun & HR' & Hd & _).
    exists s'. rewrite (shape_of_Rep s' _ HR').
    assert (ids (plug c (Br ll y (Br lr x r))) = ids (plug c (Br (Br ll y lr) x r)))
      as Hids by solve_ids.
    split_and!; [done|by eapply well_formed_Rep|done| |].
    + rewrite Hids. apply fmap_val_ext. intros i _. apply val_data, Hd.
    + intros i. apply col_data, Hd.
Qed.

Lemma small_tree_well_formed : well_formed small_tree.
Proof. apply reachable_Inv, small_tree_reachable. Qed.

Lemma C8_rotations_keep_colors_and_order_witness :
  well_formed small_tree ∧ (0%nat ∈ ids (shape_of small_tree))
  ∧ small_tree.(nodes) !! 0%nat
      = Some (mkNode 2 BLACK (Some 1%nat) (Some 2%nat) None)
  ∧ (∀ y, Some 2%nat = Some y →
       ∃ s', rotateLeft 0 small_tree = Some (tt, s') ∧ well_formed s'
         ∧ ids (shape_of s') = ids (shape_of small_tree)
         ∧ keys s' = keys small_tree
         ∧ ∀ i, col (nodes s') i = col (nodes small_tree) i)
  ∧ (∀ y, Some 1%nat = Some y →
       ∃ s', rotateRight 0 small_tree = Some (tt, s') ∧ well_formed s'
         ∧ ids (shape_of s') = ids (shape_of small_tree)
         ∧ keys s' = keys small_tree
         ∧ ∀ i, col (nodes s') i = col (nodes small_tree) i).
Proof.
  assert (0%nat ∈ ids (shape_of small_tree)) as H.
  { vm_compute. apply list_elem_of_further, list_elem_of_here. }
  split; [exact small_tree_well_formed|]. split; [exact H|].
  split; [reflexivity|].
  exact (C8_rotations_keep_colors_and_order small_tree 0 _
           small_tree_well_formed H eq_refl).
Defined.

(** ** C9: the descent of insertion *)

Lemma data_col_val (h : list Node) i v k :
  data h i = Some (v, k) → col h i = k ∧ val h i = v.
Proof.
  unfold data, col, val. destruct (h !! i) as [n|]; simpl; [|done].
  by intros [= -> ->].
Qed.

(** C9: on a non-empty reachable tree, the descent of [insert] ends at an
    absent-child position where the new node is attached RED with the key;
    every ancestor of that position was left to its left only on a strictly
    smaller key and to its right otherwise; when the key is already in the
    tree, one of these ancestors holds the key and the new node is in its
    right subtree; and [insert] returns, with one more occurrence of the key
    in the tree. *)
Theorem C9_insert_routes_ties_right s v :
  reachable s → root s ≠ None →
  ∃ s1 c,
    Runs (λ fuel, attach fuel v) s (length (nodes s)) s1
    ∧ shape_of s = plug c Leaf
    ∧ shape_of s1 = plug c (Br Leaf (length (nodes s)) Leaf)
    ∧ Forall (routed v (nodes s)) c
    ∧ col (nodes s1) (length (nodes s)) = RED
    ∧ val (nodes s1) (length (nodes s)) = v
    ∧ (v ∈ keys s → ∃ l i, FR l i ∈ c ∧ val (nodes s) i = v)
    ∧ ∃ s', Runs (λ fuel, insert fuel v) s tt s' ∧ keys s' ≡ₚ v :: keys s.
Proof.
  intros HI%reachable_Inv Hroot. pose proof HI as (Hwf & Hrb & Hord).
  unfold well_formed in Hwf. unfold ordered, keys in Hord.
  assert (shape_of s ≠ Leaf) as Hne.
  { intros E. destruct Hwf as [Hr _ _]. by rewrite E in Hr. }
  destruct (attach_spec s _ v Hwf Hne) as (s1 & Hrun & HR1 & Hd1 & Hn1 & Hl1).
  exists s1, (descend_ctx v (nodes s) (shape_of s) []). split_and!.
  - done.
  - symmetry. apply (descend_plug v (nodes s) (shape_of s) []).
  - by apply shape_of_Rep.
  - apply descend_routed. constructor.
  - by apply data_col_val in Hn1 as [? ?].
  - by apply data_col_val in Hn1 as [? ?].
  - intros Hv. by apply descend_dup.
  - destruct (Inv_insert s v HI) as (s' & Hrun' & _ & Hk). eauto.
Qed.

Lemma C9_insert_routes_ties_right_witness :
  reachable small_tree ∧ root small_tree ≠ None
  ∧ ∃ s1 c,
      Runs (λ fuel, attach fuel 2) small_tree (length (nodes small_tree)) s1
      ∧ shape_of small_tree = plug c Leaf
      ∧ shape_of s1 = plug c (Br Leaf (length (nodes small_tree)) Leaf)
      ∧ Forall (routed 2 (nodes small_tree)) c
      ∧ col (nodes s1) (length (nodes small_tree)) = RED
      ∧ val (nodes s1) (length (nodes small_tree)) = 2
      ∧ (2 ∈ keys small_tree → ∃ l i, FR l i ∈ c ∧ val (nodes small_tree) i = 2)
      ∧ ∃ s', Runs (λ fuel, insert fuel 2) small_tree tt s'
          ∧ keys s' ≡ₚ 2 :: keys small_tree.
Proof.
  assert (root small_tree ≠ None) as H by done.
  split; [exact small_tree_reachable|]. split; [exact H|].
  exact (C9_insert_routes_ties_right small_tree 2 small_tree_reachable H).
Defined.

(** ** C10: parent links *)

Lemma Rep_parents_consistent s T : Rep s T → parents_consistent s.
Proof.
  intros HR. split.
  - intros r Hr. destruct HR as [Hroot Hrep _]. rewrite Hr in Hroot.
    destruct T as [|l r' r2]; [done|]. injection Hroot as ->.
    simpl in Hrep. destruct Hrep as (Hx & _). unfold links, parent_of in *.
    destruct (nodes s !! r'); simpl in *; congruence.
  - intros i n Hi Hn. rewrite (shape_of_Rep s T HR) in Hi.
    destruct (focus T i Hi) as (c & l & r & ->).
    apply Rep_plug in HR as (_ & Hrep & _ & _). simpl in Hrep.
    destruct Hrep as (Hx & Hl & Hr). unfold links in Hx. rewrite Hn in Hx.
    simpl in Hx. injection Hx as Hnl Hnr _. split; intros k Hk.
    + rewrite Hk in Hnl. destruct l as [|? k' ?]; [done|]. injection Hnl as ->.
      simpl in Hl. destruct Hl as (Hk' & _). unfold links, parent_of in *.
      destruct (nodes s !! k'); simpl in *; congruence.
    + rewrite Hk in Hnr. destruct r as [|? k' ?]; [done|]. injection Hnr as ->.
      simpl in Hr. destruct Hr as (Hk' & _). unfold links, parent_of in *.
      destruct (nodes s !! k'); simpl in *; congruence.
Qed.

Lemma reachable_parents_consistent s : reachable s → parents_consistent s.
Proof.
  intros (Hwf & _)%reachable_Inv. by eapply Rep_parents_consistent.
Qed.

(** C10: on every reachable tree the parent links agree with the child
    links: the root has no parent and every child of a node of the tree has
    that node as its parent.  Every insertion and deletion that returns
    leaves them in agreement, and so does a rotation at a node of the
    tree. *)
Theorem C10_parent_links_consistent s :
  reachable s →
  parents_consistent s
  ∧ (∀ fuel v s', insert fuel v s = Some (tt, s') → parents_consistent s')
  ∧ (∀ fuel v b s', delete fuel v s = Some (b, s') → parents_consistent s')
  ∧ (∀ x s', x ∈ ids (shape_of s) → rotateLeft x s = Some (tt, s') →
       parents_consistent s')
  ∧ (∀ x s', x ∈ ids (shape_of s) → rotateRight x s = Some (tt, s') →
       parents_consistent s').
Proof.
  intros Hs. pose proof (reachable_Inv s Hs) as (Hwf & _).
  unfold well_formed in Hwf. split_and!.
  - by apply reachable_parents_consistent.
  - intros fuel v s' Hrun. apply reachable_parents_consistent.
    by eapply reach_insert.
  - intros fuel v b s' Hrun. apply reachable_parents_consistent.
    by eapply reach_delete.
  - intros x s' Hx Hrot. destruct (focus _ x Hx) as (c & l & r & HT).
    rewrite HT in Hwf. destruct r as [|rl y rr].
    + exfalso. open_Rep Hwf. unfold rotateLeft, getN in Hrot.
      revert Hrot. by exec.
    + destruct (rotateLeft_spec s c l x rl y rr Hwf) as (s'' & Hrun & HR' & _).
      rewrite Hrun in Hrot. injection Hrot as <-.
      by eapply Rep_parents_consistent.
  - intros x s' Hx Hrot. destruct (focus _ x Hx) as (c & l & r & HT).
    rewrite HT in Hwf. destruct l as [|ll y lr].
    + exfalso. open_Rep Hwf. unfold rotateRight, getN in Hrot.
      revert Hrot. by exec.
    + destruct (rotateRight_spec s c ll y lr x r Hwf) as (s'' & Hrun & HR' & _).
      rewrite Hrun in Hrot. injection Hrot as <-.
      by eapply Rep_parents_consistent.
Qed.

Lemma C10_parent_links_consistent_witness :
  reachable small_tree
  ∧ parents_consistent small_tree
  ∧ (∀ fuel v s', insert fuel v small_tree = Some (tt, s') →
       parents_consistent s')
  ∧ (∀ fuel v b s', delete fuel v small_tree = Some (b, s') →
       parents_consistent s')
  ∧ (∀ x s', x ∈ ids (shape_of small_tree) →
       rotateLeft x small_tree = Some (tt, s') → parents_consistent s')
  ∧ (∀ x s', x ∈ ids (shape_of small_tree) →
       rotateRight x small_tree = Some (tt, s') → parents_consistent s').
Proof.
  split; [exact small_tree_reachable|].
  exact (C10_parent_links_consistent small_tree small_tree_reachable).
Defined.

End universal.

(** * Part IV: further properties of the operations *)

(** ** Sorted lists *)

Section extras_keys.
Implicit Types (s : RedBlackTree) (T : shape) (v : Z) (c : ctx).

Lemma sorted_insert_perm v l : sorted_insert v l ≡ₚ v :: l.
Proof.
  induction l as [|k l IH]; simpl; [done|].
  destruct (decide (v < k)); [done|]. by rewrite IH, perm_swap.
Qed.

Lemma sorted_insert_sorted v l :
  StronglySorted Z.le l → StronglySorted Z.le (sorted_insert v l).
Proof.
  induction 1 as [|k l Hs IH Hk]; simpl.
  - repeat constructor.
  - destruct (decide (v < k)).
    + constructor; [by constructor|]. constructor; [lia|].
      eapply Forall_impl; [exact Hk|]. simpl. lia.
    + constructor; [done|]. rewrite sorted_insert_perm.
      constructor; [lia|done].
Qed.

Lemma remove_one_perm v l : v ∈ l → l ≡ₚ v :: remove_one v l.
Proof.
  induction l as [|k l IH]; simpl; [by intros ?%elem_of_nil|].
  destruct (decide (k = v)) as [->|Hne]; [done|].
  intros [?|Hv]%elem_of_cons; [congruence|].
  by rewrite (IH Hv) at 1; rewrite perm_swap.
Qed.

Lemma remove_one_absent v l : v ∉ l → remove_one v l = l.
Proof.
  induction l as [|k l IH]; simpl; [done|]. intros Hv.
  destruct (decide (k = v)) as [->|Hne]; [set_solver|].
  f_equal. apply IH. set_solver.
Qed.

Lemma remove_one_sublist v l : remove_one v l `sublist_of` l.
Proof.
  induction l as [|k l IH]; simpl; [done|].
  destruct (decide (k = v)); [by apply sublist_cons|by apply sublist_skip].
Qed.

Lemma SS_sublist (l1 l2 : list Z) :
  l1 `sublist_of` l2 → StronglySorted Z.le l2 → StronglySorted Z.le l1.
Proof.
  induction 1 as [|x l1 l2 Hs IH|x l1 l2 Hs IH]; intros H2; [done|..].
  - apply StronglySorted_cons in H2 as [H H2]. apply StronglySorted_cons.
    split; [|by apply IH]. rewrite Forall_forall in H |- *.
    intros y Hy. apply H. by eapply elem_of_sublist.
  - apply StronglySorted_cons in H2 as [H H2]. by apply IH.
Qed.

Lemma SS_unique (l1 l2 : list Z) :
  StronglySorted Z.le l1 → StronglySorted Z.le l2 → l1 ≡ₚ l2 → l1 = l2.
Proof. apply (StronglySorted_unique Z.le). Qed.

End extras_keys.

(** ** The operations on the keys *)

Section extras_model.
Implicit Types (s : RedBlackTree) (T : shape) (v : Z) (c : ctx).

Lemma Inv_ordered s : Inv s → StronglySorted Z.le (keys s).
Proof. by intros (_ & _ & ?). Qed.

Lemma insert_keys s v :
  Inv s →
  ∃ s', Runs (λ fuel, insert fuel v) s tt s' ∧ Inv s'
    ∧ keys s' = sorted_insert v (keys s).
Proof.
  intros HI. destruct (Inv_insert s v HI) as (s' & Hrun & HI' & Hk).
  exists s'. split_and!; [done..|]. apply SS_unique.
  - by apply Inv_ordered.
  - by apply sorted_insert_sorted, Inv_ordered.
  - by rewrite Hk, sorted_insert_perm.
Qed.

Lemma delete_keys s v :
  Inv s →
  ∃ s', Runs (λ fuel, delete fuel v) s (bool_decide (v ∈ keys s)) s' ∧ Inv s'
    ∧ keys s' = remove_one v (keys s).
Proof.
  intros HI. destruct (Inv_delete s v HI) as (b & s' & Hrun & HI' & Hin & Hout).
  exists s'. destruct (decide (v ∈ keys s)) as [Hv|Hv].
  - destruct (Hin Hv) as [-> Hk]. rewrite bool_decide_eq_true_2 by done.
    split_and!; [done..|]. apply SS_unique.
    + by apply Inv_ordered.
    + eapply SS_sublist; [apply remove_one_sublist|by apply Inv_ordered].
    + apply (Permutation_cons_inv (a := v)).
      by rewrite <-Hk, <-remove_one_perm.
  - destruct (Hout Hv) as [-> ->]. rewrite bool_decide_eq_false_2 by done.
    split_and!; [done..|]. by rewrite remove_one_absent.
Qed.

Lemma run_model_Inv ops s :
  Inv s →
  ∃ s', Runs (λ fuel, run fuel ops) s (model_run ops (keys s)).1 s'
    ∧ Inv s' ∧ keys s' = (model_run ops (keys s)).2.
Proof.
  revert s. induction ops as [|o ops IH]; intros s HI.
  - exists s. split_and!; [apply Runs_run_nil|done..].
  - destruct o as [v|v]; cbn [model_run model_op fst snd].
    + destruct (insert_keys s v HI) as (s1 & Hrun & HI1 & Hk1).
      destruct (IH s1 HI1) as (s2 & Hrun2 & HI2 & Hk2).
      rewrite Hk1 in Hrun2, Hk2. exists s2. split_and!; [|done..].
      eapply (Runs_run_cons (Insert v)); [by apply Runs_run_insert|done].
    + destruct (delete_keys s v HI) as (s1 & Hrun & HI1 & Hk1).
      destruct (IH s1 HI1) as (s2 & Hrun2 & HI2 & Hk2).
      rewrite Hk1 in Hrun2, Hk2. exists s2. split_and!; [|done..].
      by eapply (Runs_run_cons (Delete v)).
Qed.

End extras_model.

(** ** Invariants of reachable trees, insertion and search *)

Section extras_invariants.
Implicit Types (s : RedBlackTree) (T : shape) (v : Z) (c : ctx).

Lemma small_tree_Inv : Inv small_tree.
Proof. apply reachable_Inv, small_tree_reachable. Qed.

(** X1: on every reachable tree the in-order key sequence is
    non-decreasing; at every node, the keys of the left subtree are at most
    the key of the node and those of the right subtree are at least it. *)
Theorem reachable_ordered s :
  reachable s →
  StronglySorted Z.le (keys s)
  ∧ ∀ c l x r, shape_of s = plug c (Br l x r) →
      (∀ i, i ∈ ids l → val (nodes s) i ≤ val (nodes s) x)
      ∧ (∀ j, j ∈ ids r → val (nodes s) x ≤ val (nodes s) j).
Proof.
  intros (_ & _ & Hord)%reachable_Inv. split; [done|].
  intros c l x r HT. unfold ordered, keys in Hord. rewrite HT in Hord.
  rewrite ids_plug_eq in Hord. simpl in Hord.
  rewrite !fmap_app, fmap_cons in Hord.
  apply StronglySorted_app in Hord as (_ & _ & Hord).
  apply StronglySorted_app in Hord as (_ & Hord & _).
  apply StronglySorted_app in Hord as (H1 & _ & Hord).
  apply StronglySorted_cons in Hord as (H2 & _). split.
  - intros i Hi. apply H1; [by apply list_elem_of_fmap_2|set_solver].
  - intros j Hj. rewrite Forall_forall in H2. apply H2.
    by apply list_elem_of_fmap_2.
Qed.

Lemma reachable_ordered_witness :
  reachable small_tree
  ∧ StronglySorted Z.le (keys small_tree)
  ∧ ∀ c l x r, shape_of small_tree = plug c (Br l x r) →
      (∀ i, i ∈ ids l → val (nodes small_tree) i ≤ val (nodes small_tree) x)
      ∧ (∀ j, j ∈ ids r → val (nodes small_tree) x ≤ val (nodes small_tree) j).
Proof.
  split; [exact small_tree_reachable|].
  exact (reachable_ordered small_tree small_tree_reachable).
Defined.

(** X2: on every reachable tree the root, if present, is BLACK, whatever
    deletions have been made. *)
Theorem reachable_root_black s :
  reachable s → root_black (nodes s) (shape_of s).
Proof.
  intros (Hwf & Hrb & _)%reachable_Inv. unfold root_black.
  destruct Hwf as [Hroot _ _]. by rewrite <-Hroot.
Qed.

Lemma reachable_root_black_witness :
  reachable small_tree ∧ root_black (nodes small_tree) (shape_of small_tree).
Proof.
  split; [exact small_tree_reachable|].
  exact (reachable_root_black small_tree small_tree_reachable).
Defined.

(** X3: [insert] puts the new node, the next reference of the store, after
    every node whose key is at most the new key and before every node whose
    key is greater; the other nodes keep their order and their keys. *)
Theorem insert_position s v :
  reachable s →
  ∃ s' k1 k2,
    Runs (λ fuel, insert fuel v) s tt s'
    ∧ ids (shape_of s) = k1 ++ k2
    ∧ ids (shape_of s') = k1 ++ length (nodes s) :: k2
    ∧ Forall (λ i, val (nodes s) i ≤ v) k1
    ∧ Forall (λ i, v < val (nodes s) i) k2
    ∧ val (nodes s') (length (nodes s)) = v
    ∧ ∀ i, i ∈ ids (shape_of s) → val (nodes s') i = val (nodes s) i.
Proof.
  intros (Hwf & Hrb & Hord)%reachable_Inv. unfold ordered, keys in Hord.
  unfold well_formed in Hwf. set (T := shape_of s) in *.
  destruct (insert_spec s T v Hwf Hrb)
    as (s' & T' & c & Hrun & HR' & Hc & Hids & Hval & Hvn & Hlen & Hrb').
  pose proof (descend_plug v (nodes s) T []) as Hplug. simpl in Hplug.
  rewrite <-Hc in Hplug.
  assert (ids T = cbefore c ++ cafter c) as HidsT.
  { by rewrite <-Hplug, ids_plug_eq. }
  assert (Forall (routed v (nodes s)) c) as Hrt.
  { rewrite Hc. apply descend_routed. constructor. }
  rewrite HidsT in Hord.
  destruct (routed_bounds v (nodes s) c Hrt Hord) as [Hb1 Hb2].
  exists s', (cbefore c), (cafter c). rewrite (shape_of_Rep s' T' HR').
  split_and!; [done..| | |done|].
  - by apply Forall_forall.
  - by apply Forall_forall.
  - intros i Hi. apply Hval, Nat.lt_neq. by eapply Rep_ids_lt.
Qed.

Lemma insert_position_witness :
  reachable small_tree
  ∧ ∃ s' k1 k2,
      Runs (λ fuel, insert fuel 2) small_tree tt s'
      ∧ ids (shape_of small_tree) = k1 ++ k2
      ∧ ids (shape_of s') = k1 ++ length (nodes small_tree) :: k2
      ∧ Forall (λ i, val (nodes small_tree) i ≤ 2) k1
      ∧ Forall (λ i, 2 < val (nodes small_tree) i) k2
      ∧ val (nodes s') (length (nodes small_tree)) = 2
      ∧ ∀ i, i ∈ ids (shape_of small_tree) →
          val (nodes s') i = val (nodes small_tree) i.
Proof.
  split; [exact small_tree_reachable|].
  exact (insert_position small_tree 2 small_tree_reachable).
Defined.

(** X4: whatever the sequence of operations, the tree behaves as a sorted
    list with repetitions: from a reachable tree the operations return what
    they return on the list of its keys ([insert] inserts after the keys
    that are not greater, [delete] answers whether the key occurs and
    removes one occurrence), and the in-order keys at the end are the list
    at the end. *)
Theorem run_refines_model ops s :
  reachable s →
  ∃ s', Runs (λ fuel, run fuel ops) s (model_run ops (keys s)).1 s'
    ∧ keys s' = (model_run ops (keys s)).2.
Proof.
  intros HI%reachable_Inv.
  destruct (run_model_Inv ops s HI) as (s' & Hrun & _ & Hk). eauto.
Qed.

Lemma run_refines_model_witness :
  reachable small_tree
  ∧ ∃ s', Runs (λ fuel, run fuel [Delete 2; Delete 2; Insert 5]) small_tree
            (model_run [Delete 2; Delete 2; Insert 5] (keys small_tree)).1 s'
      ∧ keys s' = (model_run [Delete 2; Delete 2; Insert 5] (keys small_tree)).2.
Proof.
  split; [exact small_tree_reachable|].
  exact (run_refines_model [Delete 2; Delete 2; Insert 5] small_tree
           small_tree_reachable).
Defined.

(** X5: on a reachable tree [findNode] finds a node holding the key exactly
    when the key is in the tree, and never changes the tree. *)
Theorem findNode_correct s v :
  reachable s →
  (v ∈ keys s →
     ∃ x, Runs (λ fuel, findNode fuel v) s (Some x) s
       ∧ x ∈ ids (shape_of s) ∧ val (nodes s) x = v)
  ∧ (v ∉ keys s → Runs (λ fuel, findNode fuel v) s None s).
Proof.
  intros (Hwf & _ & Hord)%reachable_Inv. unfold ordered, keys in *.
  pose proof (findNode_spec s _ v Hwf) as Hrun. split.
  - intros Hv. destruct (find_shape_sorted v _ _ Hord Hv) as [x Hx].
    rewrite Hx in Hrun. exists x. split; [done|]. by apply find_shape_Some.
  - intros Hv. destruct (find_shape v (nodes s) (shape_of s)) as [x|] eqn:Hx;
      [|done].
    exfalso. apply find_shape_Some in Hx as [Hx <-]. apply Hv.
    by apply list_elem_of_fmap_2.
Qed.

Lemma findNode_correct_witness :
  reachable small_tree
  ∧ (3 ∈ keys small_tree →
       ∃ x, Runs (λ fuel, findNode fuel 3) small_tree (Some x) small_tree
         ∧ x ∈ ids (shape_of small_tree) ∧ val (nodes small_tree) x = 3)
  ∧ (3 ∉ keys small_tree → Runs (λ fuel, findNode fuel 3) small_tree None small_tree).
Proof.
  split; [exact small_tree_reachable|].
  exact (findNode_correct small_tree 3 small_tree_reachable).
Defined.

End extras_invariants.

(** ** Round trips *)

Section extras_roundtrips.
Implicit Types (s : RedBlackTree) (T : shape) (v : Z) (c : ctx).

Lemma Inv_findNode_in s v :
  Inv s → v ∈ keys s →
  ∃ x, Runs (λ fuel, findNode fuel v) s (Some x) s
    ∧ x ∈ ids (shape_of s) ∧ val (nodes s) x = v.
Proof.
  intros (Hwf & _ & Hord) Hv. unfold ordered, keys in *.
  pose proof (findNode_spec s _ v Hwf) as Hrun.
  destruct (find_shape_sorted v _ _ Hord Hv) as [x Hx].
  rewrite Hx in Hrun. exists x. split; [done|]. by apply find_shape_Some.
Qed.

Lemma Inv_findNode_out s v :
  Inv s → v ∉ keys s → Runs (λ fuel, findNode fuel v) s None s.
Proof.
  intros (Hwf & _ & Hord) Hv. unfold ordered, keys in *.
  pose proof (findNode_spec s _ v Hwf) as Hrun.
  destruct (find_shape v (nodes s) (shape_of s)) as [x|] eqn:Hx; [|done].
  exfalso. apply find_shape_Some in Hx as [Hx <-]. apply Hv.
  by apply list_elem_of_fmap_2.
Qed.

(** X6: a key that has just been inserted is found. *)
Theorem insert_then_find s v :
  reachable s →
  ∃ s' x,
    Runs (λ fuel, insert fuel v) s tt s'
    ∧ Runs (λ fuel, findNode fuel v) s' (Some x) s'
    ∧ x ∈ ids (shape_of s') ∧ val (nodes s') x = v.
Proof.
  intros HI%reachable_Inv.
  destruct (Inv_insert s v HI) as (s' & Hrun & HI' & Hk).
  destruct (Inv_findNode_in s' v HI') as (x & Hf & Hx & Hv).
  { rewrite Hk. set_solver. }
  by exists s', x.
Qed.

Lemma insert_then_find_witness :
  reachable small_tree
  ∧ ∃ s' x,
      Runs (λ fuel, insert fuel 5) small_tree tt s'
      ∧ Runs (λ fuel, findNode fuel 5) s' (Some x) s'
      ∧ x ∈ ids (shape_of s') ∧ val (nodes s') x = 5.
Proof.
  split; [exact small_tree_reachable|].
  exact (insert_then_find small_tree 5 small_tree_reachable).
Defined.

(** X7: in a tree without repeated keys, a key that has just been deleted
    is no longer found; the other keys are all still found. *)
Theorem delete_then_find s v :
  reachable s → NoDup (keys s) → v ∈ keys s →
  ∃ s',
    Runs (λ fuel, delete fuel v) s true s'
    ∧ Runs (λ fuel, findNode fuel v) s' None s'
    ∧ ∀ w, w ∈ keys s → w ≠ v →
        ∃ x, Runs (λ fuel, findNode fuel w) s' (Some x) s'
          ∧ val (nodes s') x = w.
Proof.
  intros HI%reachable_Inv Hnd Hv.
  destruct (Inv_delete s v HI) as (b & s' & Hrun & HI' & Hin & _).
  destruct (Hin Hv) as [-> Hk]. rewrite Hk in Hnd.
  apply NoDup_cons in Hnd as [Hv' _].
  exists s'. split_and!; [done|by apply Inv_findNode_out|].
  intros w Hw Hne.
  destruct (Inv_findNode_in s' w HI') as (x & Hf & _ & Hx); [|by eauto].
  rewrite Hk in Hw. set_solver.
Qed.

Lemma delete_then_find_witness :
  reachable small_tree ∧ NoDup (keys small_tree) ∧ (1 ∈ keys small_tree)
  ∧ ∃ s',
      Runs (λ fuel, delete fuel 1) small_tree true s'
      ∧ Runs (λ fuel, findNode fuel 1) s' None s'
      ∧ ∀ w, w ∈ keys small_tree → w ≠ 1 →
          ∃ x, Runs (λ fuel, findNode fuel w) s' (Some x) s'
            ∧ val (nodes s') x = w.
Proof.
  assert (NoDup (keys small_tree)) as H1.
  { apply (bool_decide_unpack _). by vm_compute. }
  assert (1 ∈ keys small_tree) as H2.
  { vm_compute. apply list_elem_of_here. }
  split; [exact small_tree_reachable|]. split; [exact H1|]. split; [exact H2|].
  exact (delete_then_find small_tree 1 small_tree_reachable H1 H2).
Defined.

(** X8: inserting a key and deleting it again gives back the in-order key
    sequence (the shape and the colours may differ). *)
Theorem insert_then_delete s v :
  reachable s →
  ∃ s1 s2,
    Runs (λ fuel, insert fuel v) s tt s1
    ∧ Runs (λ fuel, delete fuel v) s1 true s2
    ∧ keys s2 = keys s.
Proof.
  intros HI%reachable_Inv.
  destruct (Inv_insert s v HI) as (s1 & Hrun1 & HI1 & Hk1).
  destruct (Inv_delete s1 v HI1) as (b & s2 & Hrun2 & HI2 & Hin & _).
  destruct Hin as [-> Hk2]; [rewrite Hk1; set_solver|].
  exists s1, s2. split_and!; [done..|]. apply SS_unique.
  - by apply Inv_ordered.
  - by apply Inv_ordered.
  - apply (Permutation_cons_inv (a := v)). by rewrite <-Hk2, Hk1.
Qed.

Lemma insert_then_delete_witness :
  reachable small_tree
  ∧ ∃ s1 s2,
      Runs (λ fuel, insert fuel 2) small_tree tt s1
      ∧ Runs (λ fuel, delete fuel 2) s1 true s2
      ∧ keys s2 = keys small_tree.
Proof.
  split; [exact small_tree_reachable|].
  exact (insert_then_delete small_tree 2 small_tree_reachable).
Defined.

(** X9: on a reachable tree, [findMin] started at a node of the tree
    returns the first node of its subtree in in-order: a node without left
    child whose key is the least of the subtree; the tree is not changed. *)
Theorem findMin_minimum s c l x r :
  reachable s → shape_of s = plug c (Br l x r) →
  ∃ m n rest,
    Runs (λ fuel, findMin fuel x) s m s
    ∧ ids (Br l x r) = m :: rest
    ∧ nodes s !! m = Some n ∧ left n = None
    ∧ ∀ j, j ∈ ids (Br l x r) → val (nodes s) m ≤ val (nodes s) j.
Proof.
  intros (Hwf & _ & Hord)%reachable_Inv HT.
  unfold well_formed, ordered, keys in *. rewrite HT in Hwf, Hord.
  pose proof Hwf as (_ & Hrep & _ & _)%Rep_plug.
  pose proof (findMin_spec s (ctop c) l x r c Hrep) as Hrun.
  destruct (leftmost_spec l x r c) as (cm & Hcm & Hbef & Hplug).
  destruct (leftmost l x r c) as [[c' m] rm]. cbn [fst snd] in *. subst c'.
  assert (ids (Br l x r) ++ cafter c = m :: ids rm ++ cafter (cm ++ c)) as Hids.
  { apply (app_inv_head (cbefore c)).
    rewrite <-(ids_plug_eq c (Br l x r)), <-Hplug, ids_plug_eq, Hbef. done. }
  assert (∃ rest, ids (Br l x r) = m :: rest) as [rest Hrest].
  { simpl in Hids |- *. destruct (ids l) as [|a k]; simpl in *.
    - injection Hids as -> _. eauto.
    - injection Hids as -> _. eauto. }
  rewrite <-Hplug in Hwf. apply Rep_plug in Hwf as (_ & Hm & _ & _).
  simpl in Hm. destruct Hm as (Hm & _). unfold links in Hm.
  destruct (nodes s !! m) as [n|] eqn:Hn; [|done]. simpl in Hm.
  injection Hm as Hl _ _.
  exists m, n, rest. split_and!; [done..|].
  rewrite ids_plug_eq, Hrest in Hord. rewrite Hrest.
  rewrite !fmap_app, fmap_cons in Hord.
  apply StronglySorted_app in Hord as (_ & _ & Hord).
  apply StronglySorted_app in Hord as (_ & Hord & _).
  apply StronglySorted_cons in Hord as (Hord & _).
  intros j [->|Hj]%elem_of_cons; [done|].
  rewrite Forall_forall in Hord. apply Hord. by apply list_elem_of_fmap_2.
Qed.

Lemma findMin_minimum_witness :
  reachable small_tree
  ∧ shape_of small_tree
      = plug [] (Br (Br Leaf 1%nat Leaf) 0%nat (Br Leaf 2%nat Leaf))
  ∧ ∃ m n rest,
      Runs (λ fuel, findMin fuel 0%nat) small_tree m small_tree
      ∧ ids (Br (Br Leaf 1%nat Leaf) 0%nat (Br Leaf 2%nat Leaf)) = m :: rest
      ∧ nodes small_tree !! m = Some n ∧ left n = None
      ∧ ∀ j, j ∈ ids (Br (Br Leaf 1%nat Leaf) 0%nat (Br Leaf 2%nat Leaf)) →
          val (nodes small_tree) m ≤ val (nodes small_tree) j.
Proof.
  split; [exact small_tree_reachable|]. split; [reflexivity|].
  exact (findMin_minimum small_tree [] _ _ _ small_tree_reachable eq_refl).
Defined.

(** X10: the repair after a deletion only rotates and recolours: started at
    any node of any well-formed tree, [fixDelete] returns and leaves a
    well-formed tree with the same nodes in the same in-order sequence, the
    same keys, and a BLACK root. *)
Theorem fixDelete_keeps_sequence s node d :
  well_formed s → node ∈ ids (shape_of s) →
  ∃ s',
    Runs (λ fuel, fixDelete fuel node d) s tt s'
    ∧ well_formed s'
    ∧ ids (shape_of s') = ids (shape_of s)
    ∧ keys s' = keys s
    ∧ root_black (nodes s') (shape_of s').
Proof.
  intros Hwf Hnode.
  destruct (fixDelete_spec s _ node d Hwf Hnode)
    as (s' & T' & Hrun & HR' & Hids & Hval & _ & Hrb).
  exists s'. unfold keys, root_black. rewrite (shape_of_Rep s' T' HR'), Hids.
  split_and!; [done|by eapply well_formed_Rep|done| |].
  - apply fmap_val_ext. auto.
  - destruct HR' as [Hroot _ _]. by rewrite <-Hroot.
Qed.

Lemma fixDelete_keeps_sequence_witness :
  well_formed small_tree ∧ (1%nat ∈ ids (shape_of small_tree))
  ∧ ∃ s',
      Runs (λ fuel, fixDelete fuel 1%nat None) small_tree tt s'
      ∧ well_formed s'
      ∧ ids (shape_of s') = ids (shape_of small_tree)
      ∧ keys s' = keys small_tree
      ∧ root_black (nodes s') (shape_of s').
Proof.
  assert (1%nat ∈ ids (shape_of small_tree)) as H.
  { vm_compute. apply list_elem_of_here. }
  split; [exact small_tree_well_formed|]. split; [exact H|].
  exact (fixDelete_keeps_sequence small_tree 1%nat None
           small_tree_well_formed H).
Defined.

End extras_roundtrips.

(** ** Rotations, splicing and the repair loops *)

Section extras_local.
Implicit Types (s : RedBlackTree) (T : shape) (v : Z) (c : ctx).

Lemma rep_links_eq h h' p t i :
  rep h p t → rep h' p t → i ∈ ids t → links h' i = links h i.
Proof.
  revert p. induction t as [|l IHl j r IHr]; intros p; simpl; [set_solver|].
  intros (H1 & H2 & H3) (H1' & H2' & H3').
  rewrite elem_of_app, elem_of_cons. intros [H|[->|H]]; [eauto|congruence|eauto].
Qed.

Lemma node_ext (h h' : list Node) i :
  links h' i = links h i → data h' i = data h i → h' !! i = h !! i.
Proof.
  unfold links, data. destruct (h' !! i) as [[]|], (h !! i) as [[]|]; simpl;
    congruence.
Qed.

Lemma Rep_same_nodes s s' T i :
  Rep s T → Rep s' T → (∀ j, data (nodes s') j = data (nodes s) j) →
  i ∈ ids T → nodes s' !! i = nodes s !! i.
Proof.
  intros [_ H _] [_ H' _] Hd Hi. apply node_ext; [|done].
  by eapply rep_links_eq.
Qed.

(** X11: a rotation is undone by the opposite rotation at the node that it
    promoted: the root, the shape and every node of the tree, with its key,
    colour and links, are as before. *)
Theorem rotate_round_trip s x n :
  well_formed s → x ∈ ids (shape_of s) → nodes s !! x = Some n →
  (∀ y, right n = Some y →
     ∃ s1 s2, rotateLeft x s = Some (tt, s1)
       ∧ rotateRight y s1 = Some (tt, s2)
       ∧ root s2 = root s ∧ shape_of s2 = shape_of s
       ∧ ∀ i, i ∈ ids (shape_of s) → nodes s2 !! i = nodes s !! i)
  ∧ (∀ y, left n = Some y →
     ∃ s1 s2, rotateRight x s = Some (tt, s1)
       ∧ rotateLeft y s1 = Some (tt, s2)
       ∧ root s2 = root s ∧ shape_of s2 = shape_of s
       ∧ ∀ i, i ∈ ids (shape_of s) → nodes s2 !! i = nodes s !! i).
Proof.
  intros Hwf Hx Hn. unfold well_formed in Hwf.
  destruct (focus _ x Hx) as (c & l & r & HT).
  rewrite HT in Hwf |- *. clear HT. split.
  - intros y Hy.
    destruct (focus_child_r s c l x r n y Hwf Hn Hy) as (rl & rr & ->).
    destruct (rotateLeft_spec s c l x rl y rr Hwf) as (s1 & Hr1 & HR1 & Hd1 & _).
    destruct (rotateRight_spec s1 c l x rl y rr HR1) as (s2 & Hr2 & HR2 & Hd2 & _).
    exists s1, s2. split_and!; [done..| | |].
    + destruct HR2 as [-> _ _]. by destruct Hwf as [-> _ _].
    + by apply shape_of_Rep.
    + intros i Hi. eapply Rep_same_nodes; [done..| |done].
      intros j. by rewrite Hd2, Hd1.
  - intros y Hy.
    destruct (focus_child_l s c l x r n y Hwf Hn Hy) as (ll & lr & ->).
    destruct (rotateRight_spec s c ll y lr x r Hwf) as (s1 & Hr1 & HR1 & Hd1 & _).
    destruct (rotateLeft_spec s1 c ll y lr x r HR1) as (s2 & Hr2 & HR2 & Hd2 & _).
    exists s1, s2. split_and!; [done..| | |].
    + destruct HR2 as [-> _ _]. by destruct Hwf as [-> _ _].
    + by apply shape_of_Rep.
    + intros i Hi. eapply Rep_same_nodes; [done..| |done].
      intros j. by rewrite Hd2, Hd1.
Qed.

Lemma rotate_round_trip_witness :
  well_formed small_tree ∧ (0%nat ∈ ids (shape_of small_tree))
  ∧ small_tree.(nodes) !! 0%nat
      = Some (mkNode 2 BLACK (Some 1%nat) (Some 2%nat) None)
  ∧ (∀ y, Some 2%nat = Some y →
       ∃ s1 s2, rotateLeft 0 small_tree = Some (tt, s1)
         ∧ rotateRight y s1 = Some (tt, s2)
         ∧ root s2 = root small_tree ∧ shape_of s2 = shape_of small_tree
         ∧ ∀ i, i ∈ ids (shape_of small_tree) →
             nodes s2 !! i = nodes small_tree !! i)
  ∧ (∀ y, Some 1%nat = Some y →
       ∃ s1 s2, rotateRight 0 small_tree = Some (tt, s1)
         ∧ rotateLeft y s1 = Some (tt, s2)
         ∧ root s2 = root small_tree ∧ shape_of s2 = shape_of small_tree
         ∧ ∀ i, i ∈ ids (shape_of small_tree) →
             nodes s2 !! i = nodes small_tree !! i).
Proof.
  assert (0%nat ∈ ids (shape_of small_tree)) as H.
  { vm_compute. apply list_elem_of_further, list_elem_of_here. }
  split; [exact small_tree_well_formed|]. split; [exact H|].
  split; [reflexivity|].
  exact (rotate_round_trip small_tree 0 _ small_tree_well_formed H eq_refl).
Defined.

(** X12: [deleteNode] on a node of a well-formed tree that lacks a child
    returns the other child (or nothing) and leaves a well-formed tree from
    which exactly this node is gone: the other nodes keep their in-order
    sequence, keys and colours, and the parent links stay consistent. *)
Theorem deleteNode_splices s x n :
  well_formed s → x ∈ ids (shape_of s) → nodes s !! x = Some n →
  left n = None ∨ right n = None →
  ∃ s' k1 k2,
    deleteNode x s
      = Some (match left n with Some _ => left n | None => right n end, s')
    ∧ well_formed s'
    ∧ ids (shape_of s) = k1 ++ x :: k2
    ∧ ids (shape_of s') = k1 ++ k2
    ∧ (∀ i, col (nodes s') i = col (nodes s) i)
    ∧ (∀ i, val (nodes s') i = val (nodes s) i)
    ∧ parents_consistent s'.
Proof.
  intros Hwf Hx Hn Hlr. unfold well_formed in Hwf.
  destruct (focus _ x Hx) as (c & l & r & HT).
  rewrite HT in Hwf |- *. clear HT.
  pose proof Hwf as (_ & Hrep & _ & _)%Rep_plug. simpl in Hrep.
  destruct Hrep as (Hlk & _). unfold links in Hlk. rewrite Hn in Hlk.
  simpl in Hlk. injection Hlk as Hl Hr _.
  assert (l = Leaf ∨ r = Leaf) as Hlr'.
  { destruct Hlr as [H|H]; [left|right]; rewrite H in *.
    - by destruct l. 
    - by destruct r. }
  destruct (deleteNode_spec s c l x r Hwf Hlr') as (s' & Hrun & HR' & Hd & _).
  set (ch := match l with Leaf => r | _ => l end) in *.
  assert (match left n with Some _ => left n | None => right n end = top ch)
    as ->.
  { rewrite Hl, Hr. subst ch. by destruct l. }
  exists s', (cbefore c ++ ids l), (ids r ++ cafter c).
  rewrite (shape_of_Rep s' _ HR'), !ids_plug_eq.
  split_and!; [done|by eapply well_formed_Rep| | | | |].
  - simpl. by rewrite <-!app_assoc.
  - subst ch. rewrite <-!app_assoc.
    destruct Hlr' as [-> | ->]; [done|]. destruct l; simpl; [done|].
    by rewrite ?app_nil_r, <-?app_assoc.
  - intros i. apply col_data, Hd.
  - intros i. apply val_data, Hd.
  - by eapply Rep_parents_consistent.
Qed.

Lemma deleteNode_splices_witness :
  well_formed small_tree ∧ (1%nat ∈ ids (shape_of small_tree))
  ∧ small_tree.(nodes) !! 1%nat = Some (mkNode 1 RED None None (Some 0%nat))
  ∧ (@None ref = None ∨ @None ref = None)
  ∧ ∃ s' k1 k2,
      deleteNode 1 small_tree = Some (None, s')
      ∧ well_formed s'
      ∧ ids (shape_of small_tree) = k1 ++ 1%nat :: k2
      ∧ ids (shape_of s') = k1 ++ k2
      ∧ (∀ i, col (nodes s') i = col (nodes small_tree) i)
      ∧ (∀ i, val (nodes s') i = val (nodes small_tree) i)
      ∧ parents_consistent s'.
Proof.
  assert (1%nat ∈ ids (shape_of small_tree)) as H.
  { vm_compute. apply list_elem_of_here. }
  split; [exact small_tree_well_formed|]. split; [exact H|].
  split; [reflexivity|]. split; [by left|].
  exact (deleteNode_splices small_tree 1 _ small_tree_well_formed H eq_refl
           (or_introl eq_refl)).
Defined.

(** X13: the repair after an insertion only rotates and recolours: started
    at a node of a well-formed tree whose root is BLACK, or at the root,
    [fixInsert] returns and leaves a well-formed tree with the same nodes in
    the same in-order sequence, the same keys, and a BLACK root. *)
Theorem fixInsert_keeps_sequence s x :
  well_formed s → x ∈ ids (shape_of s) →
  root_black (nodes s) (shape_of s) ∨ root s = Some x →
  ∃ s',
    Runs (λ fuel, fixInsert fuel x) s tt s'
    ∧ well_formed s'
    ∧ ids (shape_of s') = ids (shape_of s)
    ∧ keys s' = keys s
    ∧ root_black (nodes s') (shape_of s').
Proof.
  intros Hwf Hx Hrb. unfold well_formed in Hwf.
  destruct (focus _ x Hx) as (c & l & r & HT).
  unfold keys, root_black in *. rewrite HT in Hwf, Hrb |- *. clear HT.
  destruct (fixInsert_spec s c l x r Hwf)
    as (s' & T' & Hrun & HR' & Hids & Hval & _ & Hrb').
  { destruct Hrb as [Hrb|Hrb].
    - left. destruct Hwf as [-> _ _]. done.
    - destruct c as [|f c]; [by right|]. exfalso.
      pose proof Hwf as [Hroot _ Hnd]. rewrite Hrb, top_plug in Hroot.
      rewrite ids_plug in Hnd. apply NoDup_app in Hnd as (_ & Hnd & _).
      apply (Hnd x); [simpl; set_solver|].
      destruct (croot_elem (f :: c) (Some x)) as (i & Hi & Hin); [done|].
      simpl in Hroot, Hi. by assert (i = x) as -> by congruence. }
  exists s'. rewrite (shape_of_Rep s' T' HR'), Hids.
  split_and!; [done|by eapply well_formed_Rep|done| |].
  - apply fmap_val_ext. auto.
  - destruct HR' as [Hroot _ _]. by rewrite <-Hroot.
Qed.

Lemma fixInsert_keeps_sequence_witness :
  well_formed small_tree ∧ (1%nat ∈ ids (shape_of small_tree))
  ∧ (root_black (nodes small_tree) (shape_of small_tree)
     ∨ root small_tree = Some 1%nat)
  ∧ ∃ s',
      Runs (λ fuel, fixInsert fuel 1%nat) small_tree tt s'
      ∧ well_formed s'
      ∧ ids (shape_of s') = ids (shape_of small_tree)
      ∧ keys s' = keys small_tree
      ∧ root_black (nodes s') (shape_of s').
Proof.
  assert (1%nat ∈ ids (shape_of small_tree)) as H.
  { vm_compute. apply list_elem_of_here. }
  assert (root_black (nodes small_tree) (shape_of small_tree)
          ∨ root small_tree = Some 1%nat) as H2 by (by left).
  split; [exact small_tree_well_formed|]. split; [exact H|]. split; [exact H2|].
  exact (fixInsert_keeps_sequence small_tree 1%nat small_tree_well_formed H H2).
Defined.

End extras_local.

Section extras_edges.
Implicit Types (s : RedBlackTree) (T : shape) (v : Z) (c : ctx).



(** X18: the links of a reachable tree never form a cycle and never share
    a node: the child links from the root spell out a finite tree in which
    no node occurs twice, every node of which is in the store, and whose
    size is the number of keys. *)
Theorem reachable_well_formed s :
  reachable s →
  well_formed s
  ∧ NoDup (ids (shape_of s))
  ∧ (∀ i, i ∈ ids (shape_of s) → is_Some (nodes s !! i))
  ∧ size (shape_of s) = length (keys s).
Proof.
  intros (Hwf & _)%reachable_Inv. split; [done|]. split; [|split].
  - by destruct Hwf.
  - intros i Hi. apply lookup_lt_is_Some. by eapply Rep_ids_lt.
  - unfold keys. by rewrite length_fmap, size_ids.
Qed.

Lemma reachable_well_formed_witness :
  reachable small_tree
  ∧ well_formed small_tree
  ∧ NoDup (ids (shape_of small_tree))
  ∧ (∀ i, i ∈ ids (shape_of small_tree) → is_Some (nodes small_tree !! i))
  ∧ size (shape_of small_tree) = length (keys small_tree).
Proof.
  split; [exact small_tree_reachable|].
  exact (reachable_well_formed small_tree small_tree_reachable).
Defined.

End extras_edges.

(** ** The red-black rules through an iteration of [fixInsert] *)

Section rb_pure.
Implicit Types (h : list Node) (t l r T : shape) (c : ctx) (k : coloring).

Lemma col_of_top_ext h h' t :
  (∀ i, i ∈ ids t → col h' i = col h i) →
  col_of h' (top t) = col_of h (top t).
Proof. destruct t as [|l i r]; simpl; [done|]. intros H. apply H. set_solver. Qed.

Lemma col_of_ctop_ext h h' c :
  (∀ i, i ∈ cids c → col h' i = col h i) →
  col_of h' (ctop c) = col_of h (ctop c).
Proof.
  destruct c as [|f c]; simpl; [done|]. intros H. apply H.
  destruct f; set_solver.
Qed.

Lemma no_red_red_ext h h' t :
  (∀ i, i ∈ ids t → col h' i = col h i) →
  no_red_red h t → no_red_red h' t.
Proof.
  induction t as [|l IHl i r IHr]; simpl; [done|]. intros H (H1 & H2 & H3).
  assert (∀ j, j ∈ ids l → col h' j = col h j) as Hl by (intros; apply H; set_solver).
  assert (∀ j, j ∈ ids r → col h' j = col h j) as Hr by (intros; apply H; set_solver).
  rewrite (col_of_top_ext h h' l), (col_of_top_ext h h' r) by done.
  rewrite (H i) by set_solver.
  split_and!; [done|by apply IHl|by apply IHr].
Qed.

Lemma black_height_ext h h' t :
  (∀ i, i ∈ ids t → col h' i = col h i) →
  black_height h' t = black_height h t.
Proof.
  induction t as [|l IHl i r IHr]; simpl; [done|]. intros H.
  rewrite IHl, IHr by (intros; apply H; set_solver).
  by rewrite (H i) by set_solver.
Qed.

Lemma ctx_rb_ext h h' c n :
  (∀ i, i ∈ cids c → col h' i = col h i) →
  ctx_rb h c n → ctx_rb h' c n.
Proof.
  revert n. induction c as [|f c IH]; intros n H; simpl; [done|].
  intros (H1 & H2 & H3 & H4).
  assert (∀ i, i ∈ ids (fsib f) → col h' i = col h i) as Hs.
  { intros i Hi. apply H. destruct f; set_solver. }
  assert (col h' (fid f) = col h (fid f)) as Hf.
  { apply H. destruct f; set_solver. }
  assert (∀ i, i ∈ cids c → col h' i = col h i) as Hc.
  { intros i Hi. apply H. set_solver. }
  rewrite Hf, (col_of_top_ext h h' (fsib f)), (col_of_ctop_ext h h' c),
    (black_height_ext h h' (fsib f)) by done.
  split_and!; [by eapply no_red_red_ext|done|done|by apply IH].
Qed.

Lemma top_fill f t : top (fill f t) = Some (fid f).
Proof. by destruct f. Qed.

(** The rules hold in a tree when they hold in a subtree and around it. *)
Lemma plug_rb h c t n :
  no_red_red h t → black_height h t = Some n → ctx_rb h c n →
  (col_of h (ctop c) = RED → col_of h (top t) = BLACK) →
  no_red_red h (plug c t) ∧ is_Some (black_height h (plug c t)).
Proof.
  revert t n. induction c as [|f c IH]; intros t n Ht Hn Hc Hred; simpl.
  - split; [done|]. by eexists.
  - simpl in Hc. destruct Hc as (H1 & H2 & H3 & H4).
    apply (IH _ (if decide (col h (fid f) = BLACK) then Datatypes.S n else n)).
    + destruct f as [i r|l i]; simpl in *; split_and!; try done;
        intros Hi; destruct (H3 Hi); split; auto.
    + destruct f as [i r|l i]; simpl in *; rewrite Hn, H2;
        by rewrite decide_True.
    + done.
    + rewrite top_fill. simpl. intros Hp.
      destruct (col h (fid f)) eqn:E; [|done]. destruct H3 as [_ H3]; [done|].
      congruence.
Qed.

(** Conversely, the rules in a tree give the rules in each subtree and
    around it. *)
Lemma rb_plug h c t :
  no_red_red h (plug c t) → is_Some (black_height h (plug c t)) →
  no_red_red h t
  ∧ (∃ n, black_height h t = Some n ∧ ctx_rb h c n)
  ∧ (col_of h (ctop c) = RED → col_of h (top t) = BLACK).
Proof.
  revert t. induction c as [|f c IH]; intros t; simpl.
  - intros Ht [n Hn]. split_and!; [done|by exists n|done].
  - intros H1 H2. destruct (IH _ H1 H2) as (Hf & (m & Hm & Hc) & Hred).
    rewrite top_fill in Hred. simpl in Hred.
    destruct f as [i r|l i]; simpl in *.
    + destruct Hf as (Hi & Hl & Hr).
      destruct (black_height h t) as [a|] eqn:Ha; [|done].
      destruct (black_height h r) as [b|] eqn:Hb; [|done].
      destruct (decide (a = b)) as [->|]; [|done]. injection Hm as <-.
      split_and!; [done| |by intros ?%Hi%proj1].
      exists b. split_and!; try done.
      intros Hred'. split; [by apply Hi|].
      destruct (col_of h (ctop c)) eqn:E; [|done].
      specialize (Hred eq_refl). congruence.
    + destruct Hf as (Hi & Hl & Hr).
      destruct (black_height h l) as [a|] eqn:Ha; [|done].
      destruct (black_height h t) as [b|] eqn:Hb; [|done].
      destruct (decide (a = b)) as [->|]; [|done]. injection Hm as <-.
      split_and!; [done| |by intros ?%Hi%proj2].
      exists b. split_and!; try done.
      intros Hred'. split; [by apply Hi|].
      destruct (col_of h (ctop c)) eqn:E; [|done].
      specialize (Hred eq_refl). congruence.
Qed.

Lemma no_red_red_iff h h' t :
  (∀ i, i ∈ ids t → col h' i = col h i) →
  no_red_red h' t ↔ no_red_red h t.
Proof.
  intros H. split; apply no_red_red_ext; [|done]. intros. symmetry. by apply H.
Qed.

Lemma ctx_rb_iff h h' c n :
  (∀ i, i ∈ cids c → col h' i = col h i) →
  ctx_rb h' c n ↔ ctx_rb h c n.
Proof.
  intros H. split; apply ctx_rb_ext; [|done]. intros. symmetry. by apply H.
Qed.

Lemma black_height_red h l x r n :
  col h x = RED → black_height h (Br l x r) = Some n →
  black_height h l = Some n ∧ black_height h r = Some n.
Proof.
  simpl. intros Hx. destruct (black_height h l) as [a|]; [|done].
  destruct (black_height h r) as [b|]; [|done].
  destruct (decide (a = b)) as [->|]; [|done].
  rewrite decide_False by congruence. by intros [= ->].
Qed.

Lemma col_of_croot_ext h h' c (y y' : option ref) :
  c ≠ [] → (∀ i, i ∈ cids c → col h' i = col h i) →
  col_of h' (croot c y) = col_of h (croot c y').
Proof.
  intros Hc H. destruct (croot_elem c y Hc) as (i & Hi & Hin).
  rewrite (croot_indep c y' y Hc), Hi. simpl. by apply H.
Qed.

End rb_pure.

Ltac recol_ne :=
  let E := fresh in
  intros E; injection E as E; revert E;
  lazymatch goal with |- ?a = ?b → False => change (a ≠ b) end; nd_solve.

Ltac recol_simpl Hk :=
  rewrite ?Hk; unfold recol;
  repeat first
    [ rewrite decide_True by reflexivity
    | rewrite decide_False by recol_ne ].

Ltac ext_tac Hk :=
  let i := fresh "i" in
  let Hi := fresh "Hi" in
  intros i Hi; rewrite Hk; unfold recol;
  repeat (rewrite decide_False by recol_ne); reflexivity.

Ltac to_old Hk h h' :=
  cbn [no_red_red black_height ctx_rb fsib fid top ctop col_of fill];
  repeat match goal with
    | |- context [black_height h' ?t] =>
        rewrite (black_height_ext h h' t) by ext_tac Hk
    | |- context [no_red_red h' ?t] =>
        rewrite (no_red_red_iff h h' t) by ext_tac Hk
    | |- context [ctx_rb h' ?c ?n] =>
        rewrite (ctx_rb_iff h h' c n) by ext_tac Hk
    | |- context [col_of h' (top ?t)] =>
        rewrite (col_of_top_ext h h' t) by ext_tac Hk
    | |- context [col_of h' (ctop ?c)] =>
        rewrite (col_of_ctop_ext h h' c) by ext_tac Hk
    end;
  recol_simpl Hk.

Ltac rb_fin :=
  repeat match goal with
    | H : black_height _ _ = Some _ |- _ => rewrite !H
    | H : col _ _ = _ |- _ => rewrite !H
    | H : col_of _ _ = _ |- _ => rewrite !H
    end;
  rewrite ?decide_True by done; rewrite ?decide_False by done;
  repeat (split || intro); try done; try congruence.

Ltac root_fin Hk h h' c Hroot :=
  let Hc := fresh in
  destruct (decide (c = [])) as [->|Hc];
  [ first [ by right | left; cbn [croot col_of fid]; by recol_simpl Hk ]
  | left; cbn [croot fid] in Hroot |- *;
    erewrite (col_of_croot_ext h h' c) by (done || ext_tac Hk);
    exact Hroot ].

Section rb_step.
Implicit Types (h : list Node) (t l r T : shape) (c : ctx) (k : coloring).

Lemma fixInsert_step_inv h h' c l x r k' c' l' x' r' :
  NoDup (ids (Br l x r) ++ cids c) →
  fixInsert_inv h c l x r →
  fixInsert_step (col h) c l x r = Some (k', c', l', x', r') →
  (∀ i, col h' i = k' i) →
  fixInsert_inv h' c' l' x' r'.
Proof.
  intros Hnd (Hx & Hsub & (n & Hn & Hc) & Hroot).
  destruct c as [|f [|g c]]; simpl; try done.
  destruct (decide (col h (fid f) = RED)) as [Hp|]; [|done].
  simpl in Hc. destruct Hc as (Hs1 & Hs2 & Hs3 & Hc).
  destruct (Hs3 Hp) as [Hs4 Hg]. clear Hs3.
  rewrite decide_False in Hc by congruence.
  destruct Hc as (Hu1 & Hu2 & _ & Hc).
  rewrite decide_True in Hc by done.
  destruct Hroot as [Hroot|]; [|done].
  destruct (black_height_red h l x r n Hx Hn) as [Hl Hr].
  pose proof Hsub as (Hxc & Hnl & Hnr). destruct (Hxc Hx) as [Hlc Hrc].
  clear Hxc Hsub Hn.
  destruct g as [gp u|u gp]; simpl in Hg, Hu1, Hu2;
    (destruct (decide (kof (col h) (top u) = RED)) as [Hu|Hu%color_cases];
     [ destruct u as [|ul un ur]; [done|]; simpl in Hu;
       destruct (black_height_red h ul un ur n Hu Hu2) as [Hul Hur];
       destruct Hu1 as (Huc & Hnul & Hnur); destruct (Huc Hu) as [Hulc Hurc];
       clear Huc Hu2
     | change (col_of h (top u) = BLACK) in Hu ]);
    destruct f as [p sib|sib p]; intros [= <- <- <- <- <-] Hk;
    simpl in Hp, Hs1, Hs2, Hs4, Hnd, Hroot;
    unfold fixInsert_inv;
    (split; [by recol_simpl Hk|]);
    (split; [to_old Hk h h'; rb_fin|]);
    (split; [| root_fin Hk h h' c Hroot ]);
    first [ solve [exists n; to_old Hk h h'; rb_fin]
          | solve [exists (Datatypes.S n); to_old Hk h h'; rb_fin] ].
Qed.

End rb_step.

(** ** [fixInsert] and [insert] restore the rules *)

Section rb_heap.
Implicit Types (s : RedBlackTree) (t l r T : shape) (c : ctx).

Lemma fixInsert_stop_rb h c l x r :
  fixInsert_inv h c l x r →
  fixInsert_step (col h) c l x r = None →
  no_red_red h (plug c (Br l x r))
  ∧ is_Some (black_height h (plug c (Br l x r))).
Proof.
  intros (Hx & Hsub & (n & Hn & Hc) & Hroot) Hstep.
  eapply plug_rb; [done..|]. intros Hred. exfalso.
  destruct c as [|f [|g c]]; simpl in *; [done|..].
  - destruct Hroot as [Hroot|]; [congruence|done].
  - rewrite decide_True in Hstep by done.
    destruct g as [gp u|u gp];
      destruct (decide (kof (col h) (top u) = RED)); by destruct f.
Qed.

Lemma blacken_root_rb h h' T rt :
  top T = Some rt → NoDup (ids T) →
  no_red_red h T → is_Some (black_height h T) →
  (∀ i, col h' i = recol (col h) (Some rt) BLACK i) →
  root_black h' T ∧ no_red_red h' T ∧ is_Some (black_height h' T).
Proof.
  destruct T as [|l i r]; [done|]. intros [= ->] Hnd (H1 & H2 & H3) [n Hn] Hk.
  simpl in Hnd, Hn.
  destruct (black_height h l) as [a|] eqn:Ha; [|done].
  destruct (black_height h r) as [b|] eqn:Hb; [|done].
  destruct (decide (a = b)) as [->|]; [|done].
  unfold root_black. to_old Hk h h'. rewrite Ha, Hb.
  rewrite !decide_True by done. split_and!; try done; by eexists.
Qed.

Lemma col_upd_recol k j s i :
  is_Some (links (nodes s) j) →
  col (nodes (upd (set_color k) j s)) i = recol (col (nodes s)) (Some j) k i.
Proof.
  intros Hj. unfold recol. destruct (decide (Some i = Some j)) as [[= ->]|Hne].
  - by apply col_upd_color.
  - apply col_upd_ne. congruence.
Qed.

Lemma recol_ext (k k' : coloring) p (a : Color) i :
  k i = k' i → recol k p a i = recol k' p a i.
Proof. unfold recol. by intros ->. Qed.

End rb_heap.

Ltac recol_heap :=
  let i := fresh "i" in
  intros i;
  repeat first
    [ reflexivity
    | match goal with
      | H : ∀ i, col (nodes ?s2) i = _ |- context [ col (nodes ?s2) _ ] =>
          rewrite !H
      end
    | rewrite col_upd_recol by (eexists; solve_links); apply recol_ext ].

Section rb_heap_step.
Implicit Types (s : RedBlackTree) (t l r T : shape) (c : ctx).

(** One iteration of [fixInsert] does on the store what [fixInsert_step]
    does on shapes and colourings. *)
Lemma fixInsert_body_step s c l x r :
  Rep s (plug c (Br l x r)) →
  (col_of (nodes s) (root s) = BLACK ∨ c = []) →
  match fixInsert_step (col (nodes s)) c l x r with
  | None => fixInsert_body x s = Some (inr tt, s)
  | Some (k', c', l', x', r') =>
      ∃ s', fixInsert_body x s = Some (inl x', s')
        ∧ Rep s' (plug c' (Br l' x' r'))
        ∧ (∀ i, col (nodes s') i = k' i)
  end.
Proof.
  intros HRep Hrb.
  destruct c as [|f c].
  { unfold fixInsert_body. open_Rep HRep. by exec. }
  assert (∃ p, p = fid f) as [p Hp] by eauto.
  destruct (decide (col (nodes s) p = RED)) as [Hred|Hblack]; cycle 1.
  { assert (fixInsert_step (col (nodes s)) (f :: c) l x r = None) as ->.
    { simpl. destruct c; [done|]. subst p. by rewrite decide_False. }
    unfold fixInsert_body.
    destruct f; simpl in Hp; subst; open_Rep HRep; exec;
      by rewrite decide_False. }
  destruct c as [|g c].
  { exfalso. destruct Hrb as [Hrb|]; [|done]. destruct HRep as [Hroot _ _].
    rewrite Hroot, top_plug in Hrb. simpl in Hrb. congruence. }
  cbn [fixInsert_step]. rewrite decide_True by (by subst p).
  unfold fixInsert_body, getN, get_opt, is_red.
  destruct g as [gp u|u gp].
  - (* the parent is the left child of the grandparent *)
    destruct (decide (col_of (nodes s) (top u) = RED)) as [Hu|Hu].
    + (* red uncle: recolour and move two levels up *)
      rewrite (decide_True (P := kof _ _ = RED)) by exact Hu.
      destruct u as [|ul un ur]; [done|]. simpl in Hu.
      destruct f as [p0 sib|sib p0]; simpl in Hp; subst; open_Rep HRep; exec;
        rewrite ?decide_True by done; exec;
        rewrite bool_decide_eq_true_2 by done; exec;
        (eexists; split; [reflexivity|]; split;
         [ by do 3 (apply Rep_upd_keep; [auto with heap|])
         | cbn [top fid]; recol_heap ]).
    + (* black uncle: rotate *)
      rewrite (decide_False (P := kof _ _ = RED)) by exact Hu.
      destruct f as [p0 sib|sib p0]; simpl in Hp; subst; open_Rep HRep; exec;
        rewrite ?decide_True by done; exec;
        (erewrite (bind_eq (is_red (top u))) by (by eapply is_red_eq));
        rewrite bool_decide_eq_false_2 by done; cbn beta iota; exec.
      * exec_rotateRight at c (Br l x r) p0 sib u as s2 HR2 Hd2 Hl2.
        { by do 2 (apply Rep_upd_keep; [auto with heap|]). }
        eexists; split; [reflexivity|]; split; [done|]. recol_heap.
      * exec_rotateLeft at (FL gp u :: c) sib l x r as s2 HR2 Hd2 Hl2.
        { done. }
        open_Rep HR2. exec.
        exec_rotateRight at c (Br sib p0 l) x r u as s3 HR3 Hd3 Hl3.
        { by do 2 (apply Rep_upd_keep; [auto with heap|]). }
        eexists; split; [reflexivity|]; split; [done|]. recol_heap.
  - (* the parent is the right child of the grandparent *)
    destruct (decide (col_of (nodes s) (top u) = RED)) as [Hu|Hu].
    + rewrite (decide_True (P := kof _ _ = RED)) by exact Hu.
      destruct u as [|ul un ur]; [done|]. simpl in Hu.
      destruct f as [p0 sib|sib p0]; simpl in Hp; subst; open_Rep HRep; exec;
        rewrite ?decide_True by done; exec;
        rewrite bool_decide_eq_true_2 by done; exec;
        (eexists; split; [reflexivity|]; split;
         [ by do 3 (apply Rep_upd_keep; [auto with heap|])
         | cbn [top fid]; recol_heap ]).
    + rewrite (decide_False (P := kof _ _ = RED)) by exact Hu.
      destruct f as [p0 sib|sib p0]; simpl in Hp; subst; open_Rep HRep; exec;
        rewrite ?decide_True by done; exec;
        (erewrite (bind_eq (is_red (top u))) by (by eapply is_red_eq));
        rewrite bool_decide_eq_false_2 by done; cbn beta iota; exec.
      * exec_rotateRight at (FR u gp :: c) l x r sib as s2 HR2 Hd2 Hl2.
        { done. }
        open_Rep HR2. exec.
        exec_rotateLeft at c u l x (Br r p0 sib) as s3 HR3 Hd3 Hl3.
        { by do 2 (apply Rep_upd_keep; [auto with heap|]). }
        eexists; split; [reflexivity|]; split; [done|]. recol_heap.
      * exec_rotateLeft at c u sib p0 (Br l x r) as s2 HR2 Hd2 Hl2.
        { by do 2 (apply Rep_upd_keep; [auto with heap|]). }
        eexists; split; [reflexivity|]; split; [done|]. recol_heap.
Qed.

End rb_heap_step.

Section rb_loop.
Implicit Types (s : RedBlackTree) (t l r T : shape) (c : ctx).

Lemma bind_inv {A B} (m : M A) (k : A → M B) s b s' :
  (m ≫= k) s = Some (b, s') →
  ∃ a s1, m s = Some (a, s1) ∧ k a s1 = Some (b, s').
Proof.
  unfold mbind, M_bind. destruct (m s) as [[a s1]|]; [|done]. eauto.
Qed.

Lemma root_setroot (o : option ref) s : root (setroot o s) = o.
Proof. reflexivity. Qed.

(** What every exit of a loop body establishes from an invariant holds when
    the loop returns. *)
Lemma while_inv {St R} (body : St → M (St + R))
    (I : St → RedBlackTree → Prop) (Q : R → RedBlackTree → Prop) :
  (∀ st s x s', I st s → body st s = Some (x, s') →
     match x with inl st' => I st' s' | inr res => Q res s' end) →
  ∀ fuel st s res s',
    I st s → while fuel body st s = Some (res, s') → Q res s'.
Proof.
  intros Hbody. induction fuel as [|fuel IH]; intros st s res s' HI; [done|].
  simpl. intros (x & s1 & Hb & Hk)%bind_inv.
  specialize (Hbody st s x s1 HI Hb). destruct x as [st'|r'].
  - exact (IH st' s1 res s' Hbody Hk).
  - unfold ret, mret, M_ret in Hk. by injection Hk as <- <-.
Qed.

Lemma red_black_Rep s T :
  Rep s T → root_black (nodes s) T → no_red_red (nodes s) T →
  is_Some (black_height (nodes s) T) → red_black s.
Proof. intros HR ???. unfold red_black. by rewrite (shape_of_Rep s T HR). Qed.

(** [fixInsert] restores the rules when only the colour of the node breaks
    them. *)
Lemma fixInsert_rb s c l x r fuel s' :
  Rep s (plug c (Br l x r)) → fixInsert_inv (nodes s) c l x r →
  fixInsert fuel x s = Some (tt, s') → red_black s'.
Proof.
  intros HRep Hinv. unfold fixInsert.
  intros ([] & s1 & Hloop & Hrest)%bind_inv.
  pose (I := λ (x' : ref) (s0 : RedBlackTree),
    ∃ c' l' r', Rep s0 (plug c' (Br l' x' r'))
      ∧ fixInsert_inv (nodes s0) c' l' x' r').
  pose (Q := λ (_ : unit) (s0 : RedBlackTree),
    ∃ l' rt r', Rep s0 (Br l' rt r') ∧ no_red_red (nodes s0) (Br l' rt r')
      ∧ is_Some (black_height (nodes s0) (Br l' rt r'))).
  assert (Q tt s1) as (l1 & rt & r1 & HR1 & Hn1 & Hb1).
  { eapply (while_inv fixInsert_body I Q); [|by exists c, l, r|exact Hloop].
    clear. intros x s res s' (c & l & r & HRep & Hinv) Hbody.
    pose proof (fixInsert_body_step s c l x r HRep) as Hstep.
    destruct (fixInsert_step (col (nodes s)) c l x r)
      as [[[[[k' c'] l'] x'] r']|] eqn:Hs.
    - destruct Hstep as (s'' & Hb & HR' & Hk).
      { destruct Hinv as (_ & _ & _ & [Hr|Hr]); [left|by right].
        destruct HRep as [-> _ _]. by rewrite top_plug. }
      rewrite Hb in Hbody. injection Hbody as <- <-.
      exists c', l', r'. split; [done|].
      eapply fixInsert_step_inv; [|done..].
      by apply Rep_plug in HRep as (_ & _ & _ & ?).
    - rewrite Hstep in Hbody.
      2:{ destruct Hinv as (_ & _ & _ & [Hr|Hr]); [left|by right].
          destruct HRep as [-> _ _]. by rewrite top_plug. }
      injection Hbody as <- <-.
      destruct (fixInsert_stop_rb _ _ _ _ _ Hinv Hs) as [H1 H2].
      destruct (plug_Br c l x r) as (l' & i' & r' & E). rewrite E in *.
      by exists l', i', r'. }
  pose proof HR1 as [Hroot Hrep Hnd]. simpl in Hroot, Hrep. destruct_and?.
  revert Hrest. exec. rewrite Hroot. exec. rewrite put_eq. intros [= <-].
  destruct (blacken_root_rb (nodes s1)
    (nodes (upd (set_color BLACK) rt s1)) (Br l1 rt r1) rt) as (? & ? & ?);
    [done..| |].
  { intros i. apply col_upd_recol. eauto. }
  eapply red_black_Rep; [|done..]. by apply Rep_upd_keep.
Qed.

(** [insert] keeps the five rules. *)
Lemma insert_red_black s v fuel s' :
  Inv s → red_black s → insert fuel v s = Some (tt, s') → red_black s'.
Proof.
  intros (Hwf & Hrb & _) (_ & Hnrr & Hbh). unfold well_formed in Hwf.
  set (T := shape_of s) in *. unfold insert.
  intros (rt & s0 & [= <- <-] & Hrest)%bind_inv.
  destruct T as [|l x r] eqn:HT.
  - destruct Hwf as [Hroot _ _]. simpl in Hroot. rewrite Hroot in Hrest.
    revert Hrest. exec. rewrite root_setroot. exec. rewrite put_eq.
    intros [= <-]. set (n := length (nodes s)).
    assert (Rep (upd (set_color BLACK) n (setroot (Some n) (alloc v s)))
              (Br Leaf n Leaf)) as HR'.
    { split; [done| |simpl; apply NoDup_singleton].
      simpl. split_and!; [|done..]. solve_links. }
    eapply red_black_Rep; [done|..].
    + unfold root_black. simpl. apply col_upd_color. eexists. solve_links.
    + simpl. rewrite col_upd_color by (eexists; solve_links). done.
    + simpl. rewrite col_upd_color by (eexists; solve_links). by eexists.
  - pose proof Hwf as [Hroot _ _]. simpl in Hroot. rewrite Hroot in Hrest.
    apply bind_inv in Hrest as (nw & s1 & Hatt & Hfix).
    destruct (attach_spec s (Br l x r) v Hwf)
      as (s1' & Hr1 & HR1 & Hd1 & Hn1 & Hl1); [done|].
    apply (Runs_det _ _ _ _ _ _ Hr1) in Hatt as [= -> ->].
    set (c := descend_ctx v (nodes s) (Br l x r) []) in *.
    assert (Hc : c ≠ []) by (apply descend_nonempty; by left).
    pose proof (descend_plug v (nodes s) (Br l x r) []) as Hplug.
    simpl plug in Hplug. fold c in Hplug.
    assert (∀ i, i ∈ cids c → col (nodes s1') i = col (nodes s) i) as Hcol.
    { intros i Hi. apply col_data, Hd1, Nat.lt_neq.
      eapply Rep_ids_lt; [exact Hwf|]. rewrite <-Hplug. apply elem_plug.
      by right. }
    rewrite <-Hplug in Hnrr, Hbh.
    destruct (rb_plug _ _ _ Hnrr Hbh) as (_ & (n & Hn & Hctx) & _).
    simpl in Hn. injection Hn as <-.
    eapply fixInsert_rb; [exact HR1| |exact Hfix].
    apply data_col_val in Hn1 as [Hcn _].
    split_and!.
    + done.
    + simpl. done.
    + exists O. split.
      * simpl. by rewrite decide_False by congruence.
      * by eapply ctx_rb_ext.
    + left. rewrite (col_of_croot_ext (nodes s) (nodes s1') c _ None) by done.
      assert (root s = croot c None) as <-; [|done].
      destruct Hwf as [-> _ _]. by rewrite <-Hplug, top_plug.
Qed.

End rb_loop.

(** ** Insertion keeps the red-black rules *)

Section rb_theorems.
Implicit Types (s : RedBlackTree) (t l r T : shape) (c : ctx) (v : Z).

(** A subtree that satisfies rules 4 and 5 with black height [n] has at
    least [2^n - 1] nodes and at most [2n] levels, one more when its top is
    RED. *)
Lemma rb_height h t n :
  no_red_red h t → black_height h t = Some n →
  (2 ^ n ≤ size t + 1)%nat
  ∧ (height t ≤ 2 * n + (if decide (col_of h (top t) = RED) then 1 else 0))%nat.
Proof.
  revert n. induction t as [|l IHl i r IHr]; intros n; simpl.
  - intros _ [= <-]. simpl. lia.
  - intros (Hi & Hl & Hr).
    destruct (black_height h l) as [a|]; [|done].
    destruct (black_height h r) as [b|]; [|done].
    destruct (decide (a = b)) as [<-|]; [|done].
    destruct (IHl a Hl eq_refl) as [Hsl Hhl].
    destruct (IHr a Hr eq_refl) as [Hsr Hhr].
    destruct (col h i) eqn:Hc; simpl.
    + destruct Hi as [Hlc Hrc]; [done|]. rewrite Hlc in Hhl. rewrite Hrc in Hhr.
      simpl in Hhl, Hhr. intros [= <-]. split; lia.
    + intros [= <-]. rewrite Nat.pow_succ_r'. 
      destruct (decide (col_of h (top l) = RED)),
        (decide (col_of h (top r) = RED)); split; lia.
Qed.

Lemma red_black_height_bound s : red_black s → height_bound s.
Proof.
  intros (Hroot & Hnrr & [n Hn]). unfold height_bound, root_black in *.
  destruct (rb_height _ _ _ Hnrr Hn) as [Hs Hh].
  rewrite Hroot in Hh. simpl in Hh.
  etrans; [apply (Nat.pow_le_mono_r 2 _ (2 * n)); lia|].
  rewrite Nat.mul_comm, Nat.pow_mul_r. apply Nat.pow_le_mono_l. lia.
Qed.

Lemma red_black_empty : red_black empty.
Proof. apply (@bool_decide_unpack _ (red_black_dec _)). by vm_compute. Qed.

Lemma Inv_insert_red_black s v :
  Inv s → red_black s →
  ∃ s', Runs (λ fuel, insert fuel v) s tt s' ∧ Inv s' ∧ red_black s'
    ∧ keys s' ≡ₚ v :: keys s.
Proof.
  intros HI Hrb. destruct (Inv_insert s v HI) as (s' & Hrun & HI' & Hk).
  exists s'. split; [done|]. split; [done|]. split; [|done].
  destruct Hrun as [[f0 Hf] _].
  apply (insert_red_black s v f0 s' HI Hrb). by apply Hf.
Qed.

Lemma run_inserts_red_black (l : list Z) s :
  Inv s → red_black s →
  ∃ s', Runs (λ fuel, run fuel (Insert <$> l)) s (replicate (length l) true) s'
    ∧ Inv s' ∧ red_black s' ∧ keys s' ≡ₚ l ++ keys s.
Proof.
  revert s. induction l as [|v l IH]; intros s HI Hrb.
  - exists s. split; [apply Runs_run_nil|]. by split_and!.
  - destruct (Inv_insert_red_black s v HI Hrb) as (s1 & Hrun & HI1 & Hrb1 & Hk1).
    destruct (IH s1 HI1 Hrb1) as (s2 & Hrun2 & HI2 & Hrb2 & Hk2).
    exists s2. split; [|split; [done|split; [done|]]].
    + change (Runs (λ fuel, run fuel (Insert v :: (Insert <$> l))) s
                (true :: replicate (length l) true) s2).
      eapply Runs_run_cons; [by apply Runs_run_insert|done].
    + rewrite Hk2, Hk1. simpl. by rewrite Permutation_middle.
Qed.

(** X14: [insert] keeps the five red-black rules: on a reachable tree that
    satisfies them, it returns a tree that satisfies them, and whose height
    is therefore within the red-black bound. *)
Theorem insert_keeps_red_black s v :
  reachable s → red_black s →
  ∃ s', Runs (λ fuel, insert fuel v) s tt s'
    ∧ red_black s' ∧ height_bound s'.
Proof.
  intros HI%reachable_Inv Hrb.
  destruct (Inv_insert_red_black s v HI Hrb) as (s' & Hrun & _ & Hrb' & _).
  exists s'. split; [done|]. split; [done|]. by apply red_black_height_bound.
Qed.

Lemma small_tree_red_black : red_black small_tree.
Proof. apply (@bool_decide_unpack _ (red_black_dec _)). by vm_compute. Qed.

Lemma insert_keeps_red_black_witness :
  reachable small_tree ∧ red_black small_tree
  ∧ ∃ s', Runs (λ fuel, insert fuel 4) small_tree tt s'
      ∧ red_black s' ∧ height_bound s'.
Proof.
  split; [exact small_tree_reachable|]. split; [exact small_tree_red_black|].
  exact (insert_keeps_red_black small_tree 4 small_tree_reachable
           small_tree_red_black).
Defined.

(** X15: a tree built by insertions alone, in any order and with any
    repetitions, satisfies the five red-black rules and the height bound,
    and holds the inserted keys. *)
Theorem inserts_red_black (l : list Z) :
  ∃ s,
    Runs (λ fuel, run fuel (Insert <$> l)) empty (replicate (length l) true) s
    ∧ red_black s ∧ height_bound s ∧ keys s ≡ₚ l.
Proof.
  destruct (run_inserts_red_black l empty Inv_empty red_black_empty)
    as (s & Hrun & _ & Hrb & Hk).
  exists s. split; [done|]. split; [done|].
  split; [by apply red_black_height_bound|]. by rewrite Hk, app_nil_r.
Qed.

End rb_theorems.

(** ** Printing *)

Section printing.
Implicit Types (s : RedBlackTree) (t l r T : shape) (c : ctx).

Lemma printTree_rep s p t ind fuel :
  rep (nodes s) p t →
  ((height t < fuel)%nat →
     printTree fuel (top t) ind s = Some (render (nodes s) t ind, s))
  ∧ (∀ res, printTree fuel (top t) ind s = Some res →
       res = (render (nodes s) t ind, s)).
Proof.
  revert p ind fuel. induction t as [|l IHl i r IHr]; intros p ind fuel Hrep.
  - destruct fuel; simpl; (split; [try lia; done|]); [done|].
    by intros res [= <-].
  - simpl in Hrep. destruct Hrep as (Hi & Hl & Hr).
    destruct fuel as [|fuel]; [split; [simpl; lia|done]|].
    destruct (IHl (Some i) (ind +:+ "  L: ") fuel Hl) as [IHl1 IHl2].
    destruct (IHr (Some i) (ind +:+ "  R: ") fuel Hr) as [IHr1 IHr2].
    clear IHl IHr. cbn [printTree top]. exec.
    set (line := ind +:+ pretty (val (nodes s) i) +:+ "("
                 +:+ color_name (col (nodes s) i) +:+ ")").
    set (actL := match top l with
                 | Some _ => printTree fuel (top l) (ind +:+ "  L: ")
                 | None => ret [ind +:+ "  L: null"]
                 end).
    set (actR := match top r with
                 | Some _ => printTree fuel (top r) (ind +:+ "  R: ")
                 | None => ret [ind +:+ "  R: null"]
                 end).
    set (outL := match l with
                 | Leaf => [ind +:+ "  L: null"]
                 | _ => render (nodes s) l (ind +:+ "  L: ")
                 end).
    set (outR := match r with
                 | Leaf => [ind +:+ "  R: null"]
                 | _ => render (nodes s) r (ind +:+ "  R: ")
                 end).
    assert (((height l < fuel)%nat → actL s = Some (outL, s))
            ∧ ∀ res, actL s = Some res → res = (outL, s)) as [HL1 HL2].
    { subst actL outL. destruct l; [|done]. simpl. split; [done|].
      by intros res [= <-]. }
    assert (((height r < fuel)%nat → actR s = Some (outR, s))
            ∧ ∀ res, actR s = Some res → res = (outR, s)) as [HR1 HR2].
    { subst actR outR. destruct r; [|done]. simpl. split; [done|].
      by intros res [= <-]. }
    assert (((height (Br l i r) < Datatypes.S fuel)%nat →
              (actL ≫= λ outl, actR ≫= λ outr, ret (line :: outl ++ outr)) s
              = Some (line :: outL ++ outR, s))
            ∧ ∀ res,
              (actL ≫= λ outl, actR ≫= λ outr, ret (line :: outl ++ outr)) s
              = Some res → res = (line :: outL ++ outR, s)) as [H1 H2].
    { split.
      - simpl. intros Hh.
        rewrite (bind_eq _ _ _ _ _ (HL1 ltac:(lia))).
        by rewrite (bind_eq _ _ _ _ _ (HR1 ltac:(lia))).
      - intros [out s'] (outl & s1 & Ha & Hb)%bind_inv.
        apply HL2 in Ha as [= -> ->].
        apply bind_inv in Hb as (outr & s2 & Hc & Hd).
        apply HR2 in Hc as [= -> ->]. by injection Hd as <- <-. }
    clearbody actL actR. 
    destruct l as [|ll j lr], r as [|rl k rr]; cbn [top render]; try done.
    split; [done|]. by intros res [= <-].
Qed.

Lemma render_Br h l i r ind :
  render h (Br l i r) ind
  = match l, r with
    | Leaf, Leaf =>
        [ind +:+ pretty (val h i) +:+ "(" +:+ color_name (col h i) +:+ ")"]
    | _, _ =>
        (ind +:+ pretty (val h i) +:+ "(" +:+ color_name (col h i) +:+ ")")
        :: (match l with
            | Leaf => [ind +:+ "  L: null"]
            | _ => render h l (ind +:+ "  L: ")
            end)
        ++ (match r with
            | Leaf => [ind +:+ "  R: null"]
            | _ => render h r (ind +:+ "  R: ")
            end)
    end.
Proof. done. Qed.

Lemma render_length h t ind :
  length (render h t ind) = (size t + one_child t)%nat.
Proof.
  revert ind. induction t as [|l IHl i r IHr]; intros ind; [done|].
  rewrite render_Br. cbn [size one_child].
  destruct l as [|ll j lr], r as [|rl k rr]; cbn beta iota; [done|..];
    rewrite length_cons, length_app, ?IHl, ?IHr; cbn [length size one_child];
    lia.
Qed.

(** X16: on every well-formed tree [printTree()] returns and changes
    nothing; it prints the lines of the tree in pre-order: one line for each
    node, and one more for each node that has exactly one child; nothing is
    printed for the empty tree. *)
Theorem printTree_renders s :
  well_formed s →
  Runs printTree_root s (render (nodes s) (shape_of s) "") s
  ∧ length (render (nodes s) (shape_of s) "")
    = (size (shape_of s) + one_child (shape_of s))%nat
  ∧ (root s = None → render (nodes s) (shape_of s) "" = []).
Proof.
  intros Hwf. unfold well_formed in Hwf. split; [|split].
  - destruct Hwf as [Hroot Hrep _]. split.
    + exists (Datatypes.S (height (shape_of s))). intros fuel Hf.
      unfold printTree_root. rewrite (bind_eq _ _ _ _ _ (get_root_eq s)).
      rewrite Hroot. eapply printTree_rep; [done|lia].
    + intros fuel [out s']. unfold printTree_root.
      intros (rt & s1 & [= <- <-] & H)%bind_inv. rewrite Hroot in H.
      revert H. by eapply printTree_rep.
  - apply render_length.
  - intros Hr. destruct Hwf as [Hroot _ _]. rewrite Hr in Hroot.
    by destruct (shape_of s).
Qed.

Lemma printTree_renders_witness :
  well_formed small_tree
  ∧ Runs printTree_root small_tree
      (render (nodes small_tree) (shape_of small_tree) "") small_tree
  ∧ length (render (nodes small_tree) (shape_of small_tree) "")
    = (size (shape_of small_tree) + one_child (shape_of small_tree))%nat
  ∧ (root small_tree = None →
       render (nodes small_tree) (shape_of small_tree) "" = []).
Proof.
  split; [exact small_tree_well_formed|].
  exact (printTree_renders small_tree small_tree_well_formed).
Defined.

(** What the source file prints after its eleven insertions. *)
Lemma demo_print :
  ∃ s,
    run 64 (Insert <$> demo_values) empty = Some (replicate 11 true, s)
    ∧ printTree_root 64 s
      = Some (["10(BLACK)";
               "  L: 5(RED)";
               "  L:   L: 3(BLACK)";
               "  L:   L:   L: 1(RED)";
               "  L:   L:   R: 4(RED)";
               "  L:   R: 7(BLACK)";
               "  L:   R:   L: 6(RED)";
               "  L:   R:   R: 8(RED)";
               "  R: 15(BLACK)";
               "  R:   L: 12(RED)";
               "  R:   R: 17(RED)"], s).
Proof.
  eexists. split; [vm_compute; reflexivity|]. vm_compute. reflexivity.
Qed.

End printing.
